(** * AutoDoc: the tolerant JSON extractor of [CodeAnalyzer.jsx]

    A shallow embedding of [extractJsonFromText], [extractJsonFromFences] and
    of the part of [analyzeCode] that combines them
    (src/src/components/CodeAnalyzer.jsx), with the built-ins they rely on
    ([String.prototype.slice], [String.prototype.trim], [RegExp.prototype.exec]
    on the fence pattern, [JSON.parse]).

    JavaScript strings are sequences of UTF-16 code units; a code unit is an
    [N].  The objects the helpers create and mutate (the [starts] array and
    the [RegExp] with its [lastIndex]) live in an explicit heap; exceptions
    are an explicit outcome. *)

From Stdlib Require Import String Ascii List NArith ZArith Bool Lia.
Import ListNotations.
Local Open Scope nat_scope.
Local Open Scope list_scope.

Set Warnings "-register-all".

(* ================================================================= *)
(** ** Texts *)

Definition code_unit := N.
Definition text := list code_unit.

(** The text of a literal, one code unit per character. *)
Definition lit (x : string) : text :=
  map N_of_ascii (list_ascii_of_string x).
Arguments lit x%_string.

(** The same with every apostrophe standing for a double quote, so that JSON
    examples read as they do in the source. *)
Definition json_lit (x : string) : text :=
  map (fun c => if N.eqb c 39 then 34%N else c) (lit x).
Arguments json_lit x%_string.

Definition LF : text := [10%N].
Definition lbrace : code_unit := 123%N.
Definition rbrace : code_unit := 125%N.
Definition backtick : code_unit := 96%N.

(** [s[i]]: the code unit at index [i], [undefined] ([None]) out of range. *)
Definition char_at (s : text) (i : nat) : option code_unit := nth_error s i.

(** [s[i] === c] for a one-character string [c]. *)
Definition is_cu (x : option code_unit) (c : code_unit) : bool :=
  match x with
  | Some d => N.eqb d c
  | None => false
  end.

(** [s.slice(from, to)] for non-negative integers: both ends are clamped to
    the length and an empty span gives the empty string. *)
Definition slice (s : text) (from to : nat) : text :=
  firstn (to - from) (skipn from s).

(** WhiteSpace and LineTerminator code units, which [trim] removes. *)
Definition is_white_space (c : code_unit) : bool :=
  ((9 <=? c) && (c <=? 13) || (c =? 32) || (c =? 160) || (c =? 5760)
   || (8192 <=? c) && (c <=? 8202) || (c =? 8232) || (c =? 8233)
   || (c =? 8239) || (c =? 8287) || (c =? 12288) || (c =? 65279))%N.

Fixpoint trim_start (s : text) : text :=
  match s with
  | c :: s' => if is_white_space c then trim_start s' else s
  | [] => []
  end.

Definition trim (s : text) : text := rev (trim_start (rev (trim_start s))).

(* ================================================================= *)
(** ** Values *)

(** A number is kept as the decimal its literal denotes,
    [(-1)^negative * digits * 10^exp10]; the Number value is the double
    nearest to it.  The code never computes with the numbers it extracts. *)
Record decimal := Decimal { negative : bool; digits : N; exp10 : Z }.

(** The values [JSON.parse] produces, and [undefined].  An object is the list
    of its properties (a key occurs once). *)
Inductive jsval :=
| VUndefined
| VNull
| VBool (b : bool)
| VNumber (d : decimal)
| VString (s : text)
| VArray (elems : list jsval)
| VObject (props : list (text * jsval)).

Definition typeof (v : jsval) : string :=
  match v with
  | VUndefined => "undefined"
  | VNull => "object"
  | VBool _ => "boolean"
  | VNumber _ => "number"
  | VString _ => "string"
  | VArray _ => "object"
  | VObject _ => "object"
  end.

(** The double nearest to a decimal is [+0] or [-0] exactly when its absolute
    value is at most [2^-1075], half of the least positive double (the tie
    goes to the even neighbour, zero). *)
Definition rounds_to_zero (d : decimal) : bool :=
  (digits d =? 0)%N
  || ((exp10 d <? 0)%Z
      && (Z.of_N (digits d) * 2 ^ 1075 <=? 10 ^ (- exp10 d))%Z).

(** ToBoolean. *)
Definition truthy (v : jsval) : bool :=
  match v with
  | VUndefined => false
  | VNull => false
  | VBool b => b
  | VNumber d => negb (rounds_to_zero d)
  | VString s => match s with [] => false | _ => true end
  | VArray _ => true
  | VObject _ => true
  end.

(* ================================================================= *)
(** ** Heap, exceptions and the monad of the embedding *)

Inductive error :=
| SyntaxError
| TypeError
| Error (message : string).

(** How a computation ends.  [OutOfFuel] is the end of a loop whose fuel ran
    out; it is shown below never to happen. *)
Inductive outcome (A : Type) :=
| Normal (a : A)
| Throw (e : error)
| OutOfFuel.
Arguments Normal {A} a.
Arguments Throw {A} e.
Arguments OutOfFuel {A}.

Inductive object :=
| Array (elems : list nat)
| RegExp (lastIndex : nat).

Definition addr := nat.
Definition heap := list object.

Definition M (A : Type) := heap -> outcome A * heap.

Definition ret {A} (a : A) : M A := fun h => (Normal a, h).

Definition bind {A B} (m : M A) (k : A -> M B) : M B :=
  fun h =>
    match m h with
    | (Normal a, h') => k a h'
    | (Throw e, h') => (Throw e, h')
    | (OutOfFuel, h') => (OutOfFuel, h')
    end.

Definition throw {A} (e : error) : M A := fun h => (Throw e, h).

Definition out_of_fuel {A} : M A := fun h => (OutOfFuel, h).

(** [try { m } catch (e) { handler e }] *)
Definition try_catch {A} (m : M A) (handler : error -> M A) : M A :=
  fun h =>
    match m h with
    | (Throw e, h') => handler e h'
    | r => r
    end.

Notation "x <- m ;; k" := (bind m (fun x => k))
  (at level 61, m at next level, right associativity).
Notation "m ;; k" := (bind m (fun _ => k))
  (at level 61, right associativity).

(** A new object, at the first free address. *)
Definition alloc (o : object) : M addr :=
  fun h => (Normal (length h), h ++ [o]).

Fixpoint store (h : heap) (a : addr) (o : object) : heap :=
  match h, a with
  | [], _ => []
  | _ :: h', O => o :: h'
  | x :: h', S a' => x :: store h' a' o
  end.

(** [arr.push(x)] *)
Definition array_push (a : addr) (x : nat) : M unit :=
  fun h =>
    match nth_error h a with
    | Some (Array elems) => (Normal tt, store h a (Array (elems ++ [x])))
    | _ => (Throw TypeError, h)
    end.

(** The elements of an array, as its iterator yields them. *)
Definition array_elems (a : addr) : M (list nat) :=
  fun h =>
    match nth_error h a with
    | Some (Array elems) => (Normal elems, h)
    | _ => (Throw TypeError, h)
    end.

Definition get_lastIndex (a : addr) : M nat :=
  fun h =>
    match nth_error h a with
    | Some (RegExp i) => (Normal i, h)
    | _ => (Throw TypeError, h)
    end.

Definition set_lastIndex (a : addr) (i : nat) : M unit :=
  fun h =>
    match nth_error h a with
    | Some (RegExp _) => (Normal tt, store h a (RegExp i))
    | _ => (Throw TypeError, h)
    end.

(* ================================================================= *)
(** ** The fence pattern

    [fenceRegex] is three backticks, an optional label among [json],
    [python], [py], [txt], a line feed, a lazily repeated any-character
    class captured as group 1, and three backticks; its flags are [g] and
    [i]. *)

(** Canonicalize under the [i] flag (without [u]): a code unit is compared
    through its upper case.  Only the ASCII letters are folded here: the
    pattern is ASCII, and no code unit outside ASCII is canonicalized to an
    ASCII one. *)
Definition canonicalize (c : code_unit) : code_unit :=
  if ((97 <=? c) && (c <=? 122))%N then (c - 32)%N else c.

(** A run of pattern characters matched at the head of [l]; the rest of [l]
    after it. *)
Fixpoint match_literal (pat l : text) : option text :=
  match pat, l with
  | [], _ => Some l
  | p :: pat', c :: l' =>
      if (canonicalize p =? canonicalize c)%N then match_literal pat' l'
      else None
  | _ :: _, [] => None
  end.

Definition fence : text := [backtick; backtick; backtick].

Definition fence_labels : list text :=
  [lit "json"; lit "python"; lit "py"; lit "txt"].

(** The lazy any-character repetition followed by the closing fence: the
    fewest code units are taken.  The capture, and the text after the
    match. *)
Fixpoint lazy_until_fence (l : text) : option (text * text) :=
  match match_literal fence l with
  | Some rest => Some ([], rest)
  | None =>
      match l with
      | [] => None
      | c :: l' =>
          match lazy_until_fence l' with
          | Some (cap, rest) => Some (c :: cap, rest)
          | None => None
          end
      end
  end.

(** The first alternative whose continuation succeeds (backtracking). *)
Fixpoint first_alternative {A} (alts : list text) (k : text -> option A)
  : option A :=
  match alts with
  | [] => None
  | a :: alts' =>
      match k a with
      | Some r => Some r
      | None => first_alternative alts' k
      end
  end.

(** The whole pattern matched at the head of [l]: group 1 and the text after
    the match.  The optional group is greedy: its alternatives are tried in
    order before the empty label. *)
Definition match_fence_at (l : text) : option (text * text) :=
  match match_literal fence l with
  | None => None
  | Some l1 =>
      first_alternative (fence_labels ++ [[]])
        (fun label =>
           match match_literal label l1 with
           | None => None
           | Some l2 =>
               match match_literal LF l2 with
               | None => None
               | Some l3 => lazy_until_fence l3
               end
           end)
  end.

(** The leftmost position among [positions] where the pattern matches: group
    1 and the index just after the match. *)
Fixpoint search (s : text) (positions : list nat) : option (text * nat) :=
  match positions with
  | [] => None
  | p :: ps =>
      match match_fence_at (skipn p s) with
      | Some (cap, rest) => Some (cap, length s - length rest)
      | None => search s ps
      end
  end.

(** [fenceRegex.exec(s)] on the RegExp object at [re]: the search starts at
    [lastIndex]; a match moves [lastIndex] to its end and yields group 1, a
    failure resets [lastIndex] to 0 and yields [null]. *)
Definition fenceRegex_exec (re : addr) (s : text) : M (option text) :=
  lastIndex <- get_lastIndex re ;;
  match search s (seq lastIndex (S (length s) - lastIndex)) with
  | Some (m1, e) => set_lastIndex re e ;; ret (Some m1)
  | None => set_lastIndex re 0 ;; ret None
  end.

(* ================================================================= *)
(** ** The extractor *)

Section Extractor.

(** [JSON.parse] on a string: the value, or [None] when it throws a
    SyntaxError. *)
Variable JSON_parse : text -> option jsval.

Definition JSON_parse_call (t : text) : M jsval :=
  match JSON_parse t with
  | Some v => ret v
  | None => throw SyntaxError
  end.

(** [for (let i = 0; i < s.length; i++) if (s[i] === '{') starts.push(i);] *)
Fixpoint collect_starts (s : text) (starts : addr) (idx : list nat)
  : M unit :=
  match idx with
  | [] => ret tt
  | i :: idx' =>
      (if is_cu (char_at s i) lbrace then array_push starts i else ret tt) ;;
      collect_starts s starts idx'
  end.

(** The inner loop, [for (let i = start; i < s.length; i++)], with the
    local [depth]; [idx] holds the values [i] still has to take.  [Some v]
    is [return v] out of the function, [None] is the loop left by [break]
    or by its condition. *)
Fixpoint scan (s : text) (start : nat) (idx : list nat) (depth : Z)
  : M (option jsval) :=
  match idx with
  | [] => ret None
  | i :: idx' =>
      if is_cu (char_at s i) lbrace then scan s start idx' (depth + 1)%Z
      else if is_cu (char_at s i) rbrace then
        let depth := (depth - 1)%Z in
        if (depth =? 0)%Z then
          let candidate := slice s start (i + 1) in
          try_catch
            (v <- JSON_parse_call candidate ;; ret (Some v))
            (fun _ => ret None)
        else scan s start idx' depth
      else scan s start idx' depth
  end.

(** [for (const start of starts) { ... } return null;] *)
Fixpoint try_starts (s : text) (starts : list nat) : M jsval :=
  match starts with
  | [] => ret VNull
  | start :: rest =>
      r <- scan s start (seq start (length s - start)) 0%Z ;;
      match r with
      | Some v => ret v
      | None => try_starts s rest
      end
  end.

Definition extractJsonFromText (s : jsval) : M jsval :=
  if negb (truthy s) || negb (typeof s =? "string")%string then ret VNull
  else
    match s with
    | VString t =>
        starts <- alloc (Array []) ;;
        collect_starts t starts (seq 0 (length t)) ;;
        elems <- array_elems starts ;;
        try_starts t elems
    | _ => ret VNull (* not reached: typeof s is 'string' *)
    end.

(** [while ((m = fenceRegex.exec(s)) !== null) { ... } return null;]  Every
    match moves [lastIndex] forward, so [length s + 1] rounds of fuel are
    enough. *)
Fixpoint fences_loop (fuel : nat) (re : addr) (s : text) : M jsval :=
  match fuel with
  | O => out_of_fuel
  | S fuel' =>
      m <- fenceRegex_exec re s ;;
      match m with
      | None => ret VNull
      | Some m1 =>
          let block := trim m1 in
          r <- try_catch
                 (v <- JSON_parse_call block ;; ret (Some v))
                 (fun _ =>
                    parsed <- extractJsonFromText (VString block) ;;
                    if truthy parsed then ret (Some parsed) else ret None) ;;
          match r with
          | Some v => ret v
          | None => fences_loop fuel' re s
          end
      end
  end.

Definition extractJsonFromFences (s : jsval) : M jsval :=
  if negb (truthy s) || negb (typeof s =? "string")%string then ret VNull
  else
    match s with
    | VString t =>
        fenceRegex <- alloc (RegExp 0) ;;
        fences_loop (S (length t)) fenceRegex t
    | _ => ret VNull (* not reached: typeof s is 'string' *)
    end.

(** The object [analyzeCode] builds when no JSON is recovered: the raw
    content as a single informational suggestion. *)
Definition number (n : N) : jsval := VNumber (Decimal false n 0).

Definition fallback (analysisContent : jsval) : jsval :=
  VObject
    [ (lit "errors", VArray []);
      (lit "warnings", VArray []);
      (lit "suggestions",
        VArray
          [ VObject
              [ (lit "line", number 0);
                (lit "code", VString (lit "Analysis Result"));
                (lit "message", analysisContent);
                (lit "severity", VString (lit "info")) ] ]);
      (lit "summary",
        VObject
          [ (lit "errorCount", number 0);
            (lit "warningCount", number 0);
            (lit "suggestionCount", number 1) ]) ].

(** [analyzeCode], from [let analysisContent = jobData.result] to the end
    of the inner [try]/[catch]: the value handed to [setAnalysisResult]. *)
Definition analyzeCode_result (analysisContent : jsval) : M jsval :=
  try_catch
    (if (typeof analysisContent =? "object")%string then ret analysisContent
     else if (typeof analysisContent =? "string")%string then
       fromFences <- extractJsonFromFences analysisContent ;;
       if truthy fromFences then ret fromFences
       else
         fromBraces <- extractJsonFromText analysisContent ;;
         if truthy fromBraces then ret fromBraces
         else throw (Error "No JSON found in response")
     else throw (Error "Unexpected analysis response format"))
    (fun jsonError => ret (fallback analysisContent)).

End Extractor.

(* ================================================================= *)
(** ** [JSON.parse]

    A recursive-descent parser of the JSON grammar (ECMA-404), as
    [JSON.parse] applies it to a string, without a reviver. *)

Module JSON.

(** The result of a parsing function: a value and the text after it, a
    syntax error, or the fuel of the recursion used up. *)
Inductive parsed (A : Type) :=
| Ok (a : A) (rest : text)
| Bad
| Fuel.
Arguments Ok {A} a rest.
Arguments Bad {A}.
Arguments Fuel {A}.

(** JSON whitespace: space, tab, line feed, carriage return. *)
Definition is_ws (c : code_unit) : bool :=
  ((c =? 32) || (c =? 9) || (c =? 10) || (c =? 13))%N.

Fixpoint skip_ws (l : text) : text :=
  match l with
  | c :: l' => if is_ws c then skip_ws l' else l
  | [] => []
  end.

(** The exact characters of [pat] at the head of [l]. *)
Fixpoint expect (pat l : text) : option text :=
  match pat, l with
  | [], _ => Some l
  | p :: pat', c :: l' => if (p =? c)%N then expect pat' l' else None
  | _ :: _, [] => None
  end.

Definition is_digit (c : code_unit) : bool := ((48 <=? c) && (c <=? 57))%N.

(** The longest run of digits at the head of [l], read onto [acc]: the
    number read, how many digits it had, and the rest. *)
Fixpoint read_digits (l : text) (acc : N) : N * nat * text :=
  match l with
  | c :: l' =>
      if is_digit c then
        let '(n, k, r) := read_digits l' (acc * 10 + (c - 48))%N in
        (n, S k, r)
      else (acc, 0, l)
  | [] => (acc, 0, l)
  end.

Definition read_sign (l : text) : bool * text :=
  match l with
  | c :: r =>
      if (c =? 45)%N then (true, r)
      else if (c =? 43)%N then (false, r)
      else (false, l)
  | [] => (false, l)
  end.

(** The fraction and the exponent, after the integer part [n]. *)
Definition read_fraction_exponent (neg : bool) (n : N) (l : text)
  : option (decimal * text) :=
  let fraction :=
    match l with
    | c :: r =>
        if (c =? 46)%N then
          let '(m, k, r') := read_digits r n in
          match k with
          | O => None
          | S _ => Some (m, k, r')
          end
        else Some (n, 0, l)
    | [] => Some (n, 0, l)
    end in
  match fraction with
  | None => None
  | Some (m, k, l2) =>
      match l2 with
      | c :: r =>
          if ((c =? 101) || (c =? 69))%N then
            let '(eneg, r1) := read_sign r in
            let '(e, ke, r2) := read_digits r1 0%N in
            match ke with
            | O => None
            | S _ =>
                let e' := if eneg then (- Z.of_N e)%Z else Z.of_N e in
                Some (Decimal neg m (e' - Z.of_nat k), r2)
            end
          else Some (Decimal neg m (- Z.of_nat k), l2)
      | [] => Some (Decimal neg m (- Z.of_nat k), l2)
      end
  end.

(** A number: an optional minus, [0] or a digit from 1 to 9 followed by
    digits, an optional fraction, an optional exponent. *)
Definition read_number (l : text) : option (decimal * text) :=
  let '(neg, l1) :=
    match l with
    | c :: r => if (c =? 45)%N then (true, r) else (false, l)
    | [] => (false, l)
    end in
  match l1 with
  | c :: r =>
      if (c =? 48)%N then read_fraction_exponent neg 0%N r
      else if is_digit c then
        let '(n, _, r') := read_digits l1 0%N in
        read_fraction_exponent neg n r'
      else None
  | [] => None
  end.

Definition hex_value (c : code_unit) : option N :=
  if is_digit c then Some (c - 48)%N
  else if ((97 <=? c) && (c <=? 102))%N then Some (c - 87)%N
  else if ((65 <=? c) && (c <=? 70))%N then Some (c - 55)%N
  else None.

(** The character a single-character escape stands for. *)
Definition unescape (c : code_unit) : option code_unit :=
  if (c =? 34)%N then Some 34%N
  else if (c =? 92)%N then Some 92%N
  else if (c =? 47)%N then Some 47%N
  else if (c =? 98)%N then Some 8%N
  else if (c =? 102)%N then Some 12%N
  else if (c =? 110)%N then Some 10%N
  else if (c =? 114)%N then Some 13%N
  else if (c =? 116)%N then Some 9%N
  else None.

Definition cons_to (c : code_unit) (r : option (text * text))
  : option (text * text) :=
  match r with
  | Some (s, rest) => Some (c :: s, rest)
  | None => None
  end.

(** A string after its opening quote: its code units and the text after
    the closing quote.  Control characters below U+0020 are refused. *)
Fixpoint read_string (l : text) : option (text * text) :=
  match l with
  | [] => None
  | c :: l' =>
      if (c =? 34)%N then Some ([], l')
      else if (c =? 92)%N then
        match l' with
        | [] => None
        | e :: l'' =>
            if (e =? 117)%N then
              match l'' with
              | a :: b :: c' :: d :: l4 =>
                  match hex_value a, hex_value b, hex_value c', hex_value d
                  with
                  | Some x, Some y, Some z, Some w =>
                      cons_to (x * 4096 + y * 256 + z * 16 + w)%N
                        (read_string l4)
                  | _, _, _, _ => None
                  end
              | _ => None
              end
            else
              match unescape e with
              | Some x => cons_to x (read_string l'')
              | None => None
              end
        end
      else if (c <? 32)%N then None
      else cons_to c (read_string l')
  end.

(** Defining a property: an existing key keeps its place and takes the new
    value, a new key goes last. *)
Fixpoint set_prop (props : list (text * jsval)) (k : text) (v : jsval)
  : list (text * jsval) :=
  match props with
  | [] => [(k, v)]
  | (k', v') :: props' =>
      if list_eq_dec N.eq_dec k' k then (k, v) :: props'
      else (k', v') :: set_prop props' k v
  end.

Definition keyword (word : string) (v : jsval) (l : text) : parsed jsval :=
  match expect (lit word) l with
  | Some r => Ok v r
  | None => Bad
  end.

Fixpoint value (fuel : nat) (l : text) : parsed jsval :=
  match fuel with
  | O => Fuel
  | S fuel' =>
      match skip_ws l with
      | [] => Bad
      | c :: r =>
          if (c =? 123)%N then
            match skip_ws r with
            | [] => Bad
            | c' :: r' =>
                if (c' =? 125)%N then Ok (VObject []) r'
                else members fuel' r []
            end
          else if (c =? 91)%N then
            match skip_ws r with
            | [] => Bad
            | c' :: r' =>
                if (c' =? 93)%N then Ok (VArray []) r'
                else elements fuel' r []
            end
          else if (c =? 34)%N then
            match read_string r with
            | Some (s, r') => Ok (VString s) r'
            | None => Bad
            end
          else if (c =? 116)%N then keyword "true" (VBool true) (c :: r)
          else if (c =? 102)%N then keyword "false" (VBool false) (c :: r)
          else if (c =? 110)%N then keyword "null" VNull (c :: r)
          else
            match read_number (c :: r) with
            | Some (d, r') => Ok (VNumber d) r'
            | None => Bad
            end
      end
  end

with members (fuel : nat) (l : text) (acc : list (text * jsval))
  : parsed jsval :=
  match fuel with
  | O => Fuel
  | S fuel' =>
      match skip_ws l with
      | [] => Bad
      | c :: r =>
          if (c =? 34)%N then
            match read_string r with
            | None => Bad
            | Some (k, r1) =>
                match skip_ws r1 with
                | [] => Bad
                | c1 :: r2 =>
                    if (c1 =? 58)%N then
                      match value fuel' r2 with
                      | Ok v r3 =>
                          match skip_ws r3 with
                          | [] => Bad
                          | c2 :: r4 =>
                              if (c2 =? 44)%N then
                                members fuel' r4 (set_prop acc k v)
                              else if (c2 =? 125)%N then
                                Ok (VObject (set_prop acc k v)) r4
                              else Bad
                          end
                      | Bad => Bad
                      | Fuel => Fuel
                      end
                    else Bad
                end
            end
          else Bad
      end
  end

with elements (fuel : nat) (l : text) (acc : list jsval) : parsed jsval :=
  match fuel with
  | O => Fuel
  | S fuel' =>
      match value fuel' l with
      | Ok v r1 =>
          match skip_ws r1 with
          | [] => Bad
          | c :: r2 =>
              if (c =? 44)%N then elements fuel' r2 (acc ++ [v])
              else if (c =? 93)%N then Ok (VArray (acc ++ [v])) r2
              else Bad
          end
      | Bad => Bad
      | Fuel => Fuel
      end
  end.

(** [JSON.parse(s)]: one value, whitespace around it and nothing else.
    [None] is the SyntaxError.  The fuel is never used up (see
    [value_fuel]). *)
Definition parse (s : text) : option jsval :=
  match value (2 * length s + 2) s with
  | Ok v rest =>
      match skip_ws rest with
      | [] => Some v
      | _ :: _ => None
      end
  | Bad => None
  | Fuel => None
  end.

(** A parsing result on [l] is fine when it is not the end of the fuel
    and, on success, has consumed something. *)
Definition fine (l : text) (x : parsed jsval) : Prop :=
  match x with
  | Ok _ rest => length rest < length l
  | Bad => True
  | Fuel => False
  end.

End JSON.

(** The indices of the opening braces of [s], increasing. *)
Definition brace_positions (s : text) : list nat :=
  filter (fun i => is_cu (char_at s i) lbrace) (seq 0 (length s)).

(* ================================================================= *)
(** ** The extraction as the specification words it

    Strategy B as a list of candidates tried in order, Strategy A as a list
    of fenced blocks tried in order.  These definitions work on the text
    itself, with no index, array or RegExp state; the theorems below relate
    them to the embedding of the code. *)

Section Specification.

Variable JSON_parse : text -> option jsval.

(** Depth counting from [depth] over [l]: the shortest prefix of [l] at
    whose end the depth is back to zero. *)
Fixpoint balanced_prefix (depth : Z) (l : text) : option text :=
  match l with
  | [] => None
  | c :: l' =>
      if (c =? lbrace)%N then
        option_map (cons c) (balanced_prefix (depth + 1) l')
      else if (c =? rbrace)%N then
        if (depth - 1 =? 0)%Z then Some [c]
        else option_map (cons c) (balanced_prefix (depth - 1) l')
      else option_map (cons c) (balanced_prefix depth l')
  end.

(** The candidates of a text, in the order of their opening brace: for
    every opening brace whose depth returns to zero, the substring from it
    through the matching close. *)
Fixpoint candidates (l : text) : list text :=
  match l with
  | [] => []
  | c :: l' =>
      if (c =? lbrace)%N then
        match balanced_prefix 0 l with
        | Some cand => cand :: candidates l'
        | None => candidates l'
        end
      else candidates l'
  end.

(** The parse of the first candidate that parses, [null] when none does. *)
Fixpoint first_parsed (cands : list text) : jsval :=
  match cands with
  | [] => VNull
  | c :: cs =>
      match JSON_parse c with
      | Some v => v
      | None => first_parsed cs
      end
  end.

Definition brace_scan (s : text) : jsval := first_parsed (candidates s).

(** The fenced blocks of a text in order of appearance: the contents of
    the leftmost match of the fence pattern, then those of the text after
    that match.  [skip] is the number of code units still inside the
    previous match. *)
Fixpoint fence_blocks_from (skip : nat) (l : text) : list text :=
  match l with
  | [] => []
  | _ :: l' =>
      match skip with
      | S k => fence_blocks_from k l'
      | O =>
          match match_fence_at l with
          | Some (cap, rest) =>
              cap :: fence_blocks_from (length l' - length rest) l'
          | None => fence_blocks_from 0 l'
          end
      end
  end.

Definition fence_blocks (s : text) : list text := fence_blocks_from 0 s.

(** What one block yields: the direct parse of its trimmed content,
    otherwise what brace scanning recovers from it, if anything. *)
Definition recover (block : text) : option jsval :=
  match JSON_parse (trim block) with
  | Some v => Some v
  | None =>
      let v := brace_scan (trim block) in
      if truthy v then Some v else None
  end.

Fixpoint first_recovered (blocks : list text) : jsval :=
  match blocks with
  | [] => VNull
  | b :: bs =>
      match recover b with
      | Some v => v
      | None => first_recovered bs
      end
  end.

(** The brace depth of a text: opening minus closing braces. *)
Fixpoint brace_depth (l : text) : Z :=
  match l with
  | [] => 0
  | c :: l' =>
      ((if (c =? lbrace)%N then 1 else if (c =? rbrace)%N then -1 else 0)
       + brace_depth l')%Z
  end.

(** What the two helpers and the combined path return, in these terms. *)
Definition text_result (v : jsval) : jsval :=
  match v with
  | VString s => brace_scan s
  | _ => VNull
  end.

Definition text_garbage (v : jsval) : heap :=
  match v with
  | VString (c :: s) => [Array (brace_positions (c :: s))]
  | _ => []
  end.

Definition fences_result (v : jsval) : jsval :=
  match v with
  | VString s => first_recovered (fence_blocks s)
  | _ => VNull
  end.

Definition analysis_value (v : jsval) : jsval :=
  if (typeof v =? "object")%string then v
  else if (typeof v =? "string")%string then
    if truthy (fences_result v) then fences_result v
    else if truthy (text_result v) then text_result v
    else fallback v
  else fallback v.

End Specification.

(** A candidate is a substring that opens with a brace, has depth zero, and
    has positive depth at every proper non-empty prefix: it ends at the
    close matching its opening brace, not at an inner one. *)
Definition depth_matched (cand : text) : Prop :=
  brace_depth cand = 0%Z
  /\ (exists rest, cand = lbrace :: rest)
  /\ forall p1 p2,
       cand = p1 ++ p2 -> p1 <> [] -> p2 <> [] -> (0 < brace_depth p1)%Z.

(** Where a reader of a JSON text stands: outside the string literals,
    inside one, or inside one just after a backslash. *)
Inductive lexical :=
| Outside
| Inside
| Escaped.

Definition lex_step (st : lexical) (c : code_unit) : lexical :=
  match st with
  | Outside => if (c =? 34)%N then Inside else Outside
  | Inside =>
      if (c =? 34)%N then Outside
      else if (c =? 92)%N then Escaped
      else Inside
  | Escaped => Inside
  end.

Definition is_brace (c : code_unit) : bool :=
  ((c =? lbrace) || (c =? rbrace))%N.

(** Whether some brace of [l] stands inside a string literal, for a reader
    who is in state [st] at the start of [l]. *)
Fixpoint brace_in_string (st : lexical) (l : text) : bool :=
  match l with
  | [] => false
  | c :: l' =>
      match st with
      | Outside => false
      | _ => is_brace c
      end
      || brace_in_string (lex_step st c) l'
  end.

(** The state of the reader after [p]. *)
Definition lex_end (st : lexical) (p : text) : lexical :=
  fold_left lex_step p st.

(** A stretch of text with no quote and no brace. *)
Definition plain (p : text) : Prop :=
  Forall (fun c => c <> 34%N /\ is_brace c = false) p.

(** Braces that close all that was opened and never more than that. *)
Definition balanced (p : text) : Prop :=
  brace_depth p = 0%Z
  /\ forall p1 p2, p = p1 ++ p2 -> (0 <= brace_depth p1)%Z.

(** A stretch of text that begins and ends outside the string literals
    and, when none of its braces is inside a literal, is balanced. *)
Definition segment (p : text) : Prop :=
  lex_end Outside p = Outside
  /\ (brace_in_string Outside p = false -> balanced p).

(** The text [l] is a segment followed by [r]. *)
Definition segment_before (l r : text) : Prop :=
  exists p, l = p ++ r /\ segment p.

(** A label of the pattern in any mix of cases, or no label. *)
Definition is_fence_label (label : text) : Prop :=
  In (map canonicalize label) (map (map canonicalize) (fence_labels ++ [[]])).

(* ================================================================= *)
(** ** Fenced blocks, as a reader of the text sees them

    A fenced block opens with three backticks, an optional label ([json],
    [python], [py] or [txt], in any mix of cases) and a line feed; its
    content runs from there to the next three backticks, which close it.
    Nothing here refers to the pattern matcher of the embedding. *)

(** The fence that closes a block is the first one after its opening line:
    with the closing fence appended, [body] holds three backticks in a row
    only at the very end. *)
Definition closes_first (body : text) : Prop :=
  forall p q, body ++ fence = p ++ fence ++ q -> q = [].

(** The text [l] begins with a fenced block of content [body], and [post]
    is what follows its closing fence. *)
Definition fenced_block (l body post : text) : Prop :=
  exists label,
    is_fence_label label
    /\ l = fence ++ label ++ LF ++ body ++ fence ++ post
    /\ closes_first body.

(** The contents of the fenced blocks of a text, in order of appearance:
    the first block is the one that opens leftmost, and the following ones
    are the blocks of the text after its closing fence. *)
Inductive blocks_in_order : text -> list text -> Prop :=
| no_block (l : text) :
    (forall pre rest body post,
        l = pre ++ rest -> ~ fenced_block rest body post) ->
    blocks_in_order l []
| first_block (pre rest body post : text) (blocks : list text) :
    fenced_block rest body post ->
    (forall pre1 pre2 body' post',
        pre = pre1 ++ pre2 -> pre2 <> [] ->
        ~ fenced_block (pre2 ++ rest) body' post') ->
    blocks_in_order post blocks ->
    blocks_in_order (pre ++ rest) (body :: blocks).

(* ================================================================= *)
(** ** The texts of the examples *)

Module Examples.

Definition bad_then_ok : text := json_lit "{bad json} then {'ok':true}".

Definition nested : text := json_lit "{'a': {'b': 2}}".

Definition brace_in_string : text := json_lit "{'a':'}'}".

Definition no_json : text := lit "no json here".

(** Prose that holds an object of its own, then a fenced object. *)
Definition prose_and_fence : text :=
  json_lit "{'p':0} ```json" ++ LF ++ json_lit "{'x':1}" ++ LF
  ++ lit "``` done".

(** A fenced array: no opening brace anywhere. *)
Definition fenced_array : text :=
  lit "```" ++ LF ++ lit "[1]" ++ LF ++ lit "```".

(** A block that parses to [null], then a block that holds an object. *)
Definition null_then_object : text :=
  lit "```TXT" ++ LF ++ lit "null" ++ LF ++ lit "``` and ```Json" ++ LF
  ++ json_lit "{'x':1}" ++ LF ++ lit "```".

Definition false_then_object : text :=
  lit "```" ++ LF ++ lit "false" ++ LF ++ lit "``` and ```py" ++ LF
  ++ json_lit "{'x':1}" ++ LF ++ lit "```".

(** A block that holds no JSON, then a block that holds an object among
    other words. *)
Definition words_then_object : text :=
  lit "```" ++ LF ++ lit "not json" ++ LF ++ lit "``` then ```txt" ++ LF
  ++ json_lit "result: {'x':1} ok" ++ LF ++ lit "```".

(** Prose that holds an object of its own, a fenced [null], then a fenced
    object. *)
Definition prose_null_fence : text :=
  json_lit "{'p':0} ```" ++ LF ++ lit "null" ++ LF ++ lit "``` ```json"
  ++ LF ++ json_lit "{'x':1}" ++ LF ++ lit "```".

(** A nested object with a closing brace inside a string. *)
Definition nested_brace_in_string : text := json_lit "{'a': {'b': '}'}}".

End Examples.

(* ================================================================= *)
(** ** GitHubIntegration: the batches of [pushFilesToRepo]

    Contents are fetched ten files at a time and files are pushed five at a
    time.  The rounds of the two loops are modelled, not the requests made
    in a round. *)

(** [arr.slice(from, to)] on an array, for non-negative integers. *)
Definition array_slice {A} (l : list A) (from to : nat) : list A :=
  firstn (to - from) (skipn from l).

(** [Math.ceil(n / size)] for an array length [n] and a batch size of 10 or
    5.  The quotient is a double within 2^-21 of the exact one, and the
    exact one is an integer or at least a tenth away from one, so the
    ceiling is the exact ceiling. *)
Definition ceil_div (n size : nat) : nat := (n + (size - 1)) / size.

(** What one round works on: [start], [end] (the log line reads
    [start + 1]-[end]) and [batch]. *)
Record round (A : Type) := Round {
  round_start : nat;
  round_end : nat;
  round_batch : list A
}.
Arguments Round {A} _ _ _.
Arguments round_start {A} _.
Arguments round_end {A} _.
Arguments round_batch {A} _.

(** The body of the loop for [batchNum], up to the requests. *)
Definition batch_round {A} (batchSize : nat) (files : list A) (batchNum : nat)
  : round A :=
  let start := batchNum * batchSize in
  let end_ := Nat.min (start + batchSize) (length files) in
  Round start end_ (array_slice files start end_).

(** [for (let batchNum = 0; batchNum < totalBatches; batchNum++)] *)
Definition batch_rounds {A} (batchSize : nat) (files : list A)
  : list (round A) :=
  let totalBatches := ceil_div (length files) batchSize in
  map (batch_round batchSize files) (seq 0 totalBatches).

(** The loop over [filesToFetch], [batchSize = 10]. *)
Definition fetch_rounds {A} (filesToFetch : list A) : list (round A) :=
  batch_rounds 10 filesToFetch.

(** The loop over [files], [pushBatchSize = 5]. *)
Definition push_rounds {A} (files : list A) : list (round A) :=
  batch_rounds 5 files.

(* ================================================================= *)
(** ** More string and object built-ins *)

(** [a === b] on strings. *)
Fixpoint text_eqb (a b : text) : bool :=
  match a, b with
  | [], [] => true
  | x :: a', y :: b' => (x =? y)%N && text_eqb a' b'
  | _, _ => false
  end.

(** [s.split(sep)] for a one-character separator: the segments between the
    separators, at least one. *)
Fixpoint split (sep : code_unit) (s : text) : list text :=
  match s with
  | [] => [[]]
  | c :: s' =>
      if (c =? sep)%N then [] :: split sep s'
      else
        match split sep s' with
        | seg :: segs => (c :: seg) :: segs
        | [] => [[c]] (* not reached: a split is never empty *)
        end
  end.

(** [arr.pop()], as a value: the last element, [undefined] on an empty
    array. *)
Fixpoint pop {A} (l : list A) : option A :=
  match l with
  | [] => None
  | [x] => Some x
  | _ :: l' => pop l'
  end.

(** [s.endsWith(suffix)] *)
Definition endsWith (s suffix : text) : bool :=
  (length suffix <=? length s)
  && text_eqb (skipn (length s - length suffix) s) suffix.

(** [s.includes(part)] *)
Fixpoint starts_with (s part : text) : bool :=
  match part, s with
  | [], _ => true
  | p :: part', c :: s' => (p =? c)%N && starts_with s' part'
  | _ :: _, [] => false
  end.

Fixpoint includes (s part : text) : bool :=
  starts_with s part
  || match s with
     | [] => false
     | _ :: s' => includes s' part
     end.

(** [arr.join(sep)] on an array of strings. *)
Fixpoint join (sep : text) (l : list text) : text :=
  match l with
  | [] => []
  | [x] => x
  | x :: l' => x ++ sep ++ join sep l'
  end.

(** [toLowerCase] as it acts on ASCII code units; the others are left as
    they are.  It stands in for the built-in on ASCII texts. *)
Definition ascii_toLowerCase (s : text) : text :=
  map (fun c => if ((65 <=? c) && (c <=? 90))%N then (c + 32)%N else c) s.

(** The names every object literal inherits from [Object.prototype]. *)
Definition object_prototype_keys : list text :=
  [lit "constructor"; lit "__proto__"; lit "hasOwnProperty";
   lit "isPrototypeOf"; lit "propertyIsEnumerable"; lit "toLocaleString";
   lit "toString"; lit "valueOf"; lit "__defineGetter__";
   lit "__defineSetter__"; lit "__lookupGetter__"; lit "__lookupSetter__"].

(** [obj[key]] on an object literal: its own property, else what
    [Object.prototype] has under that name (a built-in function, or the
    prototype itself for [__proto__]), else [undefined]. *)
Inductive looked_up (V : Type) :=
| Own (v : V)
| Inherited (key : text)
| Missing.
Arguments Own {V} v.
Arguments Inherited {V} key.
Arguments Missing {V}.

Fixpoint own_property {V} (obj : list (text * V)) (key : text) : option V :=
  match obj with
  | [] => None
  | (k, v) :: obj' => if text_eqb k key then Some v else own_property obj' key
  end.

Definition get_property {V} (obj : list (text * V)) (key : text)
  : looked_up V :=
  match own_property obj key with
  | Some v => Own v
  | None =>
      if existsb (text_eqb key) object_prototype_keys then Inherited key
      else Missing
  end.

(** The property key an optional string stands for. *)
Definition property_key (x : option text) : text :=
  match x with
  | Some t => t
  | None => lit "undefined"
  end.

(* ================================================================= *)
(** ** CodeAnalyzer: file types, icons, the file list *)

Module Analyzer.

(** What [getFileType] can return: a type name, or a built-in inherited from
    [Object.prototype] when the extension is one of its names. *)
Inductive file_type :=
| Named (t : text)
| Builtin (key : text).

Inductive icon :=
| FiCode
| FiFileText
| FiFolder
| FiFile
| NotAnIcon (key : text).

Record tree_entry := TreeEntry {
  entry_type : text;
  entry_path : text;
  entry_size : option N
}.

(** An element of [files]; [content] is absent until the file is loaded or
    saved. *)
Record file := File {
  name : text;
  path : text;
  type : file_type;
  size : N;
  downloadUrl : text;
  isDirectory : bool;
  content : option text
}.

Definition typeMap : list (text * text) :=
  [ (lit "js", lit "javascript"); (lit "jsx", lit "javascript");
    (lit "ts", lit "typescript"); (lit "tsx", lit "typescript");
    (lit "py", lit "python"); (lit "java", lit "java");
    (lit "cpp", lit "cpp"); (lit "c", lit "c"); (lit "cs", lit "csharp");
    (lit "php", lit "php"); (lit "rb", lit "ruby"); (lit "go", lit "go");
    (lit "rs", lit "rust"); (lit "swift", lit "swift");
    (lit "kt", lit "kotlin"); (lit "scala", lit "scala");
    (lit "html", lit "html"); (lit "css", lit "css");
    (lit "scss", lit "scss"); (lit "json", lit "json");
    (lit "xml", lit "xml"); (lit "yaml", lit "yaml");
    (lit "yml", lit "yaml"); (lit "md", lit "markdown");
    (lit "txt", lit "text") ].

Definition iconMap : list (text * icon) :=
  [ (lit "javascript", FiCode); (lit "typescript", FiCode);
    (lit "python", FiCode); (lit "java", FiCode); (lit "cpp", FiCode);
    (lit "c", FiCode); (lit "csharp", FiCode); (lit "php", FiCode);
    (lit "ruby", FiCode); (lit "go", FiCode); (lit "rust", FiCode);
    (lit "swift", FiCode); (lit "kotlin", FiCode); (lit "scala", FiCode);
    (lit "html", FiCode); (lit "css", FiCode); (lit "scss", FiCode);
    (lit "json", FiFileText); (lit "xml", FiFileText);
    (lit "yaml", FiFileText); (lit "markdown", FiFileText);
    (lit "text", FiFileText); (lit "folder", FiFolder) ].

Definition binaryExtensions : list text :=
  [ lit ".jpg"; lit ".jpeg"; lit ".png"; lit ".gif"; lit ".bmp"; lit ".ico";
    lit ".svg"; lit ".pdf"; lit ".doc"; lit ".docx"; lit ".ppt";
    lit ".pptx"; lit ".xls"; lit ".xlsx"; lit ".zip"; lit ".tar"; lit ".gz";
    lit ".rar"; lit ".7z"; lit ".exe"; lit ".dll"; lit ".so"; lit ".dylib";
    lit ".mp3"; lit ".mp4"; lit ".avi"; lit ".mov"; lit ".webm";
    lit ".ttf"; lit ".woff"; lit ".woff2"; lit ".eot" ].

(** [iconMap[type] || FiFile].  A built-in used as a key is turned into its
    source text, which is no property of [iconMap] or of
    [Object.prototype]. *)
Definition getFileIcon (type_ : file_type) : icon :=
  match type_ with
  | Named t =>
      match get_property iconMap t with
      | Own i => i
      | Inherited key => NotAnIcon key
      | Missing => FiFile
      end
  | Builtin _ => FiFile
  end.

Section WithLowerCase.

(** [String.prototype.toLowerCase], which rests on the Unicode case
    tables. *)
Variable toLowerCase : text -> text.

(** [typeMap[ext] || 'text'] with
    [ext = filename.split('.').pop()?.toLowerCase()]. *)
Definition getFileType (filename : text) : file_type :=
  let ext := option_map toLowerCase (pop (split 46%N filename)) in
  match get_property typeMap (property_key ext) with
  | Own [] => Named (lit "text")
  | Own t => Named t
  | Inherited key => Builtin key
  | Missing => Named (lit "text")
  end.

(** The [ext] of [getFileType], as the key it is used as:
    [filename.split('.').pop()?.toLowerCase()]. *)
Definition extension (filename : text) : text :=
  property_key (option_map toLowerCase (pop (split 46%N filename))).

Definition isBinaryFile (filename : text) : bool :=
  existsb (fun ext => endsWith (toLowerCase filename) ext) binaryExtensions.

(** [path.split('/').pop()]: a split has at least one segment. *)
Definition last_segment (p : text) : text :=
  match pop (split 47%N p) with
  | Some seg => seg
  | None => [] (* not reached *)
  end.

(** The loop of [fetchAllFiles] over the entries of the tree, [allFiles]
    being the array built so far. *)
Fixpoint fetchAllFiles_loop (owner repo branch : text)
         (tree : list tree_entry) (allFiles : list file) : list file :=
  match tree with
  | [] => allFiles
  | entry :: tree' =>
      if text_eqb (entry_type entry) (lit "blob") then
        let name := last_segment (entry_path entry) in
        if isBinaryFile name then
          fetchAllFiles_loop owner repo branch tree' allFiles
        else if match entry_size entry with
                | Some n => negb (n =? 0)%N && (1000000 <? n)%N
                | None => false
                end
        then fetchAllFiles_loop owner repo branch tree' allFiles
        else
          fetchAllFiles_loop owner repo branch tree'
            (allFiles ++
             [ File name (entry_path entry) (getFileType name)
                 match entry_size entry with
                 | Some n => n
                 | None => 0%N
                 end
                 (lit "https://raw.githubusercontent.com/" ++ owner
                  ++ lit "/" ++ repo ++ lit "/" ++ branch ++ lit "/"
                  ++ entry_path entry)
                 false None ])
      else fetchAllFiles_loop owner repo branch tree' allFiles
  end.

End WithLowerCase.




End Analyzer.

(** The entries [fetchAllFiles] lists: the blobs whose name is not binary by
    its extension and whose size is at most 1,000,000 bytes. *)
Definition fetchAllFiles_lists (toLowerCase : text -> text)
           (entry : Analyzer.tree_entry) : bool :=
  text_eqb (Analyzer.entry_type entry) (lit "blob")
  && negb (Analyzer.isBinaryFile toLowerCase
             (Analyzer.last_segment (Analyzer.entry_path entry)))
  && match Analyzer.entry_size entry with
     | Some n => (n <=? 1000000)%N
     | None => true
     end.

(* ================================================================= *)
(** ** GitHubIntegration: the files of the new repository *)

Module GitHub.

(** A file to push.  Generated files have a path, a content and a type;
    files listed from the project also have a name and a size, and a [null]
    content until it is fetched. *)
Record repo_file := RepoFile {
  path : text;
  content : option text;
  type : text;
  name : option text;
  size : option N
}.

Record project := Project {
  project_name : text;
  description : option text
}.

Record tech_stack := TechStack {
  language : option text;
  frameworks : option (list text);
  databases : option (list text);
  tools : option (list text)
}.

Record dependency := Dependency {
  dep_name : text;
  dep_version : text;
  dep_type : text
}.

(** The fields of the project state that [generateRepositoryFiles] reads. *)
Record state := State {
  dockerfile : option text;
  currentProject : option project;
  techStack : option tech_stack;
  dependencies : list dependency
}.

(** [x || d] for an optional string [x]: absent and empty are falsy. *)
Definition or_default (x : option text) (d : text) : text :=
  match x with
  | Some (c :: s) => c :: s
  | _ => d
  end.

(** [x?.field] *)
Definition chain {A B} (x : option A) (field : A -> option B) : option B :=
  match x with
  | Some a => field a
  | None => None
  end.

(** The lines of a template literal, each ended by a line feed. *)
Definition lines (l : list text) : text := concat (map (fun x => x ++ LF) l).

Definition dockerignoreContent : text :=
  lines [ lit "node_modules"; lit "npm-debug.log"; lit "*.log"; lit ".git";
          lit ".gitignore"; lit ".env"; lit ".nyc_output"; lit "coverage";
          lit ".vscode"; lit "dist"; lit "build"; lit "*.md";
          lit "!README.md" ].

Definition dockerComposeContent : text :=
  lines [ lit "version: '3.8'"; lit "services:"; lit "  app:";
          lit "    build: ."; lit "    ports:";
          json_lit "      - '3000:3000'"; lit "    environment:";
          lit "      - NODE_ENV=production";
          lit "    restart: unless-stopped" ].

Section WithLowerCase.

Variable toLowerCase : text -> text.

Definition readmeContent (st : state) (p : project) : text :=
  lines
    [ lit "# " ++ project_name p;
      [];
      or_default (description p) (lit "A containerized application");
      [];
      lit "## Tech Stack";
      lit "- **Language**: "
        ++ or_default (chain (techStack st) language) (lit "Unknown");
      lit "- **Frameworks**: "
        ++ or_default
             (option_map (join (lit ", ")) (chain (techStack st) frameworks))
             (lit "None");
      lit "- **Databases**: "
        ++ or_default
             (option_map (join (lit ", ")) (chain (techStack st) databases))
             (lit "None");
      lit "- **Tools**: "
        ++ or_default
             (option_map (join (lit ", ")) (chain (techStack st) tools))
             (lit "None");
      [];
      lit "## Dependencies";
      join LF
        (map (fun dep =>
                lit "- " ++ dep_name dep ++ lit "@" ++ dep_version dep
                ++ lit " (" ++ dep_type dep ++ lit ")")
           (dependencies st));
      [];
      lit "## Docker Usage";
      [];
      lit "Build the image:";
      lit "```bash";
      lit "docker build -t " ++ toLowerCase (project_name p) ++ lit " .";
      lit "```";
      [];
      lit "Run the container:";
      lit "```bash";
      lit "docker run -p 3000:3000 " ++ toLowerCase (project_name p);
      lit "```";
      [];
      lit "## Development";
      [];
      lit "```bash";
      lit "# Install dependencies";
      lit "npm install";
      [];
      lit "# Start development server";
      lit "npm run dev";
      lit "```";
      [];
      lit "---";
      lit "*Generated by Agentic AI System*" ].

(** The files generated from the state, before any project file is added. *)
Definition generated_files (st : state) : list repo_file :=
  (match dockerfile st with
   | Some (c :: d) =>
       [ RepoFile (lit "Dockerfile") (Some (c :: d)) (lit "dockerfile")
           None None;
         RepoFile (lit ".dockerignore") (Some dockerignoreContent)
           (lit "dockerignore") None None;
         RepoFile (lit "docker-compose.yml") (Some dockerComposeContent)
           (lit "compose") None None ]
   | _ => []
   end)
  ++ match currentProject st with
     | Some p =>
         [ RepoFile (lit "README.md") (Some (readmeContent st p))
             (lit "readme") None None ]
     | None => []
     end.

(** [for (const file of projectFiles)
       if (!existingPaths.includes(file.path)) files.push(file);] *)
Fixpoint add_project_files (existingPaths : list text)
         (projectFiles files : list repo_file) : list repo_file :=
  match projectFiles with
  | [] => files
  | file :: rest =>
      if existsb (text_eqb (path file)) existingPaths then
        add_project_files existingPaths rest files
      else add_project_files existingPaths rest (files ++ [file])
  end.

Definition generateRepositoryFiles (st : state) (pushType : text)
           (projectFiles : list repo_file) : list repo_file :=
  let files := generated_files st in
  if text_eqb pushType (lit "full") && (0 <? length projectFiles) then
    let existingPaths := map path files in
    add_project_files existingPaths projectFiles files
  else files.

(** [files.filter(file => (file.content === null
                           || file.content === undefined)
                          && state.currentProject)] *)
Definition filesToFetch (st : state) (files : list repo_file)
  : list repo_file :=
  filter (fun file =>
            match content file, currentProject st with
            | None, Some _ => true
            | _, _ => false
            end) files.

End WithLowerCase.

End GitHub.

(* ================================================================= *)
(** ** githubHelpers: [formatGithubError] *)

Module Helpers.

(** [error.response], with the fields the formatter reads:
    [data?.message], [status] and [headers]. *)
Record response := Response {
  data_message : option text;
  status : option N;
  headers : option (list (text * text))
}.

(** The error handed to the formatter; [None] stands for a missing field. *)
Record error_value := ErrorValue {
  error_response : option response;
  error_message : option text
}.

(** [x || y] on strings, [x] possibly missing. *)
Definition or_else (x : option text) (y : text) : text :=
  match x with
  | Some (c :: s) => c :: s
  | _ => y
  end.

(** [parseInt(s, 10)]: leading white space, a sign, then the longest run of
    decimal digits; [None] is [NaN]. *)
Definition parseInt10 (s : text) : option Z :=
  let '(neg, s') := JSON.read_sign (trim_start s) in
  let '(n, k, _) := JSON.read_digits s' 0%N in
  match k with
  | O => None
  | S _ => Some (if neg then (- Z.of_N n)%Z else Z.of_N n)
  end.

Definition arrow : text := [8594%N].

Definition permissions_message : text :=
  lit "GitHub token missing required permissions. Go to GitHub Settings "
  ++ arrow ++ lit " Personal Access Tokens " ++ arrow
  ++ lit " Edit your token " ++ arrow
  ++ json_lit " Check the 'repo' scope (Full control of private repositories). Then regenerate and update your token here.".

Definition invalid_token_message : text :=
  lit "Invalid GitHub token. Please check your token and try again.".

Definition rate_limit_message : text :=
  lit "GitHub API rate limit reached. Provide a GitHub token or try again later.".

Definition access_denied_message : text :=
  json_lit "Access denied. Your token may not have the required permissions (needs 'repo' scope for private repos or 'public_repo' for public repos).".

Section WithBuiltins.

Variable toLowerCase : text -> text.

(** [new Date(seconds * 1000).toLocaleTimeString()], which depends on the
    locale and the time zone of the browser. *)
Variable toLocaleTimeString : Z -> text.

(** [apiMsg?.toLowerCase().includes(part)]: falsy when there is no
    message. *)
Definition mentions (apiMsg : option text) (part : text) : bool :=
  match apiMsg with
  | Some m => includes (toLowerCase m) part
  | None => false
  end.

Definition truthy_text (x : option text) : bool :=
  match x with
  | Some (_ :: _) => true
  | _ => false
  end.

Definition status_is (st : option N) (n : N) : bool :=
  match st with
  | Some m => (m =? n)%N
  | None => false
  end.

Definition formatGithubError (error : option error_value)
           (defaultMessage : option text) : text :=
  let resp := match error with
              | Some e => error_response e
              | None => None
              end in
  let apiMsg := match resp with
                | Some r => data_message r
                | None => None
                end in
  let status_ := match resp with
                 | Some r => status r
                 | None => None
                 end in
  let headers_ := match resp with
                  | Some r =>
                      match headers r with
                      | Some h => h
                      | None => []
                      end
                  | None => []
                  end in
  if truthy_text apiMsg
     && mentions apiMsg
          (lit "resource not accessible by personal access token")
  then permissions_message
  else if status_is status_ 401 || mentions apiMsg (lit "bad credentials")
  then invalid_token_message
  else if status_is status_ 403
          && (mentions apiMsg (lit "rate limit")
              || match own_property headers_ (lit "x-ratelimit-remaining")
                 with
                 | Some v => text_eqb v (lit "0")
                 | None => false
                 end)
  then
    let reset := own_property headers_ (lit "x-ratelimit-reset") in
    let resetTime :=
      if truthy_text reset then
        match parseInt10 (or_else reset []) with
        | Some seconds =>
            lit " Rate limit resets at " ++ toLocaleTimeString seconds
            ++ lit "."
        | None => []
        end
      else [] in
    rate_limit_message ++ resetTime
  else if status_is status_ 403 && negb (mentions apiMsg (lit "rate limit"))
  then access_denied_message
  else
    or_else apiMsg
      (or_else defaultMessage
         (or_else (match error with
                   | Some e => error_message e
                   | None => None
                   end)
            (lit "An error occurred"))).

End WithBuiltins.

End Helpers.

(* ================================================================= *)
(** ** CodeAnalyzer: polling for the analysis job *)

Module Polling.

(** The body of a status response: [status], [result] ([undefined] when the
    property is missing) and [error]. *)
Record job := Job {
  job_status : option text;
  job_result : jsval;
  job_error : option text
}.

(** What a poll brings: a failed request, or a body, which is a job object
    or [null]. *)
Inductive poll :=
| RequestFailed
| Body (data : option job).

Definition status_is (j : job) (s : text) : bool :=
  match job_status j with
  | Some t => text_eqb t s
  | None => false
  end.

Definition finished (j : job) : bool :=
  status_is j (lit "done") || status_is j (lit "failed").

(** [while (pollCount < 120) { ... }]: [remaining] is [120 - pollCount];
    [responses k] is what the [k]-th poll brings.  A failed request is
    ignored; a [null] body is stored before reading its [status] throws,
    which is ignored too. *)
Fixpoint poll_loop (remaining pollCount : nat) (responses : nat -> poll)
         (jobData : option job) : option job :=
  match remaining with
  | O => jobData
  | S remaining' =>
      let pollCount := S pollCount in
      match responses pollCount with
      | RequestFailed => poll_loop remaining' pollCount responses jobData
      | Body None => poll_loop remaining' pollCount responses None
      | Body (Some j) =>
          if finished j then Some j
          else poll_loop remaining' pollCount responses (Some j)
      end
  end.

(** What the user gets to see in the end. *)
Inductive shown :=
| SetAnalysisResult (v : jsval)
| SetError (message : text).

(** [m || d] for strings. *)
Definition or_else (x : option text) (d : text) : text :=
  match x with
  | Some (c :: s) => c :: s
  | _ => d
  end.

Section WithParser.

Variable JSON_parse : text -> option jsval.

(** From the end of the loop to the end of the inner [try]/[catch]: the
    message of the [Error] thrown, or the value for [setAnalysisResult]. *)
Definition after_polling (jobData : option job) : M (text + jsval) :=
  match jobData with
  | None => ret (inl (lit "Analysis job timed out"))
  | Some j =>
      if status_is j (lit "failed") then
        ret (inl (or_else (job_error j) (lit "Analysis failed")))
      else
        v <- analyzeCode_result JSON_parse (job_result j) ;;
        ret (inr v)
  end.

(** [analyzeCode] from the first poll on; an [Error] thrown on the way is
    caught by the outer [catch], which shows its message. *)
Definition analyzeCode_polling (responses : nat -> poll) : M shown :=
  r <- after_polling (poll_loop 120 0 responses None) ;;
  match r with
  | inl message =>
      ret (SetError (or_else (Some message) (lit "Failed to analyze code")))
  | inr v => ret (SetAnalysisResult v)
  end.

End WithParser.



End Polling.

(* ================================================================= *)
(** ** File contents: Base64 and UTF-8

    A text content is pushed as
    [btoa(unescape(encodeURIComponent(content)))] and read back with
    [atob], a percent escape of every byte and [decodeURIComponent]. *)

Module Codec.

Definition upper_hex (d : N) : code_unit :=
  if (d <? 10)%N then (48 + d)%N else (55 + d)%N.


(** The value of two hexadecimal digits, of either case. *)
Definition octet (a b : code_unit) : option N :=
  match JSON.hex_value a, JSON.hex_value b with
  | Some x, Some y => Some (x * 16 + y)%N
  | _, _ => None
  end.

Definition is_high_surrogate (c : code_unit) : bool :=
  ((55296 <=? c) && (c <=? 56319))%N.

Definition is_low_surrogate (c : code_unit) : bool :=
  ((56320 <=? c) && (c <=? 57343))%N.

(** The UTF-8 octets of a code point. *)
Definition utf8_encode (cp : N) : list N :=
  if (cp <? 128)%N then [cp]
  else if (cp <? 2048)%N then [192 + cp / 64; 128 + cp mod 64]%N
  else if (cp <? 65536)%N then
    [224 + cp / 4096; 128 + (cp / 64) mod 64; 128 + cp mod 64]%N
  else
    [240 + cp / 262144; 128 + (cp / 4096) mod 64; 128 + (cp / 64) mod 64;
     128 + cp mod 64]%N.

(** The UTF-16 code units of a code point. *)
Definition utf16_encode (cp : N) : text :=
  if (cp <? 65536)%N then [cp]
  else [55296 + (cp - 65536) / 1024; 56320 + (cp - 65536) mod 1024]%N.

(** The characters [encodeURIComponent] leaves as they are: letters,
    digits and [-_.!~*'()]. *)
Definition unreserved (c : code_unit) : bool :=
  ((65 <=? c) && (c <=? 90) || (97 <=? c) && (c <=? 122)
   || (48 <=? c) && (c <=? 57)
   || (c =? 45) || (c =? 95) || (c =? 46) || (c =? 33) || (c =? 126)
   || (c =? 42) || (c =? 39) || (c =? 40) || (c =? 41))%N.

(** An octet as [encodeURIComponent] writes it: a percent sign and two
    upper-case hexadecimal digits. *)
Definition percent (b : N) : text :=
  [37%N; upper_hex (b / 16); upper_hex (b mod 16)].

Definition percent_all (octets : list N) : text :=
  concat (map percent octets).

(** [encodeURIComponent(s)]; [None] is the URIError thrown on a surrogate
    that has no partner. *)
Fixpoint encodeURIComponent (s : text) : option text :=
  match s with
  | [] => Some []
  | c :: s' =>
      if unreserved c then option_map (cons c) (encodeURIComponent s')
      else if is_high_surrogate c then
        match s' with
        | d :: s'' =>
            if is_low_surrogate d then
              option_map
                (app (percent_all
                        (utf8_encode
                           (65536 + (c - 55296) * 1024 + (d - 56320))%N)))
                (encodeURIComponent s'')
            else None
        | [] => None
        end
      else if is_low_surrogate c then None
      else
        option_map (app (percent_all (utf8_encode c)))
          (encodeURIComponent s')
  end.

(** [unescape(s)]: a percent sign followed by [u] and four hexadecimal
    digits, or by two hexadecimal digits, stands for the code unit of that
    value; everything else stands for itself. *)
Fixpoint unescape (s : text) : text :=
  match s with
  | [] => []
  | c :: s' =>
      let literal := c :: unescape s' in
      if negb (c =? 37)%N then literal
      else
        let two_digits :=
          match s' with
          | a :: b :: rest =>
              match octet a b with
              | Some v => v :: unescape rest
              | None => literal
              end
          | _ => literal
          end in
        match s' with
        | u :: a :: b :: c' :: d :: rest =>
            if (u =? 117)%N then
              match octet a b, octet c' d with
              | Some hi, Some lo => (hi * 256 + lo)%N :: unescape rest
              | _, _ => two_digits
              end
            else two_digits
        | _ => two_digits
        end
  end.

(** The Base64 alphabet. *)
Definition alphabet (i : N) : code_unit :=
  if (i <? 26)%N then (65 + i)%N
  else if (i <? 52)%N then (71 + i)%N
  else if (i <? 62)%N then (i - 4)%N
  else if (i =? 62)%N then 43%N
  else 47%N.


Fixpoint base64_encode (bytes : list N) : text :=
  match bytes with
  | a :: b :: c :: rest =>
      let n := (a * 65536 + b * 256 + c)%N in
      alphabet (n / 262144) :: alphabet ((n / 4096) mod 64)
      :: alphabet ((n / 64) mod 64) :: alphabet (n mod 64)
      :: base64_encode rest
  | [a; b] =>
      let n := (a * 65536 + b * 256)%N in
      [alphabet (n / 262144); alphabet ((n / 4096) mod 64);
       alphabet ((n / 64) mod 64); 61%N]
  | [a] =>
      let n := (a * 65536)%N in
      [alphabet (n / 262144); alphabet ((n / 4096) mod 64); 61%N; 61%N]
  | [] => []
  end.

(** [btoa(s)]; [None] is the InvalidCharacterError thrown on a code unit
    above 255. *)
Definition btoa (s : text) : option text :=
  if forallb (fun c => (c <=? 255)%N) s then Some (base64_encode s)
  else None.











(** The content as [pushFilesToRepo] sends a text file:
    [btoa(unescape(encodeURIComponent(content)))].  [None] is an exception,
    which makes the push of that file fail. *)
Definition encode_content (content : text) : option text :=
  match encodeURIComponent content with
  | Some escaped => btoa (unescape escaped)
  | None => None
  end.


(** The code points of a text; a surrogate out of a pair stands for
    itself. *)
Fixpoint code_points (s : text) : list N :=
  match s with
  | [] => []
  | c :: s' =>
      if is_high_surrogate c then
        match s' with
        | d :: s'' =>
            if is_low_surrogate d then
              (65536 + (c - 55296) * 1024 + (d - 56320))%N :: code_points s''
            else c :: code_points s'
        | [] => [c]
        end
      else c :: code_points s'
  end.

(** A Unicode scalar value: a code point that is no surrogate. *)
Definition scalar (cp : N) : Prop :=
  (cp < 55296 \/ 57344 <= cp < 1114112)%N.

(** What [encodeURIComponent] writes for one code point. *)
Definition escaped_point (cp : N) : text :=
  if unreserved cp then [cp] else percent_all (utf8_encode cp).

(** The UTF-8 octets of a text. *)
Definition utf8 (s : text) : list N :=
  concat (map utf8_encode (code_points s)).

(** A text with no surrogate out of a pair. *)
Fixpoint well_formed (s : text) : bool :=
  match s with
  | [] => true
  | c :: s' =>
      if is_high_surrogate c then
        match s' with
        | d :: s'' => is_low_surrogate d && well_formed s''
        | [] => false
        end
      else negb (is_low_surrogate c) && well_formed s'
  end.

End Codec.

(* ================================================================= *)
(** * Proofs *)

(** ** The heap *)

Lemma nth_error_middle {A} (h g : list A) (o : A) :
  nth_error (h ++ o :: g) (length h) = Some o.
Proof.
  induction h as [|x h IH]; simpl; auto.
Qed.

Lemma store_middle (h g : heap) (o o' : object) :
  store (h ++ o :: g) (length h) o' = h ++ o' :: g.
Proof.
  induction h as [|x h IH]; simpl; [reflexivity|].
  now rewrite IH.
Qed.

(** ** Texts and indices *)

Lemma char_at_skipn (s pre rest : text) (start : nat) (c : code_unit) :
  skipn start s = pre ++ c :: rest ->
  char_at s (start + length pre) = Some c.
Proof.
  intros E. unfold char_at.
  rewrite <- (firstn_skipn start s) at 1.
  assert (L : start <= length s).
  { destruct (Nat.le_gt_cases start (length s)) as [L|L]; [exact L|].
    rewrite skipn_all2 in E by lia. now destruct pre. }
  rewrite nth_error_app2; rewrite length_firstn, Nat.min_l by lia; [|lia].
  replace (start + length pre - start) with (length pre) by lia.
  rewrite E. apply nth_error_middle.
Qed.

Lemma slice_skipn (s pre rest : text) (start : nat) :
  skipn start s = pre ++ rest ->
  slice s start (start + length pre) = pre.
Proof.
  intros E. unfold slice. rewrite E.
  replace (start + length pre - start) with (length pre + 0) by lia.
  rewrite firstn_app_2. simpl. apply app_nil_r.
Qed.

(** ** Brace scanning *)

Section BraceScanning.

Variable JSON_parse : text -> option jsval.

Lemma collect_starts_run (s : text) (idx : list nat) :
  forall (h g : heap) (elems : list nat),
    collect_starts s (length h) idx (h ++ Array elems :: g)
    = (Normal tt,
       h ++ Array (elems ++ filter (fun i => is_cu (char_at s i) lbrace) idx)
         :: g).
Proof.
  induction idx as [|i idx IH]; intros h g elems; simpl.
  - now rewrite app_nil_r.
  - unfold bind. destruct (is_cu (char_at s i) lbrace).
    + unfold array_push. rewrite nth_error_middle, store_middle.
      rewrite IH. now rewrite <- app_assoc.
    + unfold ret at 1. apply IH.
Qed.

(** The inner loop from index [start + length pre], where [pre] is what
    it has already walked over, agrees with depth counting on the rest of
    the text; it leaves the heap alone. *)
Lemma scan_run (s : text) (start : nat) :
  forall (rest pre : text) (depth : Z) (h : heap),
    skipn start s = pre ++ rest ->
    scan JSON_parse s start (seq (start + length pre) (length rest)) depth h
    = (Normal
         match balanced_prefix depth rest with
         | Some p => JSON_parse (pre ++ p)
         | None => None
         end, h).
Proof.
  induction rest as [|c rest IH]; intros pre depth h E; simpl.
  - reflexivity.
  - rewrite (char_at_skipn _ _ _ _ _ E). simpl.
    assert (E' : skipn start s = (pre ++ [c]) ++ rest)
      by now rewrite <- app_assoc.
    assert (L : S (start + length pre) = start + length (pre ++ [c]))
      by (rewrite length_app; simpl; lia).
    destruct (c =? lbrace)%N.
    { rewrite L, (IH _ _ _ E').
      destruct (balanced_prefix (depth + 1) rest); simpl;
        now rewrite <- ?app_assoc. }
    destruct (c =? rbrace)%N.
    { destruct (depth - 1 =? 0)%Z.
      - replace (start + length pre + 1)
          with (start + length (pre ++ [c])) by lia.
        rewrite (slice_skipn _ _ _ _ E').
        unfold try_catch, bind, JSON_parse_call.
        destruct (JSON_parse (pre ++ [c])); reflexivity.
      - rewrite L, (IH _ _ _ E').
        destruct (balanced_prefix (depth - 1) rest); simpl;
          now rewrite <- ?app_assoc. }
    rewrite L, (IH _ _ _ E').
    destruct (balanced_prefix depth rest); simpl;
      now rewrite <- ?app_assoc.
Qed.

(** The outer loop over the opening braces of the suffix [l] of [s]. *)
Lemma try_starts_run (s : text) :
  forall (l pre : text) (h : heap),
    s = pre ++ l ->
    try_starts JSON_parse s
      (filter (fun i => is_cu (char_at s i) lbrace)
         (seq (length pre) (length l))) h
    = (Normal (first_parsed JSON_parse (candidates l)), h).
Proof.
  induction l as [|c l IH]; intros pre h E; simpl.
  - reflexivity.
  - assert (Ec : char_at s (length pre) = Some c).
    { subst s. apply nth_error_middle. }
    assert (E' : s = (pre ++ [c]) ++ l) by now rewrite <- app_assoc.
    assert (L : S (length pre) = length (pre ++ [c]))
      by (rewrite length_app; simpl; lia).
    rewrite Ec. simpl.
    destruct (c =? lbrace)%N eqn:B.
    + simpl. unfold bind.
      assert (Sk : skipn (length pre) s = [] ++ c :: l).
      { subst s. rewrite skipn_app, skipn_all, Nat.sub_diag. reflexivity. }
      replace (length s - length pre) with (length (c :: l))
        by (subst s; rewrite length_app; simpl; lia).
      pose proof (scan_run s (length pre) (c :: l) [] 0 h Sk) as R.
      simpl length in R at 2. rewrite Nat.add_0_r in R. rewrite R.
      replace (balanced_prefix 0 (c :: l))
        with (option_map (cons c) (balanced_prefix 1 l))
        by (simpl; now rewrite B).
      destruct (option_map (cons c) (balanced_prefix 1 l)) as [cand|];
        simpl.
      * destruct (JSON_parse cand); [reflexivity|].
        rewrite L. now apply IH.
      * rewrite L. now apply IH.
    + rewrite L. now apply IH.
Qed.

Lemma extractJsonFromText_run (v : jsval) (h : heap) :
  extractJsonFromText JSON_parse v h
  = (Normal (text_result JSON_parse v), h ++ text_garbage v).
Proof.
  unfold extractJsonFromText.
  destruct v as [| |b|d|s|elems|props]; simpl;
    rewrite ?orb_true_r; try (now rewrite app_nil_r).
  destruct s as [|c s]; simpl.
  { now rewrite app_nil_r. }
  set (t := c :: s).
  change ((starts <- alloc (Array []) ;;
           collect_starts t starts (seq 0 (length t)) ;;
           elems <- array_elems starts ;;
           try_starts JSON_parse t elems) h
          = (Normal (brace_scan JSON_parse t),
             h ++ [Array (brace_positions t)])).
  unfold bind, alloc.
  rewrite (collect_starts_run t (seq 0 (length t)) h [] []).
  unfold array_elems. rewrite nth_error_middle.
  exact (try_starts_run t t [] _ eq_refl).
Qed.

End BraceScanning.

(** ** The fence pattern consumes what it matches *)

Lemma match_literal_suffix (pat : text) :
  forall l rest,
    match_literal pat l = Some rest ->
    exists pre, l = pre ++ rest /\ length pre = length pat.
Proof.
  induction pat as [|p pat IH]; intros l rest E; simpl in E.
  - injection E as <-. now exists [].
  - destruct l as [|c l]; [discriminate|].
    destruct (canonicalize p =? canonicalize c)%N; [|discriminate].
    destruct (IH _ _ E) as (pre & -> & L).
    exists (c :: pre). simpl. now rewrite L.
Qed.

Lemma lazy_until_fence_suffix (l : text) :
  forall cap rest,
    lazy_until_fence l = Some (cap, rest) ->
    exists close, l = cap ++ close ++ rest /\ length close = 3.
Proof.
  induction l as [|c l IH]; intros cap rest E.
  - simpl in E. discriminate.
  - cbn [lazy_until_fence] in E.
    destruct (match_literal fence (c :: l)) as [r|] eqn:F.
    + injection E as <- <-.
      destruct (match_literal_suffix _ _ _ F) as (pre & -> & L).
      exists pre. now split.
    + destruct (lazy_until_fence l) as [[cap' rest']|]; [|discriminate].
      injection E as <- <-.
      destruct (IH _ _ eq_refl) as (close & -> & L).
      exists close. now split.
Qed.

Lemma first_alternative_some {A} (alts : list text) (k : text -> option A) r :
  first_alternative alts k = Some r ->
  exists a, In a alts /\ k a = Some r.
Proof.
  induction alts as [|a alts IH]; simpl; [discriminate|].
  destruct (k a) eqn:K.
  - intros [= <-]. exists a. auto.
  - intros E. destruct (IH E) as (a' & I & K'). exists a'. auto.
Qed.

Lemma match_fence_at_parts (l cap rest : text) :
  match_fence_at l = Some (cap, rest) ->
  exists opening close,
    l = opening ++ cap ++ close ++ rest
    /\ 0 < length opening /\ length close = 3.
Proof.
  unfold match_fence_at.
  destruct (match_literal fence l) as [l1|] eqn:F; [|discriminate].
  intros E. apply first_alternative_some in E.
  destruct E as (label & _ & E).
  destruct (match_literal label l1) as [l2|] eqn:E2; [|discriminate].
  destruct (match_literal LF l2) as [l3|] eqn:E3; [|discriminate].
  destruct (match_literal_suffix _ _ _ F) as (p1 & -> & L1).
  destruct (match_literal_suffix _ _ _ E2) as (p2 & -> & L2).
  destruct (match_literal_suffix _ _ _ E3) as (p3 & -> & L3).
  destruct (lazy_until_fence_suffix _ _ _ E) as (close & -> & L4).
  exists (p1 ++ p2 ++ p3), close.
  repeat split.
  - now rewrite <- !app_assoc.
  - rewrite length_app, L1. simpl. lia.
  - exact L4.
Qed.

Lemma match_fence_at_suffix (l cap rest : text) :
  match_fence_at l = Some (cap, rest) ->
  exists pre, l = pre ++ rest /\ 0 < length pre.
Proof.
  intros E.
  destruct (match_fence_at_parts _ _ _ E) as (opening & close & -> & L & _).
  exists (opening ++ cap ++ close). split.
  - now rewrite <- !app_assoc.
  - rewrite length_app. lia.
Qed.

(** ** Fenced blocks *)

Lemma fence_blocks_from_skipn (l : text) :
  forall k, fence_blocks_from k l = fence_blocks (skipn k l).
Proof.
  induction l as [|c l IH]; intros [|k]; try reflexivity.
  simpl. apply IH.
Qed.

Lemma fence_blocks_match (l cap rest : text) :
  match_fence_at l = Some (cap, rest) ->
  fence_blocks l = cap :: fence_blocks rest.
Proof.
  intros E. destruct (match_fence_at_suffix _ _ _ E) as (pre & -> & L).
  destruct pre as [|c pre]; [simpl in L; lia|].
  unfold fence_blocks at 1. cbn [fence_blocks_from app].
  change (c :: pre ++ rest) with ((c :: pre) ++ rest). rewrite E.
  rewrite fence_blocks_from_skipn. f_equal. f_equal.
  rewrite length_app.
  replace (length pre + length rest - length rest) with (length pre) by lia.
  rewrite skipn_app, skipn_all, Nat.sub_diag. reflexivity.
Qed.

Lemma fence_blocks_no_match (c : code_unit) (l : text) :
  match_fence_at (c :: l) = None ->
  fence_blocks (c :: l) = fence_blocks l.
Proof.
  intros E. unfold fence_blocks at 1. cbn [fence_blocks_from]. now rewrite E.
Qed.

Lemma match_fence_at_nil : match_fence_at [] = None.
Proof. reflexivity. Qed.

(** The search of [exec] from position [p] finds the first block of the
    text from [p] on, and ends strictly after [p]. *)
Lemma search_spec (s : text) :
  forall n p,
    p + n = S (length s) ->
    match search s (seq p n) with
    | Some (cap, e) =>
        p < e <= length s
        /\ fence_blocks (skipn p s) = cap :: fence_blocks (skipn e s)
    | None => fence_blocks (skipn p s) = []
    end.
Proof.
  induction n as [|n IH]; intros p E; simpl.
  - rewrite skipn_all2 by lia. reflexivity.
  - destruct (match_fence_at (skipn p s)) as [[cap rest]|] eqn:F.
    + destruct (match_fence_at_suffix _ _ _ F) as (pre & Sk & L).
      assert (Len : length s - p = length pre + length rest).
      { rewrite <- length_skipn, Sk. apply length_app. }
      assert (Rest : skipn (length s - length rest) s = rest).
      { replace (length s - length rest) with (length pre + p) by lia.
        rewrite <- skipn_skipn, Sk, skipn_app, skipn_all, Nat.sub_diag.
        reflexivity. }
      split; [lia|].
      rewrite Rest. now apply fence_blocks_match.
    + specialize (IH (S p) ltac:(lia)).
      destruct (skipn p s) as [|c l] eqn:Sk.
      * assert (n = 0).
        { assert (length (skipn p s) = 0) by now rewrite Sk.
          rewrite length_skipn in *. lia. }
        subst n. reflexivity.
      * assert (Sk' : skipn (S p) s = l).
        { change (S p) with (1 + p). now rewrite <- skipn_skipn, Sk. }
        rewrite Sk' in IH. rewrite (fence_blocks_no_match _ _ F).
        destruct (search s (seq (S p) n)) as [[cap e]|]; [|exact IH].
        destruct IH as [B R]. split; [lia | exact R].
Qed.

(** ** The fenced-block pass *)

Section FencedBlocks.

Variable JSON_parse : text -> option jsval.

Lemma fenceRegex_exec_run (s : text) (h g : heap) (lastIndex : nat) :
  fenceRegex_exec (length h) s (h ++ RegExp lastIndex :: g)
  = match search s (seq lastIndex (S (length s) - lastIndex)) with
    | Some (m1, e) => (Normal (Some m1), h ++ RegExp e :: g)
    | None => (Normal None, h ++ RegExp 0 :: g)
    end.
Proof.
  unfold fenceRegex_exec, bind, get_lastIndex.
  rewrite nth_error_middle.
  destruct (search s _) as [[m1 e]|]; unfold set_lastIndex;
    now rewrite nth_error_middle, store_middle.
Qed.

(** The loop from a RegExp whose [lastIndex] is [i]: it returns what the
    blocks of the text from [i] on yield, never runs out of fuel, and only
    adds to the heap after the RegExp. *)
Lemma fences_loop_run (s : text) (h : heap) :
  forall fuel i g,
    i <= length s ->
    length s < fuel + i ->
    exists i' g',
      fences_loop JSON_parse fuel (length h) s (h ++ RegExp i :: g)
      = (Normal (first_recovered JSON_parse (fence_blocks (skipn i s))),
         h ++ RegExp i' :: g').
Proof.
  induction fuel as [|fuel IH]; intros i g Li Lf; [lia|].
  cbn [fences_loop]. unfold bind at 1. rewrite fenceRegex_exec_run.
  pose proof (search_spec s (S (length s) - i) i ltac:(lia)) as Sp.
  destruct (search s _) as [[m1 e]|].
  - destruct Sp as [Le B]. rewrite B. cbn [first_recovered].
    unfold recover, bind at 1, try_catch, JSON_parse_call.
    destruct (JSON_parse (trim m1)) as [v|].
    + exists e, g. reflexivity.
    + unfold throw, bind at 1. unfold bind at 1.
      rewrite extractJsonFromText_run.
      rewrite <- app_assoc. cbn [app text_result].
      destruct (truthy (brace_scan JSON_parse (trim m1))).
      * eexists _, _. reflexivity.
      * unfold ret at 1. apply IH; lia.
  - rewrite Sp. exists 0, g. reflexivity.
Qed.

Lemma extractJsonFromFences_run (v : jsval) (h : heap) :
  exists g,
    extractJsonFromFences JSON_parse v h
    = (Normal (fences_result JSON_parse v), h ++ g).
Proof.
  unfold extractJsonFromFences.
  destruct v as [| |b|d|s|elems|props]; simpl;
    rewrite ?orb_true_r; try (exists []; now rewrite app_nil_r).
  destruct s as [|c s]; simpl.
  { exists []. now rewrite app_nil_r. }
  set (t := c :: s).
  change (exists g,
    (fenceRegex <- alloc (RegExp 0) ;;
     fences_loop JSON_parse (S (length t)) fenceRegex t) h
    = (Normal (first_recovered JSON_parse (fence_blocks t)), h ++ g)).
  unfold bind, alloc.
  destruct (fences_loop_run t h (S (length t)) 0 [] ltac:(lia) ltac:(lia))
    as (i' & g' & R).
  rewrite R. eexists. reflexivity.
Qed.

(** Neither helper does anything when its argument is not a non-empty
    string. *)
Lemma guard_run (v : jsval) (h : heap) :
  v = VString [] \/ typeof v <> "string"%string ->
  extractJsonFromText JSON_parse v h = (Normal VNull, h)
  /\ extractJsonFromFences JSON_parse v h = (Normal VNull, h).
Proof.
  intros [-> | T]; [split; reflexivity|].
  destruct v; try (now contradiction T);
    unfold extractJsonFromText, extractJsonFromFences; simpl;
    rewrite ?orb_true_r; split; reflexivity.
Qed.

End FencedBlocks.

(** ** [JSON.parse]: the fuel is enough *)

Module JSONFacts.
Import JSON.

Lemma skip_ws_length (l : text) : length (skip_ws l) <= length l.
Proof.
  induction l as [|c l IH]; simpl; [lia|].
  destruct (is_ws c); simpl; lia.
Qed.

Lemma expect_length (pat : text) :
  forall l r, expect pat l = Some r -> length r + length pat = length l.
Proof.
  induction pat as [|p pat IH]; intros l r E; simpl in E.
  - injection E as <-. simpl. lia.
  - destruct l as [|c l]; [discriminate|].
    destruct (p =? c)%N; [|discriminate].
    apply IH in E. simpl. lia.
Qed.

Lemma read_digits_length (l : text) :
  forall acc n k r,
    read_digits l acc = (n, k, r) -> length r + k = length l.
Proof.
  induction l as [|c l IH]; intros acc n k r E; simpl in E.
  - injection E as <- <- <-. reflexivity.
  - destruct (is_digit c).
    + destruct (read_digits l (acc * 10 + (c - 48))%N) as [[n' k'] r'] eqn:R.
      injection E as <- <- <-. apply IH in R. simpl. lia.
    + injection E as <- <- <-. simpl. lia.
Qed.

Lemma read_sign_length (l r : text) (b : bool) :
  read_sign l = (b, r) -> length r <= length l.
Proof.
  destruct l as [|c l]; simpl.
  - intros [= <- <-]. simpl. lia.
  - destruct (c =? 45)%N; [intros [= <- <-]; simpl; lia|].
    destruct (c =? 43)%N; intros [= <- <-]; simpl; lia.
Qed.

Lemma read_fraction_exponent_length (neg : bool) (n : N) (l : text) d r :
  read_fraction_exponent neg n l = Some (d, r) -> length r <= length l.
Proof.
  unfold read_fraction_exponent.
  set (fraction := match l with [] => _ | _ => _ end).
  assert (F : match fraction with
              | Some (_, _, l2) => length l2 <= length l
              | None => True
              end).
  { subst fraction. destruct l as [|c l]; [simpl; lia|].
    destruct (c =? 46)%N; [|simpl; lia].
    destruct (read_digits l n) as [[m k] r'] eqn:R.
    apply read_digits_length in R.
    destruct k; [exact I | simpl; lia]. }
  destruct fraction as [[[m k] l2]|]; [|discriminate].
  destruct l2 as [|c l2]; [intros [= <- <-]; exact F|].
  destruct ((c =? 101) || (c =? 69))%N; [|intros [= <- <-]; exact F].
  destruct (read_sign l2) as [eneg r1] eqn:S1.
  destruct (read_digits r1 0%N) as [[e ke] r2] eqn:R.
  apply read_sign_length in S1. apply read_digits_length in R.
  destruct ke; [discriminate|].
  intros [= <- <-]. simpl in F. lia.
Qed.

Lemma read_number_length (l : text) d r :
  read_number l = Some (d, r) -> length r < length l.
Proof.
  unfold read_number.
  set (sign := match l with [] => _ | _ => _ end).
  assert (S1 : length (snd sign) <= length l).
  { subst sign. destruct l as [|c l]; [simpl; lia|].
    destruct (c =? 45)%N; simpl; lia. }
  destruct sign as [neg l1]. simpl in S1.
  destruct l1 as [|c l1]; [discriminate|].
  destruct (c =? 48)%N.
  { intros E. apply read_fraction_exponent_length in E. simpl in S1. lia. }
  destruct (is_digit c) eqn:D; [|discriminate].
  destruct (read_digits (c :: l1) 0%N) as [[n k] r'] eqn:R.
  intros E. apply read_fraction_exponent_length in E.
  pose proof R as R'. apply read_digits_length in R'.
  simpl in R. rewrite D in R.
  destruct (read_digits l1 _) as [[n' k'] r'']. injection R as <- <- <-.
  simpl in *. lia.
Qed.

Lemma cons_to_length (c : code_unit) x s r (n : nat) :
  cons_to c x = Some (s, r) ->
  (forall s', x = Some (s', r) -> length r < n) ->
  length r < n.
Proof.
  destruct x as [[s' r']|]; simpl; [|discriminate].
  intros [= <- <-] H. now apply (H s').
Qed.

Lemma read_string_length :
  forall (n : nat) (l : text),
    length l <= n ->
    forall s r, read_string l = Some (s, r) -> length r < length l.
Proof.
  induction n as [|n IH]; intros l L s r E.
  { destruct l; [discriminate | simpl in L; lia]. }
  destruct l as [|c l]; [discriminate|].
  cbn [read_string] in E. simpl in L. simpl length.
  destruct (c =? 34)%N; [injection E as <- <-; lia|].
  destruct (c =? 92)%N.
  - destruct l as [|e l]; [discriminate|].
    simpl in L. simpl length.
    destruct (e =? 117)%N.
    + destruct l as [|a [|b [|c' [|d l4]]]]; try discriminate.
      destruct (hex_value a), (hex_value b), (hex_value c'), (hex_value d);
        try discriminate.
      simpl in L. simpl length.
      apply cons_to_length with (n := S (S (S (S (S (length l4)))))) in E;
        [lia|].
      intros s' E'. apply IH in E'; lia.
    + destruct (unescape e); [|discriminate].
      apply cons_to_length with (n := S (length l)) in E; [lia|].
      intros s' E'. apply IH in E'; lia.
  - destruct (c <? 32)%N; [discriminate|].
    apply cons_to_length with (n := S (length l)) in E; [lia|].
    intros s' E'. apply IH in E'; lia.
Qed.

Lemma fine_longer (l l' : text) (x : parsed jsval) :
  fine l x -> length l <= length l' -> fine l' x.
Proof. destruct x; simpl; lia. Qed.

Lemma keyword_fine (word : string) (v : jsval) (l : text) :
  0 < length (lit word) -> fine l (keyword word v l).
Proof.
  intros P. unfold keyword.
  destruct (expect (lit word) l) as [r|] eqn:E; simpl; [|exact I].
  apply expect_length in E. lia.
Qed.

Lemma fuel_enough (fuel : nat) :
  (forall l, 2 * length l + 1 < fuel -> fine l (value fuel l))
  /\ (forall l acc, 2 * length l + 2 < fuel -> fine l (members fuel l acc))
  /\ (forall l acc, 2 * length l + 2 < fuel -> fine l (elements fuel l acc)).
Proof.
  induction fuel as [|fuel (IHv & IHm & IHe)]; [repeat split; intros; lia|].
  repeat split.
  - intros l Hf. cbn [value].
    pose proof (skip_ws_length l) as W.
    destruct (skip_ws l) as [|c r]; [exact I|]. simpl in W.
    destruct (c =? 123)%N.
    { pose proof (skip_ws_length r) as W'.
      destruct (skip_ws r) as [|c' r']; [exact I|]. simpl in W'.
      destruct (c' =? 125)%N; [simpl; lia|].
      apply fine_longer with (l := r); [apply IHm|]; lia. }
    destruct (c =? 91)%N.
    { pose proof (skip_ws_length r) as W'.
      destruct (skip_ws r) as [|c' r']; [exact I|]. simpl in W'.
      destruct (c' =? 93)%N; [simpl; lia|].
      apply fine_longer with (l := r); [apply IHe|]; lia. }
    destruct (c =? 34)%N.
    { destruct (read_string r) as [[s r']|] eqn:E; [|exact I].
      apply (read_string_length (length r)) in E; simpl; lia. }
    assert (K : forall word v,
               0 < length (lit word) -> fine l (keyword word v (c :: r))).
    { intros word v P. apply fine_longer with (l := c :: r).
      - now apply keyword_fine.
      - simpl; lia. }
    destruct (c =? 116)%N; [apply K; simpl; lia|].
    destruct (c =? 102)%N; [apply K; simpl; lia|].
    destruct (c =? 110)%N; [apply K; simpl; lia|].
    destruct (read_number (c :: r)) as [[d r']|] eqn:E; [|exact I].
    apply read_number_length in E. simpl in *. lia.
  - intros l acc Hf. cbn [members].
    pose proof (skip_ws_length l) as W.
    destruct (skip_ws l) as [|c r]; [exact I|]. simpl in W.
    destruct (c =? 34)%N; [|exact I].
    destruct (read_string r) as [[k r1]|] eqn:E; [|exact I].
    apply (read_string_length (length r)) in E; [|lia].
    pose proof (skip_ws_length r1) as W1.
    destruct (skip_ws r1) as [|c1 r2]; [exact I|]. simpl in W1.
    destruct (c1 =? 58)%N; [|exact I].
    pose proof (IHv r2 ltac:(lia)) as V.
    destruct (value fuel r2) as [v r3| |]; [|exact I|exact V].
    simpl in V.
    pose proof (skip_ws_length r3) as W3.
    destruct (skip_ws r3) as [|c2 r4]; [exact I|]. simpl in W3.
    destruct (c2 =? 44)%N.
    { apply fine_longer with (l := r4); [apply IHm|]; lia. }
    destruct (c2 =? 125)%N; [simpl; lia | exact I].
  - intros l acc Hf. cbn [elements].
    pose proof (IHv l ltac:(lia)) as V.
    destruct (value fuel l) as [v r1| |]; [|exact I|exact V].
    simpl in V.
    pose proof (skip_ws_length r1) as W1.
    destruct (skip_ws r1) as [|c r2]; [exact I|]. simpl in W1.
    destruct (c =? 44)%N.
    { apply fine_longer with (l := r2); [apply IHe|]; lia. }
    destruct (c =? 93)%N; [simpl; lia | exact I].
Qed.

(** The parser never stops for lack of fuel on the fuel [parse] gives it. *)
Lemma value_fuel (s : text) : value (2 * length s + 2) s <> Fuel.
Proof.
  pose proof (proj1 (fuel_enough (2 * length s + 2)) s ltac:(lia)) as F.
  destruct (value _ s); simpl in F; [discriminate..|contradiction].
Qed.

End JSONFacts.

(** ** The combined path of [analyzeCode] *)

Section Combined.

Variable JSON_parse : text -> option jsval.

Lemma analyzeCode_result_run (v : jsval) (h : heap) :
  exists g,
    analyzeCode_result JSON_parse v h
    = (Normal (analysis_value JSON_parse v), h ++ g).
Proof.
  unfold analyzeCode_result, analysis_value, try_catch.
  destruct (typeof v =? "object")%string.
  { exists []. unfold ret. now rewrite app_nil_r. }
  destruct (typeof v =? "string")%string.
  - unfold bind at 1.
    destruct (extractJsonFromFences_run JSON_parse v h) as (g & ->).
    destruct (truthy (fences_result JSON_parse v)).
    { exists g. reflexivity. }
    unfold bind. rewrite extractJsonFromText_run, <- app_assoc.
    destruct (truthy (text_result JSON_parse v)); eexists; reflexivity.
  - exists []. unfold throw, ret. now rewrite app_nil_r.
Qed.

Lemma first_parsed_none (cands : list text) :
  (forall c, In c cands -> JSON_parse c = None) ->
  first_parsed JSON_parse cands = VNull.
Proof.
  induction cands as [|c cands IH]; intros H; simpl; [reflexivity|].
  rewrite (H c (or_introl eq_refl)). apply IH.
  intros c' I. apply H. now right.
Qed.

Lemma first_parsed_some (cands : list text) (v : jsval) :
  first_parsed JSON_parse cands = v ->
  v <> VNull ->
  exists c, In c cands /\ JSON_parse c = Some v.
Proof.
  induction cands as [|c cands IH]; simpl; intros E N.
  - congruence.
  - destruct (JSON_parse c) as [w|] eqn:P.
    + exists c. split; [now left | congruence].
    + destruct (IH E N) as (c' & I & P'). exists c'. split; [now right|].
      exact P'.
Qed.

Lemma first_recovered_none (blocks : list text) :
  (forall b, In b blocks -> recover JSON_parse b = None) ->
  first_recovered JSON_parse blocks = VNull.
Proof.
  induction blocks as [|b blocks IH]; intros H; simpl; [reflexivity|].
  rewrite (H b (or_introl eq_refl)). apply IH.
  intros b' I. apply H. now right.
Qed.

Lemma first_recovered_skip (skipped : list text) :
  forall block later v,
    Forall (fun b => recover JSON_parse b = None) skipped ->
    recover JSON_parse block = Some v ->
    first_recovered JSON_parse (skipped ++ block :: later) = v.
Proof.
  induction skipped as [|b skipped IH]; intros block later v F R; simpl.
  - now rewrite R.
  - inversion F as [|? ? Hb F']; subst. rewrite Hb. now apply IH.
Qed.

End Combined.

(** ** Depth counting *)

Lemma brace_depth_app (p q : text) :
  brace_depth (p ++ q) = (brace_depth p + brace_depth q)%Z.
Proof.
  induction p as [|c p IH]; simpl; [reflexivity|]. rewrite IH. lia.
Qed.

(** From a positive depth, the balanced prefix brings the depth to zero and
    no shorter prefix does. *)
Lemma balanced_prefix_depth (l : text) :
  forall (d : Z) (p : text),
    (0 < d)%Z ->
    balanced_prefix d l = Some p ->
    (d + brace_depth p = 0)%Z
    /\ exists post, l = p ++ post
    /\ forall p1 p2, p = p1 ++ p2 -> p2 <> [] -> (0 < d + brace_depth p1)%Z.
Proof.
  induction l as [|c l IH]; intros d p D E; simpl in E; [discriminate|].
  assert (Step : forall d' k,
    (0 < d')%Z -> (d' = d + k)%Z ->
    brace_depth [c] = k ->
    option_map (cons c) (balanced_prefix d' l) = Some p ->
    (d + brace_depth p = 0)%Z
    /\ exists post, c :: l = p ++ post
    /\ forall p1 p2, p = p1 ++ p2 -> p2 <> [] -> (0 < d + brace_depth p1)%Z).
  { intros d' k D' Ed K E'.
    destruct (balanced_prefix d' l) as [p'|] eqn:B; [|discriminate].
    injection E' as <-.
    destruct (IH _ _ D' B) as (T & post & -> & P).
    change (c :: p') with ([c] ++ p'). rewrite brace_depth_app, K.
    split; [lia|]. exists post. split; [reflexivity|].
    intros [|c1 p1] p2 Ep N; simpl in Ep; [simpl; lia|].
    injection Ep as <- Ep.
    change (c :: p1) with ([c] ++ p1). rewrite brace_depth_app, K.
    specialize (P _ _ Ep N). lia. }
  destruct (c =? lbrace)%N eqn:Bl.
  { apply (Step (d + 1)%Z 1%Z); try lia; [|exact E].
    simpl. now rewrite Bl. }
  destruct (c =? rbrace)%N eqn:Br.
  - destruct (d - 1 =? 0)%Z eqn:Z0.
    + injection E as <-. apply Z.eqb_eq in Z0.
      simpl. rewrite Bl, Br. split; [lia|]. exists l. split; [reflexivity|].
      intros [|c1 p1] p2 Ep N; simpl; [lia|].
      injection Ep as <- Ep. destruct p1; [|discriminate].
      simpl in Ep. now subst p2.
    + apply Z.eqb_neq in Z0.
      apply (Step (d - 1)%Z (-1)%Z); try lia; [|exact E].
      simpl. now rewrite Bl, Br.
  - apply (Step d 0%Z); try lia; [|exact E].
    simpl. now rewrite Bl, Br.
Qed.

Lemma candidates_depth_matched (s : text) :
  forall cand,
    In cand (candidates s) ->
    depth_matched cand /\ exists pre post, s = pre ++ cand ++ post.
Proof.
  induction s as [|c s IH]; intros cand I; simpl in I; [contradiction|].
  assert (Tail : In cand (candidates s) ->
                 depth_matched cand
                 /\ exists pre post, c :: s = pre ++ cand ++ post).
  { intros I'. destruct (IH _ I') as (M & pre & post & ->).
    split; [exact M|]. now exists (c :: pre), post. }
  destruct (c =? lbrace)%N eqn:Bl; [|now apply Tail].
  apply N.eqb_eq in Bl. subst c.
  change (balanced_prefix 0 (lbrace :: s))
    with (option_map (cons lbrace) (balanced_prefix 1 s)) in I.
  destruct (balanced_prefix 1 s) as [p|] eqn:B; simpl in I;
    [|now apply Tail].
  destruct I as [<- | I]; [|now apply Tail].
  destruct (balanced_prefix_depth s 1%Z p ltac:(lia) B)
    as (T & post & -> & P).
  split.
  - repeat split.
    + change (lbrace :: p) with ([lbrace] ++ p).
      rewrite brace_depth_app. change (brace_depth [lbrace]) with 1%Z. lia.
    + now exists p.
    + intros [|c1 p1] p2 Ep N1 N2; [congruence|].
      injection Ep as <- Ep.
      change (lbrace :: p1) with ([lbrace] ++ p1).
      rewrite brace_depth_app. change (brace_depth [lbrace]) with 1%Z.
      specialize (P _ _ Ep N2). lia.
  - now exists [], post.
Qed.

Lemma candidates_no_brace (s : text) :
  ~ In lbrace s -> candidates s = [].
Proof.
  induction s as [|c s IH]; intros N; simpl; [reflexivity|].
  destruct (c =? lbrace)%N eqn:Bl.
  - apply N.eqb_eq in Bl. subst c. exfalso. apply N. now left.
  - apply IH. intros I. apply N. now right.
Qed.

Lemma candidates_after_prose (pre l : text) :
  ~ In lbrace pre -> candidates (pre ++ l) = candidates l.
Proof.
  induction pre as [|c pre IH]; intros Np; [reflexivity|].
  cbn [app candidates].
  destruct (c =? lbrace)%N eqn:B.
  - apply N.eqb_eq in B. subst c. exfalso. apply Np. now left.
  - apply IH. intros I. apply Np. now right.
Qed.

(** Depth counting finds the close of a text that is balanced from depth
    [d] and at no earlier point. *)
Lemma balanced_prefix_found (rest post : text) :
  forall d : Z,
    (0 < d)%Z ->
    (d + brace_depth rest = 0)%Z ->
    (forall p1 p2, rest = p1 ++ p2 -> p2 <> [] ->
                   (0 < d + brace_depth p1)%Z) ->
    balanced_prefix d (rest ++ post) = Some rest.
Proof.
  induction rest as [|c rest IH]; intros d D Total Before.
  - simpl in Total. lia.
  - assert (Tail : forall d' k,
              brace_depth [c] = k -> (d' = d + k)%Z -> (0 < d')%Z ->
              balanced_prefix d' (rest ++ post) = Some rest).
    { intros d' k K -> D'. apply IH; [exact D'| |].
      - change (c :: rest) with ([c] ++ rest) in Total.
        rewrite brace_depth_app, K in Total. lia.
      - intros p1 p2 E N2.
        specialize (Before (c :: p1) p2 ltac:(now rewrite E) N2).
        change (c :: p1) with ([c] ++ p1) in Before.
        rewrite brace_depth_app, K in Before. lia. }
    cbn [app balanced_prefix].
    destruct (c =? lbrace)%N eqn:Bl.
    { rewrite (Tail (d + 1)%Z 1%Z); try reflexivity; try lia;
        try (simpl; now rewrite Bl). }
    destruct (c =? rbrace)%N eqn:Br.
    + assert (K : brace_depth [c] = (-1)%Z) by (simpl; now rewrite Bl, Br).
      destruct (d - 1 =? 0)%Z eqn:Z0.
      * apply Z.eqb_eq in Z0. destruct rest as [|c' rest]; [reflexivity|].
        specialize (Before [c] (c' :: rest) eq_refl ltac:(discriminate)).
        rewrite K in Before. lia.
      * apply Z.eqb_neq in Z0.
        rewrite (Tail (d - 1)%Z (-1)%Z); try reflexivity; try lia;
          try exact K.
    + rewrite (Tail d 0%Z); try reflexivity; try lia;
        try (simpl; now rewrite Bl, Br).
Qed.

Lemma candidates_head (cand post : text) :
  depth_matched cand ->
  exists more, candidates (cand ++ post) = cand :: more.
Proof.
  intros (Total & (rest & ->) & Before).
  cbn [app candidates]. rewrite N.eqb_refl.
  change (balanced_prefix 0 (lbrace :: rest ++ post))
    with (option_map (cons lbrace) (balanced_prefix 1 (rest ++ post))).
  rewrite balanced_prefix_found; [cbn; eauto | lia | |].
  - change (lbrace :: rest) with ([lbrace] ++ rest) in Total.
    rewrite brace_depth_app in Total.
    change (brace_depth [lbrace]) with 1%Z in Total. lia.
  - intros p1 p2 E N2.
    specialize (Before (lbrace :: p1) p2 ltac:(now rewrite E)
                  ltac:(discriminate) N2).
    change (lbrace :: p1) with ([lbrace] ++ p1) in Before.
    rewrite brace_depth_app in Before.
    change (brace_depth [lbrace]) with 1%Z in Before. lia.
Qed.

(** ** What [JSON.parse] makes of a text with no opening brace *)

Module JSONObjects.
Import JSON.

Lemma elements_array (fuel : nat) :
  forall l acc v r, elements fuel l acc = Ok v r -> exists es, v = VArray es.
Proof.
  induction fuel as [|fuel IH]; intros l acc v r E; [discriminate|].
  cbn [elements] in E.
  destruct (value fuel l) as [w r1| |]; try discriminate.
  destruct (skip_ws r1) as [|c r2]; [discriminate|].
  destruct (c =? 44)%N; [now apply IH in E|].
  destruct (c =? 93)%N; [|discriminate].
  injection E as <- <-. eauto.
Qed.

Lemma value_object (fuel : nat) (l : text) props r :
  value fuel l = Ok (VObject props) r ->
  exists r0, skip_ws l = lbrace :: r0.
Proof.
  destruct fuel as [|fuel]; [discriminate|]. cbn [value].
  destruct (skip_ws l) as [|c r0]; [discriminate|].
  destruct (c =? 123)%N eqn:B.
  { intros _. apply N.eqb_eq in B. subst c. now exists r0. }
  destruct (c =? 91)%N.
  { destruct (skip_ws r0) as [|c' r']; [discriminate|].
    destruct (c' =? 93)%N; [discriminate|].
    intros E. apply elements_array in E. destruct E as (es & E).
    discriminate. }
  destruct (c =? 34)%N.
  { destruct (read_string r0) as [[s r']|]; discriminate. }
  unfold keyword.
  destruct (c =? 116)%N; [destruct (expect _ _); discriminate|].
  destruct (c =? 102)%N; [destruct (expect _ _); discriminate|].
  destruct (c =? 110)%N; [destruct (expect _ _); discriminate|].
  destruct (read_number (c :: r0)) as [[d r']|]; discriminate.
Qed.

Lemma skip_ws_incl (l : text) (c : code_unit) :
  In c (skip_ws l) -> In c l.
Proof.
  induction l as [|x l IH]; simpl; [auto|].
  destruct (is_ws x); [intros I; right; now apply IH | auto].
Qed.

(** A text that parses to an object contains an opening brace. *)
Lemma parse_object_brace (t : text) props :
  parse t = Some (VObject props) -> In lbrace t.
Proof.
  unfold parse.
  destruct (value (2 * length t + 2) t) as [v rest| |] eqn:V;
    try discriminate.
  destruct (skip_ws rest); [|discriminate].
  intros [= ->]. apply value_object in V. destruct V as (r0 & E).
  apply skip_ws_incl. rewrite E. now left.
Qed.

End JSONObjects.

(** ** Blocks and trimmed blocks are made of code units of the text *)

Lemma fence_blocks_from_incl (l : text) :
  forall k b, In b (fence_blocks_from k l) -> incl b l.
Proof.
  induction l as [|c l IH]; intros k b I; [contradiction|].
  cbn [fence_blocks_from] in I.
  destruct k as [|k]; [|apply incl_tl; now apply (IH k)].
  destruct (match_fence_at (c :: l)) as [[cap rest]|] eqn:F;
    [|apply incl_tl; now apply (IH 0)].
  destruct I as [<- | I]; [|apply incl_tl; now apply (IH _ _ I)].
  destruct (match_fence_at_parts _ _ _ F) as (opening & close & -> & _).
  intros x Ix. apply in_or_app. right. apply in_or_app. now left.
Qed.

Lemma trim_start_incl (l : text) : incl (trim_start l) l.
Proof.
  induction l as [|c l IH]; simpl; [apply incl_refl|].
  destruct (is_white_space c); [now apply incl_tl | apply incl_refl].
Qed.

Lemma trim_incl (l : text) : incl (trim l) l.
Proof.
  intros x I. unfold trim in I.
  apply in_rev in I. apply trim_start_incl in I.
  apply in_rev in I. now apply trim_start_incl in I.
Qed.

(** ** The labels of a fence *)

Lemma canonicalize_backtick (c : code_unit) :
  c <> backtick -> (canonicalize backtick =? canonicalize c)%N = false.
Proof.
  intros Nb. apply N.eqb_neq. unfold canonicalize, backtick in *.
  destruct ((97 <=? c) && (c <=? 122))%N eqn:R; simpl; [|congruence].
  apply andb_prop in R. destruct R as [R1 R2].
  apply N.leb_le in R1, R2. lia.
Qed.

Lemma lazy_until_fence_body (body post : text) :
  ~ In backtick body ->
  lazy_until_fence (body ++ fence ++ post) = Some (body, post).
Proof.
  induction body as [|c body IH]; intros Nb.
  - reflexivity.
  - cbn [app lazy_until_fence].
    assert (Nc : c <> backtick) by (intros ->; apply Nb; now left).
    unfold fence at 1. cbn [match_literal].
    rewrite (canonicalize_backtick _ Nc), IH; [reflexivity|].
    intros I. apply Nb. now right.
Qed.

Lemma match_literal_ci (pat : text) :
  forall lab l,
    map canonicalize lab = map canonicalize pat ->
    match_literal pat (lab ++ l) = Some l.
Proof.
  induction pat as [|p pat IH]; intros [|c lab] l E; try discriminate.
  - reflexivity.
  - simpl in E. injection E as Ec E. cbn [app match_literal].
    rewrite Ec, N.eqb_refl. now apply IH.
Qed.

(** A literal does not match where a code unit differs after
    canonicalization. *)
Lemma match_literal_mismatch (pat : text) :
  forall l k,
    match nth_error pat k, nth_error l k with
    | Some p, Some c => canonicalize p <> canonicalize c
    | _, _ => False
    end ->
    match_literal pat l = None.
Proof.
  induction pat as [|p pat IH]; intros [|c l] [|k] H; simpl in H;
    try contradiction; try reflexivity.
  - simpl. apply N.eqb_neq in H. now rewrite H.
  - simpl. destruct (canonicalize p =? canonicalize c)%N; [|reflexivity].
    now apply (IH l k).
Qed.

Lemma match_fence_at_labelled (label body post : text) :
  is_fence_label label ->
  ~ In backtick body ->
  match_fence_at (fence ++ label ++ LF ++ body ++ fence ++ post)
  = Some (body, post).
Proof.
  intros L Nb. unfold match_fence_at.
  rewrite (match_literal_ci fence fence _ eq_refl).
  assert (Go : forall pat,
    map canonicalize label = map canonicalize pat ->
    match match_literal pat (label ++ LF ++ body ++ fence ++ post) with
    | Some l2 =>
        match match_literal LF l2 with
        | Some l3 => lazy_until_fence l3
        | None => None
        end
    | None => None
    end = Some (body, post)).
  { intros pat E. rewrite (match_literal_ci pat label _ E).
    rewrite (match_literal_ci LF LF _ eq_refl).
    now apply lazy_until_fence_body. }
  assert (No : forall pat k (p c : code_unit),
    nth_error pat k = Some p ->
    nth_error (label ++ LF) k = Some c ->
    canonicalize p <> canonicalize c ->
    match_literal pat (label ++ LF ++ body ++ fence ++ post) = None).
  { intros pat k p c Hp Hc Ne. apply match_literal_mismatch with (k := k).
    rewrite Hp, app_assoc, nth_error_app1.
    - now rewrite Hc.
    - apply nth_error_Some. now rewrite Hc. }
  unfold is_fence_label in L. simpl in L.
  change (fence_labels ++ [[]])
    with [lit "json"; lit "python"; lit "py"; lit "txt"; []].
  destruct L as [E | [E | [E | [E | [E | []]]]]]; symmetry in E.
  - (* json *)
    cbn [first_alternative]. now rewrite (Go (lit "json")).
  - (* python *)
    destruct label as [|a label]; [discriminate|].
    injection E as Ea E.
    cbn [first_alternative].
    rewrite (No (lit "json") 0 106%N a eq_refl eq_refl)
      by (rewrite Ea; discriminate).
    now rewrite (Go (lit "python")) by (simpl; now rewrite Ea, E).
  - (* py *)
    destruct label as [|a [|b [|c label]]]; try discriminate.
    injection E as Ea Eb.
    cbn [first_alternative].
    rewrite (No (lit "json") 0 106%N a eq_refl eq_refl)
      by (rewrite Ea; discriminate).
    rewrite (No (lit "python") 2 116%N 10%N eq_refl eq_refl)
      by discriminate.
    now rewrite (Go (lit "py")) by (simpl; now rewrite Ea, Eb).
  - (* txt *)
    destruct label as [|a label]; [discriminate|].
    injection E as Ea E.
    cbn [first_alternative].
    rewrite (No (lit "json") 0 106%N a eq_refl eq_refl)
      by (rewrite Ea; discriminate).
    rewrite (No (lit "python") 0 112%N a eq_refl eq_refl)
      by (rewrite Ea; discriminate).
    rewrite (No (lit "py") 0 112%N a eq_refl eq_refl)
      by (rewrite Ea; discriminate).
    now rewrite (Go (lit "txt")) by (simpl; now rewrite Ea, E).
  - (* no label *)
    destruct label; [|discriminate].
    cbn [first_alternative].
    rewrite (No (lit "json") 0 106%N 10%N eq_refl eq_refl) by discriminate.
    rewrite (No (lit "python") 0 112%N 10%N eq_refl eq_refl) by discriminate.
    rewrite (No (lit "py") 0 112%N 10%N eq_refl eq_refl) by discriminate.
    rewrite (No (lit "txt") 0 116%N 10%N eq_refl eq_refl) by discriminate.
    now rewrite (Go []).
Qed.

Lemma fence_blocks_labelled (label body post : text) :
  is_fence_label label ->
  ~ In backtick body ->
  fence_blocks (fence ++ label ++ LF ++ body ++ fence ++ post)
  = body :: fence_blocks post.
Proof.
  intros L Nb. apply fence_blocks_match. now apply match_fence_at_labelled.
Qed.

(** ** The pattern finds the fenced blocks, and nothing else *)

Lemma match_literal_folded (pat : text) :
  forall l rest,
    match_literal pat l = Some rest ->
    exists pre, l = pre ++ rest /\ map canonicalize pre = map canonicalize pat.
Proof.
  induction pat as [|p pat IH]; intros l rest E; simpl in E.
  - injection E as <-. now exists [].
  - destruct l as [|c l]; [discriminate|].
    destruct (canonicalize p =? canonicalize c)%N eqn:C; [|discriminate].
    apply N.eqb_eq in C.
    destruct (IH _ _ E) as (pre & -> & F).
    exists (c :: pre). simpl. now rewrite F, C.
Qed.

(** A code unit that is not a letter is matched by itself only. *)
Lemma canonicalize_plain (p c : code_unit) :
  (p < 65 \/ 90 < p < 97 \/ 122 < p)%N ->
  canonicalize c = canonicalize p -> c = p.
Proof.
  unfold canonicalize. intros Np.
  destruct ((97 <=? c) && (c <=? 122))%N eqn:Rc;
    destruct ((97 <=? p) && (p <=? 122))%N eqn:Rp;
    rewrite ?andb_true_iff, ?andb_false_iff, ?N.leb_le, ?N.leb_gt in *;
    lia.
Qed.

Lemma match_literal_fence (l rest : text) :
  match_literal fence l = Some rest <-> l = fence ++ rest.
Proof.
  split.
  - intros E. apply match_literal_folded in E.
    destruct E as (pre & -> & F). f_equal.
    destruct pre as [|a [|b [|c [|d pre]]]]; try discriminate.
    injection F as Fa Fb Fc.
    apply canonicalize_plain in Fa, Fb, Fc;
      try (unfold backtick; lia).
    now subst.
  - intros ->. now apply match_literal_ci.
Qed.

Lemma match_literal_LF (l rest : text) :
  match_literal LF l = Some rest <-> l = LF ++ rest.
Proof.
  split.
  - intros E. apply match_literal_folded in E.
    destruct E as (pre & -> & F). f_equal.
    destruct pre as [|a [|b pre]]; try discriminate.
    injection F as Fa. apply canonicalize_plain in Fa; [|lia].
    now subst.
  - intros ->. now apply match_literal_ci.
Qed.

Lemma closes_first_tail (c : code_unit) (body : text) :
  closes_first (c :: body) -> closes_first body.
Proof.
  intros C p q E. apply (C (c :: p) q). cbn [app]. now rewrite E.
Qed.

(** The lazy repetition stops at the first closing fence. *)
Lemma lazy_until_fence_first (l body post : text) :
  lazy_until_fence l = Some (body, post)
  <-> l = body ++ fence ++ post /\ closes_first body.
Proof.
  split.
  - revert body post. induction l as [|c l IH]; intros body post E.
    + simpl in E. discriminate.
    + cbn [lazy_until_fence] in E.
      destruct (match_literal fence (c :: l)) as [r|] eqn:F.
      * injection E as <- <-. apply match_literal_fence in F.
        split; [exact F|].
        intros p q Ep. apply (f_equal (@length _)) in Ep.
        rewrite !length_app in Ep. cbn [length] in Ep.
        destruct q; [reflexivity | simpl in Ep; lia].
      * destruct (lazy_until_fence l) as [[cap rest]|]; [|discriminate].
        injection E as <- <-.
        destruct (IH _ _ eq_refl) as (-> & C).
        split; [reflexivity|].
        intros [|x p] q Ep.
        -- exfalso.
           assert (M : match_literal fence (c :: cap ++ fence ++ rest)
                       = Some (q ++ rest)).
           { apply match_literal_fence.
             change (c :: cap ++ fence ++ rest)
               with ((c :: cap) ++ fence ++ rest).
             rewrite app_assoc, Ep. cbn [app].
             now rewrite <- app_assoc. }
           congruence.
        -- cbn [app] in Ep. injection Ep as _ Ep. now apply (C p q).
  - intros (-> & C). induction body as [|c body IH].
    + reflexivity.
    + cbn [app lazy_until_fence].
      destruct (match_literal fence (c :: body ++ fence ++ post))
        as [r|] eqn:F.
      * exfalso. apply match_literal_fence in F.
        unfold fence in F, C. cbn [app] in F. injection F as -> F.
        destruct body as [|x [|y body]]; cbn [app] in F.
        -- specialize (C [] [backtick] eq_refl). discriminate.
        -- injection F as -> F.
           specialize (C [] [backtick; backtick] eq_refl). discriminate.
        -- injection F as -> -> F.
           specialize (C [] (body ++ [backtick; backtick; backtick])
                         eq_refl).
           destruct body; discriminate.
      * now rewrite (IH (closes_first_tail _ _ C)).
Qed.

Lemma first_alternative_none {A} (alts : list text) (k : text -> option A) :
  (forall b, In b alts -> k b = None) -> first_alternative alts k = None.
Proof.
  induction alts as [|b alts IH]; intros N; [reflexivity|].
  cbn [first_alternative]. rewrite (N b (or_introl eq_refl)).
  apply IH. intros b' I. apply N. now right.
Qed.

(** When one alternative only can go on, the result is what it gives. *)
Lemma first_alternative_only {A} (alts : list text) (k : text -> option A)
      (a : text) :
  In a alts ->
  (forall b, In b alts -> b <> a -> k b = None) ->
  first_alternative alts k = k a.
Proof.
  induction alts as [|b alts IH]; intros Ia Others; [contradiction|].
  cbn [first_alternative].
  destruct (list_eq_dec N.eq_dec b a) as [-> | Ne].
  - destruct (k a) as [x|] eqn:Ka; [reflexivity|].
    destruct (in_dec (list_eq_dec N.eq_dec) a alts) as [I | NI].
    + rewrite IH; [reflexivity | exact I |].
      intros b I' Nb. apply Others; [now right | exact Nb].
    + apply first_alternative_none. intros b I'.
      apply Others; [now right|]. intros ->. contradiction.
  - rewrite (Others b (or_introl eq_refl) Ne).
    destruct Ia as [-> | Ia]; [contradiction|].
    apply IH; [exact Ia|].
    intros b' I' Nb. apply Others; [now right | exact Nb].
Qed.

(** A text is cut at its first line feed in one way only. *)
Lemma first_line_feed (x1 x2 y1 y2 : text) :
  x1 ++ LF ++ y1 = x2 ++ LF ++ y2 ->
  ~ In 10%N x1 -> ~ In 10%N x2 ->
  x1 = x2 /\ y1 = y2.
Proof.
  revert x2. induction x1 as [|c x1 IH]; intros [|d x2] E N1 N2;
    cbn [app LF] in E.
  - injection E as E. now split.
  - injection E as <- _. exfalso. apply N2. now left.
  - injection E as -> _. exfalso. apply N1. now left.
  - injection E as <- E.
    destruct (IH x2 E) as [-> ->];
      [intros I; apply N1; now right | intros I; apply N2; now right|].
    now split.
Qed.

Lemma no_line_feed (pat l : text) :
  ~ In 10%N (map canonicalize pat) ->
  map canonicalize l = map canonicalize pat ->
  ~ In 10%N l.
Proof.
  intros N E I. apply N. rewrite <- E.
  change 10%N with (canonicalize 10%N). now apply in_map.
Qed.

Lemma fence_label_no_line_feed (pat : text) :
  In pat (fence_labels ++ [[]]) -> ~ In 10%N (map canonicalize pat).
Proof.
  intros I. simpl in I.
  repeat (destruct I as [<- | I];
          [intros J; vm_compute in J;
           repeat (destruct J as [J | J]; [discriminate|]); exact J|]).
  contradiction.
Qed.

(** After the opening fence, a label and the line feed, the pattern goes on
    with the lazy repetition: every alternative but the label of the text
    fails, at a letter or at the line feed. *)
Lemma match_fence_at_label (label l3 : text) :
  is_fence_label label ->
  match_fence_at (fence ++ label ++ LF ++ l3) = lazy_until_fence l3.
Proof.
  intros L. unfold match_fence_at.
  rewrite (match_literal_ci fence fence _ eq_refl).
  set (k := fun pat : text =>
              match match_literal pat (label ++ LF ++ l3) with
              | Some l2 =>
                  match match_literal LF l2 with
                  | Some l3' => lazy_until_fence l3'
                  | None => None
                  end
              | None => None
              end).
  unfold is_fence_label in L. apply in_map_iff in L.
  destruct L as (a & E & Ia).
  assert (Nl : ~ In 10%N label).
  { apply (no_line_feed a); [now apply fence_label_no_line_feed|].
    now symmetry. }
  assert (Go : k a = lazy_until_fence l3).
  { unfold k. rewrite (match_literal_ci a label _ (eq_sym E)).
    now rewrite (match_literal_ci LF LF _ eq_refl). }
  assert (Stop : forall b, In b (fence_labels ++ [[]]) -> b <> a ->
                           k b = None).
  { intros b Ib Nb. unfold k.
    destruct (match_literal b (label ++ LF ++ l3)) as [l2|] eqn:M;
      [|reflexivity].
    destruct (match_literal LF l2) as [l3'|] eqn:M2; [|reflexivity].
    exfalso.
    apply match_literal_folded in M. destruct M as (pre & Ep & Fp).
    apply match_literal_LF in M2. subst l2.
    apply first_line_feed in Ep;
      [|exact Nl
       |apply (no_line_feed b); [now apply fence_label_no_line_feed|exact Fp]].
    destruct Ep as [<- _].
    assert (Same : map canonicalize b = map canonicalize a) by congruence.
    clear - Ib Ia Nb Same. simpl in Ib, Ia.
    repeat (destruct Ib as [<- | Ib]; [|]);
      try contradiction;
      repeat (destruct Ia as [<- | Ia]; [|]);
      try contradiction; try discriminate; now apply Nb. }
  rewrite <- Go. now apply first_alternative_only.
Qed.

(** The pattern matches at the head of a text exactly when the text begins
    with a fenced block, and captures its content. *)
Lemma match_fence_at_fenced (l body post : text) :
  match_fence_at l = Some (body, post) <-> fenced_block l body post.
Proof.
  split.
  - unfold match_fence_at.
    destruct (match_literal fence l) as [l1|] eqn:F; [|discriminate].
    intros E. apply first_alternative_some in E.
    destruct E as (a & Ia & E).
    destruct (match_literal a l1) as [l2|] eqn:E2; [|discriminate].
    destruct (match_literal LF l2) as [l3|] eqn:E3; [|discriminate].
    apply match_literal_fence in F. apply match_literal_LF in E3.
    apply match_literal_folded in E2. destruct E2 as (label & E2 & Fl).
    apply lazy_until_fence_first in E. destruct E as (E & C).
    exists label. repeat split.
    + unfold is_fence_label. rewrite Fl. now apply in_map.
    + now subst.
    + exact C.
  - intros (label & L & -> & C).
    rewrite (match_fence_at_label _ _ L).
    now apply lazy_until_fence_first.
Qed.

(** ** The blocks the loop goes through are the fenced blocks in order *)

Lemma fence_blocks_first (l : text) :
  (fence_blocks l = []
   /\ forall pre rest, l = pre ++ rest -> match_fence_at rest = None)
  \/ exists pre rest cap post,
       l = pre ++ rest
       /\ match_fence_at rest = Some (cap, post)
       /\ (forall pre1 pre2,
              pre = pre1 ++ pre2 -> pre2 <> [] ->
              match_fence_at (pre2 ++ rest) = None)
       /\ fence_blocks l = cap :: fence_blocks post.
Proof.
  induction l as [|c l IH].
  - left. split; [reflexivity|].
    intros pre rest E. symmetry in E. apply app_eq_nil in E.
    destruct E as [_ ->]. reflexivity.
  - destruct (match_fence_at (c :: l)) as [[cap post]|] eqn:F.
    + right. exists [], (c :: l), cap, post.
      split; [reflexivity|]. split; [exact F|]. split.
      * intros pre1 pre2 E N. symmetry in E. apply app_eq_nil in E.
        destruct E as [_ ->]. contradiction.
      * now apply fence_blocks_match.
    + rewrite (fence_blocks_no_match _ _ F).
      destruct IH as [[B None_] | (pre & rest & cap & post & -> & M & Before & B)].
      * left. split; [exact B|].
        intros [|x pre] rest E; cbn [app] in E.
        -- now subst rest.
        -- injection E as _ E. now apply (None_ pre).
      * right. exists (c :: pre), rest, cap, post.
        split; [reflexivity|]. split; [exact M|]. split; [|exact B].
        intros [|x pre1] pre2 E N; cbn [app] in E.
        -- subst pre2. exact F.
        -- injection E as _ E. now apply (Before pre1).
Qed.

Lemma fence_blocks_in_order (s : text) : blocks_in_order s (fence_blocks s).
Proof.
  assert (Strong : forall n l, length l <= n ->
                               blocks_in_order l (fence_blocks l)).
  { induction n as [|n IH]; intros l Len.
    - destruct l; [|simpl in Len; lia].
      apply no_block. intros pre rest body post E F.
      symmetry in E. apply app_eq_nil in E. destruct E as [_ ->].
      apply match_fence_at_fenced in F. discriminate.
    - destruct (fence_blocks_first l)
        as [[B None_] | (pre & rest & cap & post & -> & M & Before & B)].
      + rewrite B. apply no_block. intros pre rest body post E F.
        apply match_fence_at_fenced in F.
        rewrite (None_ pre rest E) in F. discriminate.
      + rewrite B. apply (first_block pre rest cap post).
        * now apply match_fence_at_fenced.
        * intros pre1 pre2 body' post' E N F.
          apply match_fence_at_fenced in F.
          rewrite (Before pre1 pre2 E N) in F. discriminate.
        * apply IH.
          destruct (match_fence_at_suffix _ _ _ M) as (used & -> & L).
          rewrite !length_app in Len. lia. }
  exact (Strong (length s) s (Nat.le_refl _)).
Qed.

Lemma fence_blocks_skip (pre rest : text) :
  (forall pre1 pre2,
      pre = pre1 ++ pre2 -> pre2 <> [] ->
      match_fence_at (pre2 ++ rest) = None) ->
  fence_blocks (pre ++ rest) = fence_blocks rest.
Proof.
  induction pre as [|c pre IH]; intros Before; [reflexivity|].
  cbn [app]. rewrite fence_blocks_no_match.
  - apply IH. intros pre1 pre2 E N. apply (Before (c :: pre1)); [|exact N].
    cbn [app]. now rewrite E.
  - apply (Before [] (c :: pre)); [reflexivity | discriminate].
Qed.

(** The fenced blocks of a text in order are the captures of the
    successive matches of the pattern, and nothing else. *)
Lemma blocks_in_order_fence_blocks (s : text) (blocks : list text) :
  blocks_in_order s blocks -> fence_blocks s = blocks.
Proof.
  induction 1 as [l None_ | pre rest body post blocks F Before _ IH].
  - destruct (fence_blocks_first l)
      as [[B _] | (pre & rest & cap & post & E & M & _)]; [exact B|].
    apply match_fence_at_fenced in M. now apply (None_ _ _ _ _ E) in M.
  - rewrite fence_blocks_skip.
    + apply match_fence_at_fenced in F.
      rewrite (fence_blocks_match _ _ _ F). now rewrite IH.
    + intros pre1 pre2 E N.
      destruct (match_fence_at (pre2 ++ rest)) as [[b p]|] eqn:M;
        [|reflexivity].
      apply match_fence_at_fenced in M. now apply (Before _ _ _ _ E N) in M.
Qed.

(** No block opens in a stretch of text that holds no backtick. *)
Lemma fence_blocks_after_prose (pre rest : text) :
  ~ In backtick pre -> fence_blocks (pre ++ rest) = fence_blocks rest.
Proof.
  intros Nb. apply fence_blocks_skip. intros pre1 [|c pre2] E N;
    [contradiction|].
  unfold match_fence_at.
  destruct (match_literal fence ((c :: pre2) ++ rest)) as [l1|] eqn:F;
    [|reflexivity].
  apply match_literal_fence in F. cbn [app] in F. unfold fence in F.
  injection F as -> _. exfalso. apply Nb. subst pre.
  apply in_or_app. right. now left.
Qed.

(** ** [JSON.parse] and the braces of a text

    What the parser reads as a value is a segment: its string literals are
    complete, and when no literal holds a brace the braces of the value are
    the braces of its objects, which are balanced. *)

Module JSONBraces.
Import JSON.

Lemma lex_end_app (st : lexical) (p q : text) :
  lex_end st (p ++ q) = lex_end (lex_end st p) q.
Proof. apply fold_left_app. Qed.

Lemma brace_in_string_app (p : text) :
  forall (st : lexical) (q : text),
    brace_in_string st (p ++ q)
    = brace_in_string st p || brace_in_string (lex_end st p) q.
Proof.
  induction p as [|c p IH]; intros st q; [reflexivity|].
  cbn [app brace_in_string]. rewrite IH. unfold lex_end. cbn [fold_left].
  now rewrite orb_assoc.
Qed.

Lemma brace_depth_free (p : text) :
  Forall (fun c => is_brace c = false) p -> brace_depth p = 0%Z.
Proof.
  induction 1 as [|c p Hc _ IH]; [reflexivity|].
  cbn [brace_depth]. rewrite IH. unfold is_brace in Hc.
  apply orb_false_iff in Hc. destruct Hc as [-> ->]. reflexivity.
Qed.

Lemma balanced_free (p : text) :
  Forall (fun c => is_brace c = false) p -> balanced p.
Proof.
  intros F. split; [now apply brace_depth_free|].
  intros p1 p2 ->. apply Forall_app in F. destruct F as [F1 _].
  rewrite (brace_depth_free _ F1). lia.
Qed.

Lemma plain_free (p : text) :
  plain p -> Forall (fun c => is_brace c = false) p.
Proof.
  unfold plain. apply Forall_impl. now intros c [_ B].
Qed.

Lemma plain_segment (p : text) : plain p -> segment p.
Proof.
  intros P. split.
  - induction P as [|c p [Nq _] _ IH]; [reflexivity|].
    unfold lex_end. cbn [fold_left lex_step].
    apply N.eqb_neq in Nq. now rewrite Nq.
  - intros _. now apply balanced_free, plain_free.
Qed.

Lemma balanced_app (p q : text) :
  balanced p -> balanced q -> balanced (p ++ q).
Proof.
  intros [Tp Pp] [Tq Pq]. split.
  - rewrite brace_depth_app. lia.
  - intros p1 p2 E. apply app_eq_app in E.
    destruct E as (m & [[E1 E2] | [E1 E2]]).
    + now apply (Pp p1 m).
    + subst p1. rewrite brace_depth_app, Tp.
      specialize (Pq m p2 E2). lia.
Qed.

Lemma segment_app (p q : text) :
  segment p -> segment q -> segment (p ++ q).
Proof.
  intros [Lp Bp] [Lq Bq]. split.
  - now rewrite lex_end_app, Lp.
  - rewrite brace_in_string_app, Lp. intros B.
    apply orb_false_iff in B. destruct B as [B1 B2].
    apply balanced_app; auto.
Qed.

(** An object: a segment between its braces. *)
Lemma balanced_object (inner : text) :
  balanced inner -> balanced (lbrace :: inner ++ [rbrace]).
Proof.
  intros [T P]. split.
  - change (lbrace :: inner ++ [rbrace])
      with ([lbrace] ++ inner ++ [rbrace]).
    rewrite !brace_depth_app, T. reflexivity.
  - intros [|c p1] p2 E; [simpl; lia|].
    cbn [app] in E. injection E as <- E.
    change (lbrace :: p1) with ([lbrace] ++ p1).
    rewrite brace_depth_app. change (brace_depth [lbrace]) with 1%Z.
    apply app_eq_app in E.
    destruct E as (m & [[E1 E2] | [E1 E2]]).
    + specialize (P p1 m E1). lia.
    + subst p1. rewrite brace_depth_app, T.
      destruct m as [|x m]; [simpl; lia|].
      injection E2 as <- E2. symmetry in E2. apply app_eq_nil in E2.
      destruct E2 as [-> ->]. change (brace_depth [rbrace]) with (-1)%Z.
      lia.
Qed.

Lemma segment_object (inner : text) :
  segment inner -> segment (lbrace :: inner ++ [rbrace]).
Proof.
  intros [L B]. split.
  - change (lbrace :: inner ++ [rbrace])
      with ([lbrace] ++ inner ++ [rbrace]).
    rewrite lex_end_app. change (lex_end Outside [lbrace]) with Outside.
    now rewrite lex_end_app, L.
  - change (lbrace :: inner ++ [rbrace])
      with ([lbrace] ++ inner ++ [rbrace]).
    rewrite !brace_in_string_app.
    change (lex_end Outside [lbrace]) with Outside. rewrite L.
    intros H. apply orb_false_iff in H. destruct H as [_ H].
    apply orb_false_iff in H. destruct H as [H _].
    now apply balanced_object, B.
Qed.

(** The text of an object whose inside is balanced ends at the close that
    matches its opening brace. *)
Lemma object_depth_matched (inner : text) :
  balanced inner -> depth_matched (lbrace :: inner ++ [rbrace]).
Proof.
  intros [T P]. split; [|split].
  - change (lbrace :: inner ++ [rbrace])
      with ([lbrace] ++ inner ++ [rbrace]).
    rewrite !brace_depth_app, T. reflexivity.
  - eauto.
  - intros [|c p1] p2 E N1 N2; [contradiction|].
    cbn [app] in E. injection E as <- E.
    change (lbrace :: p1) with ([lbrace] ++ p1).
    rewrite brace_depth_app. change (brace_depth [lbrace]) with 1%Z.
    apply app_eq_app in E.
    destruct E as (m & [[E1 E2] | [E1 E2]]).
    + specialize (P p1 m E1). lia.
    + subst p1. destruct m as [|x m].
      * rewrite app_nil_r, T. lia.
      * injection E2 as <- E2. symmetry in E2. apply app_eq_nil in E2.
        destruct E2 as [-> ->]. contradiction.
Qed.

Lemma segment_before_refl (l : text) : segment_before l l.
Proof. exists []. split; [reflexivity|]. apply plain_segment. constructor. Qed.

Lemma segment_before_trans (l m r : text) :
  segment_before l m -> segment_before m r -> segment_before l r.
Proof.
  intros (p & -> & Sp) (q & -> & Sq). exists (p ++ q).
  split; [now rewrite app_assoc | now apply segment_app].
Qed.

Lemma segment_before_plain (ws r : text) :
  plain ws -> segment_before (ws ++ r) r.
Proof. intros P. exists ws. split; [reflexivity | now apply plain_segment]. Qed.

Lemma segment_before_unit (c : code_unit) (r : text) :
  c <> 34%N -> is_brace c = false -> segment_before (c :: r) r.
Proof.
  intros Nq Nb. apply (segment_before_plain [c]). now repeat constructor.
Qed.

(** White space, digits, signs, the letters of the keywords. *)
Lemma skip_ws_plain (l : text) : segment_before l (skip_ws l).
Proof.
  induction l as [|c l IH]; [apply segment_before_refl|].
  cbn [skip_ws]. destruct (is_ws c) eqn:W; [|apply segment_before_refl].
  apply segment_before_trans with (m := l); [|exact IH].
  unfold is_ws in W.
  rewrite !orb_true_iff, !N.eqb_eq in W.
  apply segment_before_unit; [lia|].
  unfold is_brace, lbrace, rbrace. apply orb_false_iff.
  rewrite !N.eqb_neq. lia.
Qed.

Lemma digit_plain (c : code_unit) (r : text) :
  is_digit c = true -> segment_before (c :: r) r.
Proof.
  unfold is_digit. rewrite andb_true_iff, !N.leb_le. intros D.
  apply segment_before_unit; [lia|].
  unfold is_brace, lbrace, rbrace. apply orb_false_iff.
  rewrite !N.eqb_neq. lia.
Qed.

Lemma mark_plain (c m : code_unit) (r : text) :
  (c =? m)%N = true ->
  m <> 34%N -> is_brace m = false ->
  segment_before (c :: r) r.
Proof.
  intros E Nq Nb. apply N.eqb_eq in E. subst c.
  now apply segment_before_unit.
Qed.

Lemma read_digits_plain (l : text) :
  forall acc n k r,
    read_digits l acc = (n, k, r) -> segment_before l r.
Proof.
  induction l as [|c l IH]; intros acc n k r E; simpl in E.
  - injection E as <- <- <-. apply segment_before_refl.
  - destruct (is_digit c) eqn:D.
    + destruct (read_digits l (acc * 10 + (c - 48))%N) as [[n' k'] r'] eqn:R.
      injection E as <- <- <-.
      apply segment_before_trans with (m := l);
        [now apply digit_plain | now apply IH in R].
    + injection E as <- <- <-. apply segment_before_refl.
Qed.

Lemma read_sign_plain (l r : text) (b : bool) :
  read_sign l = (b, r) -> segment_before l r.
Proof.
  destruct l as [|c l]; simpl.
  - intros [= <- <-]. apply segment_before_refl.
  - destruct (c =? 45)%N eqn:Minus.
    { intros [= <- <-]. now apply (mark_plain c 45%N). }
    destruct (c =? 43)%N eqn:Plus; intros [= <- <-].
    + now apply (mark_plain c 43%N).
    + apply segment_before_refl.
Qed.

Lemma read_fraction_exponent_plain (neg : bool) (n : N) (l : text) d r :
  read_fraction_exponent neg n l = Some (d, r) -> segment_before l r.
Proof.
  unfold read_fraction_exponent.
  set (fraction := match l with [] => _ | _ => _ end).
  assert (F : match fraction with
              | Some (_, _, l2) => segment_before l l2
              | None => True
              end).
  { subst fraction. destruct l as [|c l]; [apply segment_before_refl|].
    destruct (c =? 46)%N eqn:Dot; [|apply segment_before_refl].
    destruct (read_digits l n) as [[m k] r'] eqn:R.
    apply read_digits_plain in R.
    destruct k; [exact I|].
    apply segment_before_trans with (m := l); [|exact R].
    now apply (mark_plain c 46%N). }
  destruct fraction as [[[m k] l2]|]; [|discriminate].
  destruct l2 as [|c l2]; [intros [= <- <-]; exact F|].
  destruct ((c =? 101) || (c =? 69))%N eqn:Exp; [|intros [= <- <-]; exact F].
  destruct (read_sign l2) as [eneg r1] eqn:S1.
  destruct (read_digits r1 0%N) as [[e ke] r2] eqn:R.
  apply read_sign_plain in S1. apply read_digits_plain in R.
  destruct ke; [discriminate|].
  intros [= <- <-].
  apply segment_before_trans with (m := c :: l2); [exact F|].
  apply segment_before_trans with (m := l2).
  - apply orb_true_iff in Exp.
    destruct Exp as [E | E];
      [now apply (mark_plain c 101%N) | now apply (mark_plain c 69%N)].
  - now apply segment_before_trans with (m := r1).
Qed.

Lemma read_number_plain (l : text) d r :
  read_number l = Some (d, r) -> segment_before l r.
Proof.
  unfold read_number.
  set (sign := match l with [] => _ | _ => _ end).
  assert (S1 : segment_before l (snd sign)).
  { subst sign. destruct l as [|c l]; [apply segment_before_refl|].
    destruct (c =? 45)%N eqn:Minus; [|apply segment_before_refl].
    now apply (mark_plain c 45%N). }
  destruct sign as [neg l1]. cbn [snd] in S1.
  destruct l1 as [|c l1]; [discriminate|].
  destruct (c =? 48)%N eqn:Zero.
  { intros E. apply read_fraction_exponent_plain in E.
    apply segment_before_trans with (m := c :: l1); [exact S1|].
    apply segment_before_trans with (m := l1); [|exact E].
    now apply (mark_plain c 48%N). }
  destruct (is_digit c) eqn:D; [|discriminate].
  destruct (read_digits (c :: l1) 0%N) as [[n k] r'] eqn:R.
  intros E. apply read_fraction_exponent_plain in E.
  apply read_digits_plain in R.
  apply segment_before_trans with (m := c :: l1); [exact S1|].
  now apply segment_before_trans with (m := r').
Qed.

Lemma expect_prefix (pat : text) :
  forall l r, expect pat l = Some r -> l = pat ++ r.
Proof.
  induction pat as [|p pat IH]; intros l r E; simpl in E.
  - now injection E as <-.
  - destruct l as [|c l]; [discriminate|].
    destruct (p =? c)%N eqn:C; [|discriminate].
    apply N.eqb_eq in C. subst c. cbn [app]. f_equal. now apply IH.
Qed.

Lemma keyword_plain (word : string) (v w : jsval) (l r : text) :
  plain (lit word) ->
  keyword word v l = Ok w r -> segment_before l r.
Proof.
  intros P. unfold keyword.
  destruct (expect (lit word) l) as [r'|] eqn:E; [|discriminate].
  intros [= _ <-]. apply expect_prefix in E. subst l.
  now apply segment_before_plain.
Qed.

Lemma letters_plain (word : text) :
  forallb (fun c => (97 <=? c) && (c <=? 122))%N word = true ->
  plain word.
Proof.
  intros F. apply Forall_forall. intros c I.
  rewrite forallb_forall in F. apply F in I.
  rewrite andb_true_iff, !N.leb_le in I.
  split; [lia|].
  unfold is_brace, lbrace, rbrace. apply orb_false_iff.
  rewrite !N.eqb_neq. lia.
Qed.

(** A string literal after its opening quote: it ends outside, and a
    literal with no brace in it has no brace at all. *)
Lemma cons_to_some (c : code_unit) x s r :
  cons_to c x = Some (s, r) -> exists s', x = Some (s', r).
Proof.
  destruct x as [[s' r']|]; simpl; [|discriminate].
  intros [= _ <-]. eauto.
Qed.

Lemma hex_digit (c : code_unit) (x : N) :
  hex_value c = Some x ->
  (c =? 34)%N = false /\ (c =? 92)%N = false /\ is_brace c = false.
Proof.
  unfold hex_value, is_digit.
  destruct ((48 <=? c) && (c <=? 57))%N eqn:D.
  { intros _. rewrite andb_true_iff, !N.leb_le in D.
    unfold is_brace, lbrace, rbrace.
    rewrite orb_false_iff, !N.eqb_neq. lia. }
  destruct ((97 <=? c) && (c <=? 102))%N eqn:L.
  { intros _. rewrite andb_true_iff, !N.leb_le in L.
    unfold is_brace, lbrace, rbrace.
    rewrite orb_false_iff, !N.eqb_neq. lia. }
  destruct ((65 <=? c) && (c <=? 70))%N eqn:U; [|discriminate].
  intros _. rewrite andb_true_iff, !N.leb_le in U.
  unfold is_brace, lbrace, rbrace.
  rewrite orb_false_iff, !N.eqb_neq. lia.
Qed.

Lemma read_string_literal :
  forall (n : nat) (l : text),
    length l <= n ->
    forall s r,
      read_string l = Some (s, r) ->
      exists p,
        l = p ++ r
        /\ lex_end Inside p = Outside
        /\ (brace_in_string Inside p = false ->
            Forall (fun c => is_brace c = false) p).
Proof.
  induction n as [|n IH]; intros l L s r E.
  { destruct l; [discriminate | simpl in L; lia]. }
  destruct l as [|c l]; [discriminate|].
  cbn [read_string] in E. simpl in L.
  destruct (c =? 34)%N eqn:Q.
  { injection E as <- <-. exists [c]. split; [reflexivity|].
    unfold lex_end. cbn [fold_left lex_step brace_in_string]. rewrite Q.
    split; [reflexivity|].
    intros B. rewrite orb_false_r in B. now repeat constructor. }
  destruct (c =? 92)%N eqn:B.
  - destruct l as [|e l]; [discriminate|]. simpl in L.
    assert (Bc : is_brace c = false).
    { apply N.eqb_eq in B. now subst c. }
    destruct (e =? 117)%N.
    + destruct l as [|a [|b [|c' [|d l4]]]]; try discriminate.
      destruct (hex_value a) eqn:Ha; [|discriminate].
      destruct (hex_value b) eqn:Hb; [|discriminate].
      destruct (hex_value c') eqn:Hc; [|discriminate].
      destruct (hex_value d) eqn:Hd; [|discriminate].
      apply cons_to_some in E. destruct E as (s' & E).
      simpl in L. apply IH in E; [|lia].
      destruct E as (p & -> & Lp & Fp).
      apply hex_digit in Ha, Hb, Hc, Hd.
      destruct Ha as (Qa & Ba & Na), Hb as (Qb & Bb & Nb),
               Hc as (Qc & Bc' & Nc), Hd as (Qd & Bd & Nd).
      exists (c :: e :: a :: b :: c' :: d :: p).
      split; [reflexivity|].
      unfold lex_end in *.
      repeat (progress (cbn [fold_left lex_step brace_in_string];
                        rewrite ?Q, ?B, ?Qa, ?Ba, ?Qb, ?Bb, ?Qc, ?Bc',
                                ?Qd, ?Bd)).
      split; [exact Lp|].
      rewrite Bc, Na, Nb, Nc, Nd. cbn [orb].
      intros H. apply orb_false_iff in H. destruct H as [He H].
      repeat (constructor; [assumption|]). now apply Fp.
    + destruct (unescape e); [|discriminate].
      apply cons_to_some in E. destruct E as (s' & E).
      apply IH in E; [|lia].
      destruct E as (p & -> & Lp & Fp).
      exists (c :: e :: p). split; [reflexivity|].
      unfold lex_end in *.
      repeat (progress (cbn [fold_left lex_step brace_in_string];
                        rewrite ?Q, ?B)).
      split; [exact Lp|].
      rewrite Bc. cbn [orb].
      intros H. apply orb_false_iff in H. destruct H as [He H].
      repeat (constructor; [assumption|]). now apply Fp.
  - destruct (c <? 32)%N; [discriminate|].
    apply cons_to_some in E. destruct E as (s' & E).
    apply IH in E; [|lia].
    destruct E as (p & -> & Lp & Fp).
    exists (c :: p). split; [reflexivity|].
    unfold lex_end in *.
    repeat (progress (cbn [fold_left lex_step brace_in_string];
                      rewrite ?Q, ?B)).
    split; [exact Lp|].
    intros H. apply orb_false_iff in H. destruct H as [Hc H].
    constructor; [exact Hc | now apply Fp].
Qed.

(** A string literal with its opening quote. *)
Lemma read_string_segment (c : code_unit) (l s r : text) :
  (c =? 34)%N = true ->
  read_string l = Some (s, r) -> segment_before (c :: l) r.
Proof.
  intros Q E. apply N.eqb_eq in Q. subst c.
  apply (read_string_literal (length l) l (Nat.le_refl _)) in E.
  destruct E as (p & -> & Lp & Fp).
  exists (34%N :: p). split; [reflexivity|]. split.
  - exact Lp.
  - cbn [brace_in_string lex_step]. change (34 =? 34)%N with true.
    cbn [orb]. intros H. apply balanced_free.
    constructor; [reflexivity | now apply Fp].
Qed.

(** What the parser reads as a value, as the members of an object up to
    its closing brace, or as the elements of an array with its closing
    bracket, is a segment. *)
Lemma parsed_segments (fuel : nat) :
  (forall l v r, value fuel l = Ok v r -> segment_before l r)
  /\ (forall l acc v r,
         members fuel l acc = Ok v r -> segment_before l (rbrace :: r))
  /\ (forall l acc v r,
         elements fuel l acc = Ok v r -> segment_before l r).
Proof.
  induction fuel as [|fuel (IHv & IHm & IHe)];
    [repeat split; intros; discriminate|].
  assert (Bracket : forall c r, (c =? 93)%N = true ->
                                segment_before (c :: r) r).
  { intros c r E. now apply (mark_plain c 93%N). }
  repeat split.
  - intros l v r E. cbn [value] in E.
    apply segment_before_trans with (m := skip_ws l);
      [apply skip_ws_plain|].
    destruct (skip_ws l) as [|c r0]; [discriminate|].
    destruct (c =? 123)%N eqn:B.
    { apply N.eqb_eq in B. subst c.
      assert (Object : segment_before r0 (rbrace :: r)).
      { pose proof (skip_ws_plain r0) as W.
        destruct (skip_ws r0) as [|c' r']; [discriminate|].
        destruct (c' =? 125)%N eqn:C.
        - injection E as _ <-. apply N.eqb_eq in C. now subst c'.
        - now apply IHm in E. }
      destruct Object as (inner & -> & S).
      exists (lbrace :: inner ++ [rbrace]). split.
      - cbn [app]. now rewrite <- app_assoc.
      - now apply segment_object. }
    destruct (c =? 91)%N eqn:A.
    { apply segment_before_trans with (m := r0);
        [now apply (mark_plain c 91%N)|].
      pose proof (skip_ws_plain r0) as W.
      destruct (skip_ws r0) as [|c' r']; [discriminate|].
      destruct (c' =? 93)%N eqn:C.
      - injection E as _ <-.
        apply segment_before_trans with (m := c' :: r'); [exact W|].
        now apply Bracket.
      - now apply IHe in E. }
    destruct (c =? 34)%N eqn:Q.
    { destruct (read_string r0) as [[s r']|] eqn:R; [|discriminate].
      injection E as _ <-. now apply (read_string_segment c r0 s). }
    assert (K : forall word w,
               forallb (fun c => (97 <=? c) && (c <=? 122))%N (lit word)
               = true ->
               keyword word w (c :: r0) = Ok v r ->
               segment_before (c :: r0) r).
    { intros word w F. apply keyword_plain. now apply letters_plain. }
    destruct (c =? 116)%N; [now apply K in E|].
    destruct (c =? 102)%N; [now apply K in E|].
    destruct (c =? 110)%N; [now apply K in E|].
    destruct (read_number (c :: r0)) as [[d r']|] eqn:R; [|discriminate].
    injection E as _ <-. now apply read_number_plain in R.
  - intros l acc v r E. cbn [members] in E.
    apply segment_before_trans with (m := skip_ws l);
      [apply skip_ws_plain|].
    destruct (skip_ws l) as [|c r0]; [discriminate|].
    destruct (c =? 34)%N eqn:Q; [|discriminate].
    destruct (read_string r0) as [[k r1]|] eqn:R; [|discriminate].
    apply segment_before_trans with (m := r1);
      [now apply (read_string_segment c r0 k)|].
    apply segment_before_trans with (m := skip_ws r1);
      [apply skip_ws_plain|].
    destruct (skip_ws r1) as [|c1 r2]; [discriminate|].
    destruct (c1 =? 58)%N eqn:Colon; [|discriminate].
    apply segment_before_trans with (m := r2);
      [now apply (mark_plain c1 58%N)|].
    destruct (value fuel r2) as [w r3| |] eqn:V; try discriminate.
    apply segment_before_trans with (m := r3); [now apply IHv in V|].
    apply segment_before_trans with (m := skip_ws r3);
      [apply skip_ws_plain|].
    destruct (skip_ws r3) as [|c2 r4]; [discriminate|].
    destruct (c2 =? 44)%N eqn:Comma.
    { apply segment_before_trans with (m := r4);
        [now apply (mark_plain c2 44%N) | now apply IHm in E]. }
    destruct (c2 =? 125)%N eqn:Close; [|discriminate].
    injection E as _ <-. apply N.eqb_eq in Close. subst c2.
    apply segment_before_refl.
  - intros l acc v r E. cbn [elements] in E.
    destruct (value fuel l) as [w r1| |] eqn:V; try discriminate.
    apply segment_before_trans with (m := r1); [now apply IHv in V|].
    apply segment_before_trans with (m := skip_ws r1);
      [apply skip_ws_plain|].
    destruct (skip_ws r1) as [|c r2]; [discriminate|].
    destruct (c =? 44)%N eqn:Comma.
    { apply segment_before_trans with (m := r2);
        [now apply (mark_plain c 44%N) | now apply IHe in E]. }
    destruct (c =? 93)%N eqn:Close; [|discriminate].
    injection E as _ <-. now apply Bracket.
Qed.

Lemma skip_ws_all (l : text) :
  skip_ws l = [] -> Forall (fun c => is_ws c = true) l.
Proof.
  induction l as [|c l IH]; intros E; [constructor|].
  cbn [skip_ws] in E. destruct (is_ws c) eqn:W; [|discriminate].
  constructor; [exact W | now apply IH].
Qed.

(** A text that opens with a brace, ends with a brace and parses is an
    object text: a segment between its two braces. *)
Lemma parse_object_text (s first_rest last_init : text) (v : jsval) :
  parse s = Some v ->
  s = lbrace :: first_rest ->
  s = last_init ++ [rbrace] ->
  exists inner, s = lbrace :: inner ++ [rbrace] /\ segment inner.
Proof.
  unfold parse. intros P Ef El.
  destruct (value (2 * length s + 2) s) as [w rest| |] eqn:V;
    try discriminate.
  destruct (skip_ws rest) eqn:W; [|discriminate].
  replace (2 * length s + 2) with (S (2 * length s + 1)) in V by lia.
  rewrite Ef in V at 2. cbn [value skip_ws] in V.
  change (is_ws lbrace) with false in V. cbv iota in V.
  change (lbrace =? 123)%N with true in V. cbv iota in V.
  assert (Object : segment_before first_rest (rbrace :: rest)).
  { pose proof (skip_ws_plain first_rest) as Ws.
    destruct (skip_ws first_rest) as [|c' r']; [discriminate|].
    destruct (c' =? 125)%N eqn:C.
    - injection V as _ <-. apply N.eqb_eq in C. now subst c'.
    - now apply (proj1 (proj2 (parsed_segments _))) in V. }
  destruct Object as (inner & E & S). exists inner. split; [|exact S].
  assert (R : rest = []).
  { destruct (list_eq_dec N.eq_dec rest []) as [Z | NZ]; [exact Z|].
    exfalso. destruct (exists_last NZ) as (init & x & Ex).
    apply skip_ws_all in W. rewrite Ex in W.
    apply Forall_app in W. destruct W as [_ W].
    inversion W as [|? ? Wx _]; subst x0 l.
    assert (Eq : last_init ++ [rbrace]
                 = (lbrace :: inner ++ rbrace :: init) ++ [x]).
    { rewrite <- El, Ef, E, Ex. cbn [app]. f_equal.
      rewrite <- app_assoc. reflexivity. }
    apply app_inj_tail in Eq. destruct Eq as [_ <-]. discriminate Wx. }
  now rewrite Ef, E, R.
Qed.

(** The text of an object that parses, with no brace inside a string
    literal, ends at the close that matches its opening brace. *)
Lemma parse_depth_matched (s first_rest last_init : text) (v : jsval) :
  parse s = Some v ->
  s = lbrace :: first_rest ->
  s = last_init ++ [rbrace] ->
  brace_in_string Outside s = false ->
  depth_matched s.
Proof.
  intros P Ef El B.
  destruct (parse_object_text s first_rest last_init v P Ef El)
    as (inner & E & [L Bal]).
  rewrite E in B |- *.
  change (lbrace :: inner ++ [rbrace])
    with ([lbrace] ++ inner ++ [rbrace]) in B.
  rewrite !brace_in_string_app in B.
  change (lex_end Outside [lbrace]) with Outside in B.
  apply orb_false_iff in B. destruct B as [_ B].
  apply orb_false_iff in B. destruct B as [B _].
  now apply object_depth_matched, Bal.
Qed.

End JSONBraces.

(* ================================================================= *)
(** * The claims *)

(** C1.  Balanced-brace extraction tries its candidates in the order of
    their opening brace: for every string and every behaviour of
    [JSON.parse], [extractJsonFromText] returns the parse of the first
    depth-matched candidate that parses, [null] when none does; a candidate
    that fails to parse and an opening brace that never re-balances are
    passed over.  On [{bad json} then {"ok":true}] the candidates are
    [{bad json}], which does not parse, and [{"ok":true}], and the result is
    the object [{ok: true}]. *)
Theorem extractJsonFromText_first_candidate :
  (forall (JSON_parse : text -> option jsval) (s : text) (h : heap),
      fst (extractJsonFromText JSON_parse (VString s) h)
      = Normal (first_parsed JSON_parse (candidates s)))
  /\ candidates Examples.bad_then_ok
     = [json_lit "{bad json}"; json_lit "{'ok':true}"]
  /\ JSON.parse (json_lit "{bad json}") = None
  /\ (forall h : heap,
        fst (extractJsonFromText JSON.parse (VString Examples.bad_then_ok) h)
        = Normal (VObject [(lit "ok", VBool true)])).
Proof.
  repeat split.
  - intros JSON_parse s h. now rewrite extractJsonFromText_run.
  - intros h. rewrite extractJsonFromText_run. cbn [fst]. f_equal.
Qed.

(** C2.  Fenced-block extraction examines the fenced blocks in order of
    appearance.  A fenced block opens with three backticks, an optional
    label and a line feed, and its content runs to the next three
    backticks; the blocks of a text in order are the block that opens
    leftmost and then the blocks of the text after its closing fence; every
    text has such a list of blocks.  For every string and every behaviour
    of [JSON.parse], [extractJsonFromFences] returns what the first block
    that yields anything yields, where a block yields the direct parse of
    its trimmed content or, failing that, what brace scanning of the
    trimmed content recovers: blocks that yield nothing are passed over,
    and the result is [null] when no block yields anything.  On a text with
    a block that holds no JSON and then a block that holds an object among
    other words, the result is that object. *)
Theorem extractJsonFromFences_first_block :
  (forall s : text, exists blocks, blocks_in_order s blocks)
  /\ (forall (JSON_parse : text -> option jsval) (s : text)
             (blocks : list text) (h : heap),
        blocks_in_order s blocks ->
        fst (extractJsonFromFences JSON_parse (VString s) h)
        = Normal (first_recovered JSON_parse blocks))
  /\ (forall (JSON_parse : text -> option jsval) (s : text)
             (skipped : list text) (block : text) (later : list text)
             (v : jsval) (h : heap),
        blocks_in_order s (skipped ++ block :: later) ->
        Forall (fun b => recover JSON_parse b = None) skipped ->
        recover JSON_parse block = Some v ->
        fst (extractJsonFromFences JSON_parse (VString s) h) = Normal v)
  /\ (forall (JSON_parse : text -> option jsval) (s : text)
             (blocks : list text) (h : heap),
        blocks_in_order s blocks ->
        Forall (fun b => recover JSON_parse b = None) blocks ->
        fst (extractJsonFromFences JSON_parse (VString s) h) = Normal VNull)
  /\ blocks_in_order Examples.words_then_object
       [lit "not json" ++ LF; json_lit "result: {'x':1} ok" ++ LF]
  /\ (forall h : heap,
        fst (extractJsonFromFences JSON.parse
               (VString Examples.words_then_object) h)
        = Normal (VObject [(lit "x", number 1)])).
Proof.
  assert (Main :
    forall JSON_parse s blocks h,
      blocks_in_order s blocks ->
      fst (extractJsonFromFences JSON_parse (VString s) h)
      = Normal (first_recovered JSON_parse blocks)).
  { intros JSON_parse s blocks h B.
    apply blocks_in_order_fence_blocks in B. subst blocks.
    destruct (extractJsonFromFences_run JSON_parse (VString s) h) as (g & ->).
    reflexivity. }
  split; [|split; [|split; [|split; [|split]]]].
  - intros s. exists (fence_blocks s). apply fence_blocks_in_order.
  - exact Main.
  - intros JSON_parse s skipped block later v h B F R.
    rewrite (Main _ _ _ _ B). f_equal.
    now apply first_recovered_skip.
  - intros JSON_parse s blocks h B F.
    rewrite (Main _ _ _ _ B). f_equal.
    apply first_recovered_none. now apply Forall_forall.
  - exact (fence_blocks_in_order Examples.words_then_object).
  - intros h.
    rewrite (Main _ _ _ h (fence_blocks_in_order Examples.words_then_object)).
    reflexivity.
Qed.

Lemma extractJsonFromFences_first_block_witness :
  blocks_in_order Examples.words_then_object
    ([lit "not json" ++ LF] ++ (json_lit "result: {'x':1} ok" ++ LF) :: [])
  /\ Forall (fun b => recover JSON.parse b = None) [lit "not json" ++ LF]
  /\ recover JSON.parse (json_lit "result: {'x':1} ok" ++ LF)
     = Some (VObject [(lit "x", number 1)])
  /\ fst (extractJsonFromFences JSON.parse
            (VString Examples.words_then_object) [])
     = Normal (VObject [(lit "x", number 1)]).
Proof.
  assert (B : blocks_in_order Examples.words_then_object
                ([lit "not json" ++ LF]
                 ++ (json_lit "result: {'x':1} ok" ++ LF) :: []))
    by exact (fence_blocks_in_order Examples.words_then_object).
  assert (F : Forall (fun b => recover JSON.parse b = None)
                [lit "not json" ++ LF])
    by (constructor; [vm_compute; reflexivity | constructor]).
  assert (R : recover JSON.parse (json_lit "result: {'x':1} ok" ++ LF)
              = Some (VObject [(lit "x", number 1)]))
    by (vm_compute; reflexivity).
  split; [exact B|]. split; [exact F|]. split; [exact R|].
  exact (proj1 (proj2 (proj2 extractJsonFromFences_first_block))
           JSON.parse Examples.words_then_object _ _ _ _ [] B F R).
Defined.

(** C3, as the code has it.  In the combined path of [analyzeCode] the
    fenced-block pass runs before brace scanning of the whole text: when a
    fenced block of the text holds a valid JSON object and no fenced block
    before it yields anything, the value handed to [setAnalysisResult] is
    that object, whatever brace scanning of the whole text would find.  So
    it is for the first fenced block of a text, whatever the prose before
    and after it holds.  On a text whose prose holds the object [{"p":0}]
    before a fenced [{"x":1}], brace scanning alone gives [{p: 0}] and the
    combined path gives [{x: 1}]. *)
Theorem analyzeCode_fences_before_braces :
  (forall (JSON_parse : text -> option jsval) (s : text) (h : heap)
          (skipped : list text) (block : text) (later : list text)
          (props : list (text * jsval)),
      blocks_in_order s (skipped ++ block :: later) ->
      Forall (fun b => recover JSON_parse b = None) skipped ->
      JSON_parse (trim block) = Some (VObject props) ->
      fst (analyzeCode_result JSON_parse (VString s) h)
      = Normal (VObject props))
  /\ (forall (JSON_parse : text -> option jsval)
             (pre label body post : text) (props : list (text * jsval))
             (h : heap),
        ~ In backtick pre ->
        is_fence_label label ->
        ~ In backtick body ->
        JSON_parse (trim body) = Some (VObject props) ->
        fst (analyzeCode_result JSON_parse
               (VString (pre ++ fence ++ label ++ LF ++ body ++ fence
                         ++ post)) h)
        = Normal (VObject props))
  /\ (forall h : heap,
        fst (extractJsonFromText JSON.parse
               (VString Examples.prose_and_fence) h)
        = Normal (VObject [(lit "p", number 0)])
        /\ fst (analyzeCode_result JSON.parse
                  (VString Examples.prose_and_fence) h)
           = Normal (VObject [(lit "x", number 1)])).
Proof.
  assert (General :
    forall JSON_parse s h skipped block later props,
      fence_blocks s = skipped ++ block :: later ->
      Forall (fun b => recover JSON_parse b = None) skipped ->
      JSON_parse (trim block) = Some (VObject props) ->
      fst (analyzeCode_result JSON_parse (VString s) h)
      = Normal (VObject props)).
  { intros JSON_parse s h skipped block later props B F P.
    destruct (analyzeCode_result_run JSON_parse (VString s) h) as (g & ->).
    cbn [fst]. f_equal. unfold analysis_value. cbn [typeof].
    change (("string" =? "object")%string) with false.
    change (("string" =? "string")%string) with true.
    cbn [fences_result]. rewrite B.
    rewrite (first_recovered_skip JSON_parse skipped block later
               (VObject props) F).
    - reflexivity.
    - unfold recover. now rewrite P. }
  split; [|split].
  - intros JSON_parse s h skipped block later props B.
    apply (General JSON_parse s h skipped block later).
    now apply blocks_in_order_fence_blocks.
  - intros JSON_parse pre label body post props h Np L Nb P.
    apply (General JSON_parse _ h [] body (fence_blocks post));
      [|constructor | exact P].
    rewrite fence_blocks_after_prose by exact Np.
    now apply fence_blocks_labelled.
  - intros h. split.
    + rewrite extractJsonFromText_run. reflexivity.
    + apply (General JSON.parse _ h [] (json_lit "{'x':1}" ++ LF) []).
      * reflexivity.
      * constructor.
      * reflexivity.
Qed.

Lemma analyzeCode_fences_before_braces_witness :
  blocks_in_order Examples.prose_and_fence
    ([] ++ (json_lit "{'x':1}" ++ LF) :: [])
  /\ Forall (fun b => recover JSON.parse b = None) []
  /\ JSON.parse (trim (json_lit "{'x':1}" ++ LF))
     = Some (VObject [(lit "x", number 1)])
  /\ fst (analyzeCode_result JSON.parse (VString Examples.prose_and_fence) [])
     = Normal (VObject [(lit "x", number 1)]).
Proof.
  assert (B : blocks_in_order Examples.prose_and_fence
                ([] ++ (json_lit "{'x':1}" ++ LF) :: []))
    by exact (fence_blocks_in_order Examples.prose_and_fence).
  assert (P : JSON.parse (trim (json_lit "{'x':1}" ++ LF))
              = Some (VObject [(lit "x", number 1)]))
    by (vm_compute; reflexivity).
  split; [exact B|]. split; [constructor|]. split; [exact P|].
  exact (proj1 analyzeCode_fences_before_braces JSON.parse
           Examples.prose_and_fence [] [] _ [] _ B (Forall_nil _) P).
Defined.

(** C3 as stated fails: the text holds a fenced block whose content is the
    valid JSON object [{"x":1}], but the fenced block before it holds
    [null], which parses; [extractJsonFromFences] returns that [null], the
    caller takes it for nothing found, and the combined path hands over the
    object [{p: 0}] that brace scanning finds in the prose. *)
Lemma fenced_object_not_returned_counterexample :
  blocks_in_order Examples.prose_null_fence
    [lit "null" ++ LF; json_lit "{'x':1}" ++ LF]
  /\ JSON.parse (trim (json_lit "{'x':1}" ++ LF))
     = Some (VObject [(lit "x", number 1)])
  /\ fst (extractJsonFromFences JSON.parse
            (VString Examples.prose_null_fence) [])
     = Normal VNull
  /\ fst (analyzeCode_result JSON.parse (VString Examples.prose_null_fence) [])
     = Normal (VObject [(lit "p", number 0)])
  /\ fst (analyzeCode_result JSON.parse (VString Examples.prose_null_fence) [])
     <> Normal (VObject [(lit "x", number 1)]).
Proof.
  split; [exact (fence_blocks_in_order Examples.prose_null_fence)|].
  split; [vm_compute; reflexivity|].
  split; [vm_compute; reflexivity|].
  split; [vm_compute; reflexivity|].
  vm_compute. discriminate.
Qed.

(** C4, as the code has it.  The close of a candidate is found by depth
    counting, and every brace of the text counts.  For a text that is a
    JSON object, from its opening brace to its closing brace, with no brace
    inside a string literal, the depth first returns to zero at the last
    character, and extraction returns the parse of the whole text; so it
    does, whatever [JSON.parse] is, for every text that parses and whose
    depth first returns to zero at its end.  On [{"a": {"b": 2}}] the
    result is the complete nested object: the candidates are the whole text
    and the inner object, and the text up to the first closing brace, which
    is no candidate, does not parse.  Whatever [extractJsonFromText]
    returns, other than [null], is the parse of a substring that ends at
    the close matching its opening brace. *)
Theorem extractJsonFromText_depth_matched :
  (forall (s first_rest last_init : text) (v : jsval) (h : heap),
      s = lbrace :: first_rest ->
      s = last_init ++ [rbrace] ->
      JSON.parse s = Some v ->
      brace_in_string Outside s = false ->
      depth_matched s
      /\ fst (extractJsonFromText JSON.parse (VString s) h) = Normal v)
  /\ (forall (JSON_parse : text -> option jsval) (s : text) (v : jsval)
             (h : heap),
        depth_matched s ->
        JSON_parse s = Some v ->
        fst (extractJsonFromText JSON_parse (VString s) h) = Normal v)
  /\ (forall h : heap,
        fst (extractJsonFromText JSON.parse (VString Examples.nested) h)
        = Normal (VObject [(lit "a", VObject [(lit "b", number 2)])]))
  /\ candidates Examples.nested = [Examples.nested; json_lit "{'b': 2}"]
  /\ JSON.parse (json_lit "{'a': {'b': 2}") = None
  /\ (forall (JSON_parse : text -> option jsval) (s : text) (h : heap)
             (v : jsval),
        fst (extractJsonFromText JSON_parse (VString s) h) = Normal v ->
        v <> VNull ->
        exists pre cand post,
          s = pre ++ cand ++ post
          /\ depth_matched cand
          /\ JSON_parse cand = Some v).
Proof.
  assert (Whole :
    forall JSON_parse s v h,
      depth_matched s ->
      JSON_parse s = Some v ->
      fst (extractJsonFromText JSON_parse (VString s) h) = Normal v).
  { intros JSON_parse s v h M P.
    rewrite extractJsonFromText_run. cbn [fst text_result]. f_equal.
    unfold brace_scan.
    destruct (candidates_head s [] M) as (more & C).
    rewrite app_nil_r in C. rewrite C.
    cbn [first_parsed]. now rewrite P. }
  split; [|split; [|split; [|split; [|split]]]].
  - intros s first_rest last_init v h Ef El P B.
    assert (M : depth_matched s)
      by exact (JSONBraces.parse_depth_matched s first_rest last_init v
                  P Ef El B).
    split; [exact M | now apply Whole].
  - exact Whole.
  - intros h. rewrite extractJsonFromText_run. reflexivity.
  - reflexivity.
  - reflexivity.
  - intros JSON_parse s h v E Nv.
    rewrite extractJsonFromText_run in E. cbn [fst text_result] in E.
    injection E as E. unfold brace_scan in E.
    destruct (first_parsed_some JSON_parse _ _ E Nv) as (cand & I & P).
    destruct (candidates_depth_matched _ _ I) as (M & pre & post & ->).
    now exists pre, cand, post.
Qed.

Lemma extractJsonFromText_depth_matched_witness :
  Examples.nested = lbrace :: json_lit "'a': {'b': 2}}"
  /\ Examples.nested = json_lit "{'a': {'b': 2}" ++ [rbrace]
  /\ JSON.parse Examples.nested
     = Some (VObject [(lit "a", VObject [(lit "b", number 2)])])
  /\ brace_in_string Outside Examples.nested = false
  /\ depth_matched Examples.nested
  /\ fst (extractJsonFromText JSON.parse (VString Examples.nested) [])
     = Normal (VObject [(lit "a", VObject [(lit "b", number 2)])]).
Proof.
  assert (Ef : Examples.nested = lbrace :: json_lit "'a': {'b': 2}}")
    by reflexivity.
  assert (El : Examples.nested = json_lit "{'a': {'b': 2}" ++ [rbrace])
    by reflexivity.
  assert (P : JSON.parse Examples.nested
              = Some (VObject [(lit "a", VObject [(lit "b", number 2)])]))
    by (vm_compute; reflexivity).
  assert (B : brace_in_string Outside Examples.nested = false)
    by (vm_compute; reflexivity).
  split; [exact Ef|]. split; [exact El|]. split; [exact P|].
  split; [exact B|].
  exact (proj1 extractJsonFromText_depth_matched Examples.nested _ _ _ []
           Ef El P B).
Defined.

(** C4 as stated fails: the text [{"a": {"b": "}"}}] is a nested JSON
    object, but the string of the inner object holds a closing brace, which
    depth counting counts: the candidate of the outer object is cut at the
    closing brace of the inner object and does not parse, the candidate of
    the inner object is cut at the brace inside the string, and
    [extractJsonFromText] returns [null]. *)
Lemma nested_truncated_counterexample :
  JSON.parse Examples.nested_brace_in_string
  = Some (VObject [(lit "a", VObject [(lit "b", VString (lit "}"))])])
  /\ candidates Examples.nested_brace_in_string
     = [json_lit "{'a': {'b': '}'}"; json_lit "{'b': '}"]
  /\ JSON.parse (json_lit "{'a': {'b': '}'}") = None
  /\ JSON.parse (json_lit "{'b': '}") = None
  /\ brace_in_string Outside Examples.nested_brace_in_string = true
  /\ fst (extractJsonFromText JSON.parse
            (VString Examples.nested_brace_in_string) [])
     = Normal VNull.
Proof.
  repeat split; vm_compute; reflexivity.
Qed.

(** ** Texts with no opening brace *)

Lemma first_recovered_no_brace (JSON_parse : text -> option jsval)
      (blocks : list text) :
  (forall b, In b blocks -> ~ In lbrace b) ->
  first_recovered JSON_parse blocks
  = first_parsed JSON_parse (map trim blocks).
Proof.
  induction blocks as [|b blocks IH]; intros Nb; simpl; [reflexivity|].
  unfold recover, brace_scan.
  rewrite (candidates_no_brace (trim b)).
  - simpl. destruct (JSON_parse (trim b)); [reflexivity|].
    apply IH. intros b' I. apply Nb. now right.
  - intros I. apply trim_incl in I. revert I. apply Nb. now left.
Qed.

Lemma fence_blocks_no_brace (s : text) :
  ~ In lbrace s -> forall b, In b (fence_blocks s) -> ~ In lbrace b.
Proof.
  intros Ns b I Ib. apply Ns.
  exact (fence_blocks_from_incl s 0 b I _ Ib).
Qed.

(** C5, as the code has it.  For a text with no opening brace,
    [extractJsonFromText] returns [null], and [extractJsonFromFences]
    returns the direct parse of the first fenced block whose trimmed content
    parses as JSON, [null] when there is none; that value is never an
    object. *)
Theorem no_brace_extraction :
  (forall (JSON_parse : text -> option jsval) (s : text) (h : heap),
      ~ In lbrace s ->
      fst (extractJsonFromText JSON_parse (VString s) h) = Normal VNull
      /\ fst (extractJsonFromFences JSON_parse (VString s) h)
         = Normal (first_parsed JSON_parse (map trim (fence_blocks s))))
  /\ (forall (s : text) (props : list (text * jsval)),
        ~ In lbrace s ->
        first_parsed JSON.parse (map trim (fence_blocks s))
        <> VObject props).
Proof.
  split.
  - intros JSON_parse s h Ns. split.
    + rewrite extractJsonFromText_run. cbn [fst text_result].
      unfold brace_scan. now rewrite candidates_no_brace.
    + destruct (extractJsonFromFences_run JSON_parse (VString s) h)
        as (g & ->).
      cbn [fst fences_result]. f_equal.
      apply first_recovered_no_brace. now apply fence_blocks_no_brace.
  - intros s props Ns E.
    destruct (first_parsed_some JSON.parse _ _ E ltac:(discriminate))
      as (t & I & P).
    apply JSONObjects.parse_object_brace in P.
    apply in_map_iff in I. destruct I as (b & <- & I).
    apply trim_incl in P. revert P.
    now apply (fence_blocks_no_brace s Ns).
Qed.

Lemma fenced_array_no_brace : ~ In lbrace Examples.fenced_array.
Proof.
  intros I. vm_compute in I.
  repeat (destruct I as [I | I]; [discriminate|]). exact I.
Defined.

Lemma no_brace_extraction_witness :
  fst (extractJsonFromText JSON.parse (VString Examples.fenced_array) [])
  = Normal VNull
  /\ fst (extractJsonFromFences JSON.parse (VString Examples.fenced_array) [])
     = Normal
         (first_parsed JSON.parse
            (map trim (fence_blocks Examples.fenced_array)))
  /\ first_parsed JSON.parse (map trim (fence_blocks Examples.fenced_array))
     <> VObject [].
Proof.
  split; [|split].
  - exact (proj1 (proj1 no_brace_extraction JSON.parse Examples.fenced_array
                    [] fenced_array_no_brace)).
  - exact (proj2 (proj1 no_brace_extraction JSON.parse Examples.fenced_array
                    [] fenced_array_no_brace)).
  - exact (proj2 no_brace_extraction Examples.fenced_array []
             fenced_array_no_brace).
Defined.

(** C5 as stated fails: the text of a fenced [[1]] has no opening brace,
    yet [extractJsonFromFences] returns the array, not [null], and the
    combined path hands the array to [setAnalysisResult]. *)
Lemma no_brace_not_found_counterexample :
  ~ In lbrace Examples.fenced_array
  /\ fst (extractJsonFromFences JSON.parse (VString Examples.fenced_array) [])
     = Normal (VArray [number 1])
  /\ fst (extractJsonFromFences JSON.parse (VString Examples.fenced_array) [])
     <> Normal VNull
  /\ fst (analyzeCode_result JSON.parse (VString Examples.fenced_array) [])
     = Normal (VArray [number 1]).
Proof.
  split; [exact fenced_array_no_brace|].
  split; [vm_compute; reflexivity|].
  split; [vm_compute; discriminate|].
  vm_compute; reflexivity.
Qed.

(** C6.  Extraction never throws: for every string input and every
    behaviour of [JSON.parse], both helpers end normally with a value (no
    exception escapes, and the loops end); when no candidate, or no block,
    yields anything the value is [null]; and when both helpers return
    [null] the caller builds the fallback object that carries the raw text
    as one informational suggestion. *)
Theorem extraction_never_throws :
  forall (JSON_parse : text -> option jsval) (s : text) (h : heap),
    (exists v h', extractJsonFromText JSON_parse (VString s) h
                  = (Normal v, h'))
    /\ (exists v h', extractJsonFromFences JSON_parse (VString s) h
                     = (Normal v, h'))
    /\ ((forall c, In c (candidates s) -> JSON_parse c = None) ->
        fst (extractJsonFromText JSON_parse (VString s) h) = Normal VNull)
    /\ ((forall b, In b (fence_blocks s) -> recover JSON_parse b = None) ->
        fst (extractJsonFromFences JSON_parse (VString s) h) = Normal VNull)
    /\ (fst (extractJsonFromFences JSON_parse (VString s) h) = Normal VNull ->
        fst (extractJsonFromText JSON_parse (VString s) h) = Normal VNull ->
        fst (analyzeCode_result JSON_parse (VString s) h)
        = Normal (fallback (VString s))).
Proof.
  intros JSON_parse s h.
  destruct (extractJsonFromFences_run JSON_parse (VString s) h) as (g & F).
  destruct (analyzeCode_result_run JSON_parse (VString s) h) as (g' & A).
  rewrite F, A, extractJsonFromText_run. cbn [fst].
  split; [eauto|]. split; [eauto|]. split; [|split].
  - intros N. cbn [text_result]. unfold brace_scan.
    now rewrite first_parsed_none.
  - intros N. cbn [fences_result]. now rewrite first_recovered_none.
  - intros [= Ef] [= Et]. unfold analysis_value. cbn [typeof].
    change (("string" =? "object")%string) with false.
    change (("string" =? "string")%string) with true.
    cbn [fences_result text_result] in *. now rewrite Ef, Et.
Qed.

Lemma extraction_never_throws_witness :
  fst (extractJsonFromText JSON.parse (VString Examples.no_json) [])
  = Normal VNull
  /\ fst (extractJsonFromFences JSON.parse (VString Examples.no_json) [])
     = Normal VNull
  /\ fst (analyzeCode_result JSON.parse (VString Examples.no_json) [])
     = Normal (fallback (VString Examples.no_json)).
Proof.
  pose proof (extraction_never_throws JSON.parse Examples.no_json [])
    as (_ & _ & T & F & A).
  assert (Nt : forall c, In c (candidates Examples.no_json) ->
                         JSON.parse c = None)
    by (intros c I; vm_compute in I; contradiction).
  assert (Nf : forall b, In b (fence_blocks Examples.no_json) ->
                         recover JSON.parse b = None)
    by (intros b I; vm_compute in I; contradiction).
  split; [exact (T Nt)|]. split; [exact (F Nf)|].
  exact (A (F Nf) (T Nt)).
Defined.

(** C7.  For the empty string and for any value that is not a string, both
    helpers return [null] at once: the heap is left as it was (no [starts]
    array, no RegExp), whatever [JSON.parse] would do. *)
Theorem extraction_guard :
  forall (JSON_parse : text -> option jsval) (v : jsval) (h : heap),
    v = VString [] \/ typeof v <> "string"%string ->
    extractJsonFromText JSON_parse v h = (Normal VNull, h)
    /\ extractJsonFromFences JSON_parse v h = (Normal VNull, h).
Proof.
  intros JSON_parse v h G. now apply guard_run.
Qed.

Lemma extraction_guard_witness :
  (VString [] = VString [] \/ typeof (VString []) <> "string"%string)
  /\ extractJsonFromText JSON.parse (VString []) [RegExp 3]
     = (Normal VNull, [RegExp 3])
  /\ extractJsonFromFences JSON.parse (VString []) [RegExp 3]
     = (Normal VNull, [RegExp 3]).
Proof.
  split; [left; reflexivity|].
  exact (extraction_guard JSON.parse (VString []) [RegExp 3]
           (or_introl eq_refl)).
Defined.

(** C8.  Extraction is deterministic and free of side effects: the value
    either helper returns does not depend on the heap it starts from, every
    object already on the heap is left as it was (a call only adds the
    objects it creates itself), and a second call on the same input, run in
    the state the first one left, returns the same value. *)
Theorem extraction_deterministic :
  forall (JSON_parse : text -> option jsval) (v : jsval) (h h' : heap),
    (fst (extractJsonFromText JSON_parse v h)
     = fst (extractJsonFromText JSON_parse v h')
     /\ (exists g, snd (extractJsonFromText JSON_parse v h) = h ++ g)
     /\ fst (extractJsonFromText JSON_parse v
               (snd (extractJsonFromText JSON_parse v h)))
        = fst (extractJsonFromText JSON_parse v h))
    /\ (fst (extractJsonFromFences JSON_parse v h)
        = fst (extractJsonFromFences JSON_parse v h')
        /\ (exists g, snd (extractJsonFromFences JSON_parse v h) = h ++ g)
        /\ fst (extractJsonFromFences JSON_parse v
                  (snd (extractJsonFromFences JSON_parse v h)))
           = fst (extractJsonFromFences JSON_parse v h)).
Proof.
  intros JSON_parse v h h'. split.
  - rewrite !extractJsonFromText_run. cbn [fst snd]. eauto.
  - destruct (extractJsonFromFences_run JSON_parse v h) as (g & ->).
    destruct (extractJsonFromFences_run JSON_parse v h') as (g' & ->).
    cbn [fst snd].
    destruct (extractJsonFromFences_run JSON_parse v (h ++ g)) as (g2 & ->).
    cbn [fst]. eauto.
Qed.

(** C9.  Depth counting counts the braces inside JSON string literals too.
    The text of an object whose property [a] is the one-character string
    made of a closing brace is valid JSON, but its only candidate is cut at
    the brace inside the string, before the closing quote, and does not
    parse, so [extractJsonFromText] returns [null]. *)
Theorem brace_inside_string_not_found :
  JSON.parse Examples.brace_in_string
  = Some (VObject [(lit "a", VString (lit "}"))])
  /\ candidates Examples.brace_in_string = [json_lit "{'a':'}"]
  /\ JSON.parse (json_lit "{'a':'}") = None
  /\ (forall h : heap,
        fst (extractJsonFromText JSON.parse
               (VString Examples.brace_in_string) h)
        = Normal VNull).
Proof.
  split; [reflexivity|]. split; [reflexivity|]. split; [reflexivity|].
  intros h. rewrite extractJsonFromText_run. reflexivity.
Qed.

(** C10.  In [extractJsonFromFences] the label of a fence is optional and
    matched without regard to case ([json], [python], [py], [txt] or none),
    and when the whole trimmed content of the first block parses as JSON the
    parsed value is returned whatever it is, an object or not, without a
    look at later blocks.  When that value is falsy, as [null] and [false]
    are, the combined path goes on as if nothing had been found: it hands
    over what brace scanning of the whole text finds, else the fallback. *)
Theorem extractJsonFromFences_any_value :
  (forall (JSON_parse : text -> option jsval) (label body post : text)
          (v : jsval) (h : heap),
      is_fence_label label ->
      ~ In backtick body ->
      JSON_parse (trim body) = Some v ->
      fst (extractJsonFromFences JSON_parse
             (VString (fence ++ label ++ LF ++ body ++ fence ++ post)) h)
      = Normal v)
  /\ (forall (JSON_parse : text -> option jsval) (s : text) (h : heap)
             (block : text) (later : list text) (v : jsval),
        fence_blocks s = block :: later ->
        JSON_parse (trim block) = Some v ->
        fst (extractJsonFromFences JSON_parse (VString s) h) = Normal v
        /\ (truthy v = false ->
            fst (analyzeCode_result JSON_parse (VString s) h)
            = Normal (if truthy (brace_scan JSON_parse s)
                      then brace_scan JSON_parse s
                      else fallback (VString s))))
  /\ (forall h : heap,
        fst (extractJsonFromFences JSON.parse
               (VString Examples.null_then_object) h) = Normal VNull
        /\ fst (extractJsonFromFences JSON.parse
                  (VString Examples.false_then_object) h)
           = Normal (VBool false)
        /\ fst (extractJsonFromFences JSON.parse
                  (VString Examples.fenced_array) h)
           = Normal (VArray [number 1])).
Proof.
  assert (First :
    forall JSON_parse s h block later v,
      fence_blocks s = block :: later ->
      JSON_parse (trim block) = Some v ->
      fst (extractJsonFromFences JSON_parse (VString s) h) = Normal v).
  { intros JSON_parse s h block later v B P.
    destruct (extractJsonFromFences_run JSON_parse (VString s) h) as (g & ->).
    cbn [fst fences_result]. rewrite B. cbn [first_recovered].
    unfold recover. now rewrite P. }
  split; [|split].
  - intros JSON_parse label body post v h L Nb P.
    apply (First _ _ _ body (fence_blocks post)); [|exact P].
    now apply fence_blocks_labelled.
  - intros JSON_parse s h block later v B P.
    split; [now apply (First _ _ _ block later)|].
    intros Tv.
    destruct (analyzeCode_result_run JSON_parse (VString s) h) as (g & ->).
    cbn [fst]. f_equal. unfold analysis_value. cbn [typeof].
    change (("string" =? "object")%string) with false.
    change (("string" =? "string")%string) with true.
    cbn [fences_result text_result]. rewrite B. cbn [first_recovered].
    unfold recover. rewrite P, Tv. reflexivity.
  - intros h. repeat split.
    + apply (First _ _ _ (lit "null" ++ LF)
               [json_lit "{'x':1}" ++ LF]); reflexivity.
    + apply (First _ _ _ (lit "false" ++ LF)
               [json_lit "{'x':1}" ++ LF]); reflexivity.
    + apply (First _ _ _ (lit "[1]" ++ LF) []); reflexivity.
Qed.

Lemma extractJsonFromFences_any_value_witness :
  is_fence_label (lit "TXT")
  /\ ~ In backtick (lit "null" ++ LF)
  /\ JSON.parse (trim (lit "null" ++ LF)) = Some VNull
  /\ truthy VNull = false
  /\ fst (extractJsonFromFences JSON.parse
            (VString Examples.null_then_object) [])
     = Normal VNull
  /\ fst (analyzeCode_result JSON.parse
            (VString Examples.null_then_object) [])
     = Normal (VObject [(lit "x", number 1)]).
Proof.
  assert (L : is_fence_label (lit "TXT"))
    by (right; right; right; left; reflexivity).
  assert (Nb : ~ In backtick (lit "null" ++ LF)).
  { intros I. vm_compute in I.
    repeat (destruct I as [I | I]; [discriminate|]). exact I. }
  assert (P : JSON.parse (trim (lit "null" ++ LF)) = Some VNull)
    by (vm_compute; reflexivity).
  assert (B : fence_blocks Examples.null_then_object
              = (lit "null" ++ LF) :: [json_lit "{'x':1}" ++ LF])
    by (vm_compute; reflexivity).
  split; [exact L|]. split; [exact Nb|]. split; [exact P|].
  split; [reflexivity|]. split.
  - exact (proj1 extractJsonFromFences_any_value JSON.parse (lit "TXT")
             (lit "null" ++ LF)
             (lit " and ```Json" ++ LF ++ json_lit "{'x':1}" ++ LF
              ++ lit "```")
             VNull [] L Nb P).
  - exact (proj2 (proj1 (proj2 extractJsonFromFences_any_value) JSON.parse
                    Examples.null_then_object [] _ _ VNull B P)
             eq_refl).
Defined.

(* ================================================================= *)
(** * Beyond the claims *)

(** ** The batches of [pushFilesToRepo] *)

Lemma ceil_div_bounds (n size : nat) :
  0 < size ->
  n <= ceil_div n size * size < n + size.
Proof.
  intros P. unfold ceil_div.
  pose proof (Nat.div_mod_eq (n + (size - 1)) size) as E.
  pose proof (Nat.mod_upper_bound (n + (size - 1)) size ltac:(lia)) as U.
  nia.
Qed.

Lemma firstn_then_more {A} (l : list A) :
  forall a b, firstn a l ++ firstn b (skipn a l) = firstn (a + b) l.
Proof.
  induction l as [|x l IH]; intros [|a] b; simpl;
    rewrite ?firstn_nil; try reflexivity.
  now rewrite IH.
Qed.

Lemma firstn_min_length {A} (l : list A) (a : nat) :
  firstn (Nat.min a (length l)) l = firstn a l.
Proof.
  destruct (Nat.le_gt_cases a (length l)).
  - now rewrite Nat.min_l.
  - rewrite Nat.min_r by lia. now rewrite !firstn_all2 by lia.
Qed.

(** The first [k] rounds work through the first [k * batchSize] files. *)
Lemma batch_rounds_prefix {A} (batchSize : nat) (files : list A) :
  forall k,
    concat (map (fun b => round_batch (batch_round batchSize files b))
              (seq 0 k))
    = firstn (k * batchSize) files.
Proof.
  induction k as [|k IH]; [reflexivity|].
  rewrite seq_S, map_app, concat_app, IH. cbn [map concat plus].
  rewrite app_nil_r. unfold batch_round, array_slice. cbn [round_batch].
  rewrite firstn_then_more.
  destruct (Nat.le_gt_cases (k * batchSize) (length files)).
  - replace (k * batchSize
             + (Nat.min (k * batchSize + batchSize) (length files)
                - k * batchSize))
      with (Nat.min (k * batchSize + batchSize) (length files)) by lia.
    rewrite firstn_min_length. f_equal. lia.
  - rewrite !firstn_all2 by lia. reflexivity.
Qed.

Lemma batch_rounds_cover {A} (batchSize : nat) (files : list A) :
  0 < batchSize ->
  concat (map round_batch (batch_rounds batchSize files)) = files.
Proof.
  intros P. unfold batch_rounds. rewrite map_map, batch_rounds_prefix.
  apply firstn_all2. apply (ceil_div_bounds (length files) batchSize P).
Qed.

Lemma batch_rounds_shape {A} (batchSize : nat) (files : list A) :
  0 < batchSize ->
  forall k r,
    nth_error (batch_rounds batchSize files) k = Some r ->
    round_start r = k * batchSize
    /\ round_end r = round_start r + length (round_batch r)
    /\ round_batch r = array_slice files (round_start r) (round_end r)
    /\ 0 < length (round_batch r) <= batchSize
    /\ (S k < length (batch_rounds batchSize files) ->
        length (round_batch r) = batchSize)
    /\ (S k = length (batch_rounds batchSize files) ->
        round_end r = length files).
Proof.
  intros P k r E. unfold batch_rounds in *.
  rewrite length_map, length_seq.
  pose proof (ceil_div_bounds (length files) batchSize P) as B.
  assert (K : k < ceil_div (length files) batchSize).
  { assert (N : nth_error (map (batch_round batchSize files)
                              (seq 0 (ceil_div (length files) batchSize))) k
                <> None) by congruence.
    apply nth_error_Some in N. now rewrite length_map, length_seq in N. }
  rewrite nth_error_map, nth_error_seq in E.
  destruct (Nat.ltb_spec k (ceil_div (length files) batchSize)); [|lia].
  cbn [option_map plus] in E. injection E as <-.
  unfold batch_round, array_slice. cbn [round_start round_end round_batch].
  rewrite length_firstn, length_skipn.
  repeat split; nia.
Qed.

(** ** Strings *)

Lemma text_eqb_eq (a b : text) : text_eqb a b = true <-> a = b.
Proof.
  revert b. induction a as [|x a IH]; intros [|y b]; simpl;
    try (split; [discriminate | discriminate]); [tauto|].
  rewrite andb_true_iff, N.eqb_eq, IH. split.
  - intros [-> ->]. reflexivity.
  - intros [= -> ->]. auto.
Qed.

Lemma text_eqb_refl (a : text) : text_eqb a a = true.
Proof. now apply text_eqb_eq. Qed.

Lemma split_not_nil (sep : code_unit) (s : text) : split sep s <> [].
Proof.
  induction s as [|c s IH]; simpl; [discriminate|].
  destruct (c =? sep)%N; [discriminate|].
  destruct (split sep s); [contradiction | discriminate].
Qed.

(** The last segment of a split: what follows the last separator, the whole
    text when there is none. *)
Lemma pop_split_no_sep (sep : code_unit) (s : text) :
  ~ In sep s -> split sep s = [s].
Proof.
  induction s as [|c s IH]; intros Ns; simpl; [reflexivity|].
  destruct (c =? sep)%N eqn:E.
  - apply N.eqb_eq in E. subst c. exfalso. apply Ns. now left.
  - rewrite IH; [reflexivity|]. intros I. apply Ns. now right.
Qed.

Lemma pop_cons {A} (x : A) (l : list A) :
  l <> [] -> pop (x :: l) = pop l.
Proof. destruct l; [congruence | reflexivity]. Qed.

Lemma split_app (sep : code_unit) (x y : text) :
  split sep (x ++ sep :: y) = split sep x ++ split sep y.
Proof.
  induction x as [|c x IH]; simpl.
  - now rewrite N.eqb_refl.
  - rewrite IH. destruct (c =? sep)%N; [reflexivity|].
    pose proof (split_not_nil sep x) as Nx.
    destruct (split sep x) as [|seg segs]; [contradiction | reflexivity].
Qed.

Lemma pop_app {A} (l1 l2 : list A) :
  l2 <> [] -> pop (l1 ++ l2) = pop l2.
Proof.
  intros N2. induction l1 as [|x l1 IH]; [reflexivity|].
  cbn [app]. rewrite pop_cons; [exact IH|].
  destruct l1; [exact N2 | discriminate].
Qed.

Lemma pop_split_last (sep : code_unit) (stem ext : text) :
  ~ In sep ext ->
  pop (split sep (stem ++ sep :: ext)) = Some ext.
Proof.
  intros Ns. rewrite split_app, pop_app by apply split_not_nil.
  now rewrite pop_split_no_sep.
Qed.

Lemma split_join (sep : code_unit) (s : text) :
  join [sep] (split sep s) = s.
Proof.
  induction s as [|c s IH]; [reflexivity|].
  cbn [split]. pose proof (split_not_nil sep s) as Ns.
  destruct (c =? sep)%N eqn:E.
  - apply N.eqb_eq in E. subst c.
    destruct (split sep s) as [|seg segs]; [contradiction|].
    cbn [join app] in *. now rewrite IH.
  - destruct (split sep s) as [|seg segs]; [contradiction|].
    rewrite <- IH. destruct segs; reflexivity.
Qed.

Lemma split_segments (sep : code_unit) (s : text) :
  Forall (fun seg => ~ In sep seg) (split sep s).
Proof.
  induction s as [|c s IH]; cbn [split].
  - constructor; [intros [] | constructor].
  - destruct (c =? sep)%N eqn:E.
    + constructor; [intros [] | exact IH].
    + destruct (split sep s) as [|seg segs]; [repeat constructor|].
      * intros [-> | []]. now rewrite N.eqb_refl in E.
      * inversion IH as [|? ? Hs Hr]; subst. constructor; [|exact Hr].
        intros [-> | I]; [now rewrite N.eqb_refl in E | now apply Hs].
Qed.

Lemma pop_none {A} (l : list A) : pop l = None -> l = [].
Proof.
  induction l as [|y l IH]; [reflexivity|].
  destruct l as [|z l]; [discriminate|].
  intros E. now apply IH in E.
Qed.

Lemma pop_some {A} (l : list A) (x : A) :
  pop l = Some x -> exists init, l = init ++ [x].
Proof.
  induction l as [|y l IH]; [discriminate|].
  destruct l as [|z l].
  - intros [= ->]. now exists [].
  - intros E. destruct (IH E) as (init & ->). now exists (y :: init).
Qed.

Lemma join_last (sep : text) (init : list text) (x : text) :
  join sep (init ++ [x])
  = match init with
    | [] => x
    | _ :: _ => join sep init ++ sep ++ x
    end.
Proof.
  induction init as [|y init IH]; [reflexivity|].
  destruct init as [|z init]; [reflexivity|].
  change (join sep ((y :: z :: init) ++ [x]))
    with (y ++ sep ++ join sep ((z :: init) ++ [x])).
  rewrite IH. cbn [join]. now rewrite <- !app_assoc.
Qed.

(** ** CodeAnalyzer: names, types, icons *)

Lemma last_segment_spec (p : text) :
  ~ In 47%N (Analyzer.last_segment p)
  /\ exists dir,
       p = dir ++ Analyzer.last_segment p
       /\ (dir = [] \/ exists d, dir = d ++ [47%N]).
Proof.
  unfold Analyzer.last_segment.
  pose proof (split_segments 47%N p) as F.
  pose proof (split_join 47%N p) as J.
  destruct (pop (split 47%N p)) as [seg|] eqn:P.
  - destruct (pop_some _ _ P) as (init & E). rewrite E in F, J.
    split.
    + apply Forall_app in F. destruct F as [_ F]. now inversion F.
    + rewrite join_last in J. destruct init as [|y init].
      * exists []. split; [now symmetry | now left].
      * exists (join [47%N] (y :: init) ++ [47%N]). split.
        -- rewrite <- J. now rewrite <- app_assoc.
        -- right. eauto.
  - apply pop_none in P. now apply split_not_nil in P.
Qed.

Lemma own_property_in {V} (obj : list (text * V)) (key : text) (v : V) :
  own_property obj key = Some v -> In v (map snd obj).
Proof.
  induction obj as [|[k w] obj IH]; simpl; [discriminate|].
  destruct (text_eqb k key); [intros [= ->]; now left | auto].
Qed.

Lemma get_property_inherited {V} (obj : list (text * V)) (key k : text) :
  get_property obj key = Inherited k ->
  k = key /\ In key object_prototype_keys.
Proof.
  unfold get_property. destruct (own_property obj key); [discriminate|].
  destruct (existsb (text_eqb key) object_prototype_keys) eqn:E;
    [|discriminate].
  intros [= <-]. split; [reflexivity|].
  apply existsb_exists in E. destruct E as (x & I & E).
  apply text_eqb_eq in E. now subst x.
Qed.

Lemma typeMap_icons (t : text) :
  In t (map snd Analyzer.typeMap) ->
  Analyzer.getFileIcon (Analyzer.Named t) = Analyzer.FiCode
  \/ Analyzer.getFileIcon (Analyzer.Named t) = Analyzer.FiFileText.
Proof.
  intros I. simpl in I.
  repeat (destruct I as [<- | I]; [vm_compute; auto|]). contradiction.
Qed.

Section AnalyzerFacts.

Variable toLowerCase : text -> text.

Lemma getFileType_cases (filename : text) :
  match Analyzer.getFileType toLowerCase filename with
  | Analyzer.Named t => In t (map snd Analyzer.typeMap)
  | Analyzer.Builtin key =>
      In key object_prototype_keys
      /\ option_map toLowerCase (pop (split 46%N filename)) = Some key
  end.
Proof.
  unfold Analyzer.getFileType.
  set (ext := option_map toLowerCase (pop (split 46%N filename))).
  assert (Text : In (lit "text") (map snd Analyzer.typeMap))
    by (vm_compute; tauto).
  destruct (get_property Analyzer.typeMap (property_key ext))
    as [t|key|] eqn:G.
  - destruct t as [|c t]; [exact Text|].
    unfold get_property in G.
    destruct (own_property Analyzer.typeMap (property_key ext)) eqn:O.
    + injection G as ->. now apply own_property_in in O.
    + destruct (existsb _ _); discriminate.
  - apply get_property_inherited in G. destruct G as [-> I].
    split; [exact I|].
    subst ext.
    destruct (pop (split 46%N filename)) eqn:P; [reflexivity|].
    apply pop_none in P. now apply split_not_nil in P.
  - exact Text.
Qed.

(** The loop only appends, and what it appends does not depend on what is
    there. *)
Lemma fetchAllFiles_loop_app (owner repo branch : text)
      (tree : list Analyzer.tree_entry) :
  forall allFiles,
    Analyzer.fetchAllFiles_loop toLowerCase owner repo branch tree allFiles
    = allFiles
      ++ Analyzer.fetchAllFiles_loop toLowerCase owner repo branch tree [].
Proof.
  induction tree as [|entry tree IH]; intros allFiles;
    cbn [Analyzer.fetchAllFiles_loop].
  - now rewrite app_nil_r.
  - repeat match goal with
           | |- context [if ?b then _ else _] => destruct b
           end; try apply IH.
    cbn [app]. rewrite (IH (allFiles ++ _)), (IH [_]).
    now rewrite <- app_assoc.
Qed.

End AnalyzerFacts.

(** X1.  The rounds of the two loops of [pushFilesToRepo], taken in order,
    go through every file exactly once and in the order of the array: the
    batches of ten of [filesToFetch] and the batches of five of [files]
    concatenate to the array they were cut from. *)
Theorem pushFilesToRepo_batches_cover :
  forall (A : Type) (files : list A),
    concat (map round_batch (fetch_rounds files)) = files
    /\ concat (map round_batch (push_rounds files)) = files.
Proof.
  intros A files. split; apply batch_rounds_cover; lia.
Qed.

(** X2.  In either loop, round [k] starts at [k * batchSize], its batch is
    the slice from [start] to [end] and has [end - start] files, between
    one and [batchSize] of them; every round but the last has exactly
    [batchSize] files, and the last one ends at the length of the array.
    So the ranges the log lines report follow one another without a gap. *)
Theorem pushFilesToRepo_batches_shape :
  forall (A : Type) (batchSize : nat) (files : list A) (k : nat)
         (r : round A),
    batchSize = 10 \/ batchSize = 5 ->
    nth_error (batch_rounds batchSize files) k = Some r ->
    round_start r = k * batchSize
    /\ round_end r = round_start r + length (round_batch r)
    /\ round_batch r = array_slice files (round_start r) (round_end r)
    /\ 0 < length (round_batch r) <= batchSize
    /\ (S k < length (batch_rounds batchSize files) ->
        length (round_batch r) = batchSize)
    /\ (S k = length (batch_rounds batchSize files) ->
        round_end r = length files).
Proof.
  intros A batchSize files k r S E.
  apply batch_rounds_shape; [|exact E]. destruct S; lia.
Qed.

Lemma pushFilesToRepo_batches_shape_witness :
  nth_error (batch_rounds 5 (seq 1 12)) 2 = Some (Round 10 12 [11; 12])
  /\ round_start (Round 10 12 [11; 12]) = 2 * 5
  /\ length (round_batch (Round 10 12 [11; 12])) = 2.
Proof.
  assert (E : nth_error (batch_rounds 5 (seq 1 12)) 2
              = Some (Round 10 12 [11; 12])) by reflexivity.
  split; [exact E|].
  pose proof (pushFilesToRepo_batches_shape nat 5 (seq 1 12) 2 _
                (or_intror eq_refl) E) as (S & _).
  split; [exact S | reflexivity].
Defined.

(** X3.  [getFileType] of the analyzer looks only at what follows the last
    dot of the name, and takes a name with no dot whole as its extension:
    for an extension with no dot in it, any stem before the dot gives the
    same type as the bare extension taken as a file name. *)
Theorem getFileType_by_extension :
  forall (toLowerCase : text -> text) (stem ext : text),
    ~ In 46%N ext ->
    Analyzer.getFileType toLowerCase (stem ++ 46%N :: ext)
    = Analyzer.getFileType toLowerCase ext.
Proof.
  intros toLowerCase stem ext Nd. unfold Analyzer.getFileType.
  now rewrite pop_split_last, pop_split_no_sep.
Qed.

Lemma getFileType_by_extension_witness :
  ~ In 46%N (lit "PY")
  /\ Analyzer.getFileType ascii_toLowerCase (lit "tools/run.me" ++ 46%N :: lit "PY")
     = Analyzer.Named (lit "python")
  /\ Analyzer.getFileType ascii_toLowerCase (lit "PY")
     = Analyzer.Named (lit "python").
Proof.
  assert (Nd : ~ In 46%N (lit "PY")).
  { intros I. vm_compute in I.
    repeat (destruct I as [I | I]; [discriminate|]). exact I. }
  assert (P : Analyzer.getFileType ascii_toLowerCase (lit "PY")
              = Analyzer.Named (lit "python")) by reflexivity.
  split; [exact Nd|]. split; [|exact P].
  rewrite (getFileType_by_extension ascii_toLowerCase (lit "tools/run.me")
             (lit "PY") Nd).
  exact P.
Defined.

(** What the lookup [typeMap[ext]] finds for a key of the table, for a name
    of [Object.prototype], and for any other key. *)
Lemma typeMap_own (ext t : text) :
  In (ext, t) Analyzer.typeMap ->
  own_property Analyzer.typeMap ext = Some t /\ t <> [].
Proof.
  intros I. simpl in I.
  repeat (destruct I as [[= <- <-] | I];
          [split; [reflexivity | discriminate]|]).
  contradiction.
Qed.

Lemma typeMap_inherited (ext : text) :
  In ext object_prototype_keys ->
  own_property Analyzer.typeMap ext = None
  /\ existsb (text_eqb ext) object_prototype_keys = true.
Proof.
  intros I. simpl in I.
  repeat (destruct I as [<- | I]; [split; reflexivity|]).
  contradiction.
Qed.

Lemma own_property_absent {V} (obj : list (text * V)) (key : text) :
  ~ In key (map fst obj) -> own_property obj key = None.
Proof.
  induction obj as [|[k v] obj IH]; intros Nk; [reflexivity|].
  cbn [own_property]. destruct (text_eqb k key) eqn:E.
  - apply text_eqb_eq in E. exfalso. apply Nk. now left.
  - apply IH. intros I. apply Nk. now right.
Qed.

Lemma not_a_prototype_key (key : text) :
  ~ In key object_prototype_keys ->
  existsb (text_eqb key) object_prototype_keys = false.
Proof.
  intros Nk. destruct (existsb _ object_prototype_keys) eqn:E;
    [|reflexivity].
  apply existsb_exists in E. destruct E as (k & I & E).
  apply text_eqb_eq in E. now subst k.
Qed.

(** X4.  With [ext] the lower-cased text after the last dot of the file
    name, [getFileType] of the analyzer returns the type name the table
    gives for [ext] when [ext] is a key of the table, the built-in that
    [Object.prototype] has under that name when [ext] is one of its names
    (such as [constructor]), and [text] for every other extension.
    [getFileIcon] of a returned type name is [FiCode] or [FiFileText], and
    that of a built-in is the default icon [FiFile], which is shown in no
    other case. *)
Theorem getFileType_getFileIcon :
  forall (toLowerCase : text -> text) (filename : text),
    let ext := Analyzer.extension toLowerCase filename in
    let type_ := Analyzer.getFileType toLowerCase filename in
    (forall t, In (ext, t) Analyzer.typeMap -> type_ = Analyzer.Named t)
    /\ (In ext object_prototype_keys -> type_ = Analyzer.Builtin ext)
    /\ (~ In ext (map fst Analyzer.typeMap) ->
        ~ In ext object_prototype_keys ->
        type_ = Analyzer.Named (lit "text"))
    /\ (forall t,
          type_ = Analyzer.Named t ->
          In t (map snd Analyzer.typeMap)
          /\ (Analyzer.getFileIcon type_ = Analyzer.FiCode
              \/ Analyzer.getFileIcon type_ = Analyzer.FiFileText))
    /\ (Analyzer.getFileIcon type_ = Analyzer.FiFile <->
        exists key, type_ = Analyzer.Builtin key).
Proof.
  intros toLowerCase filename ext type_.
  assert (Unfolded :
    type_ = match get_property Analyzer.typeMap ext with
            | Own [] => Analyzer.Named (lit "text")
            | Own t => Analyzer.Named t
            | Inherited key => Analyzer.Builtin key
            | Missing => Analyzer.Named (lit "text")
            end) by reflexivity.
  pose proof (getFileType_cases toLowerCase filename) as C.
  fold type_ in C.
  split; [|split; [|split; [|split]]].
  - intros t I. apply typeMap_own in I. destruct I as [O Ne].
    rewrite Unfolded. unfold get_property. rewrite O.
    destruct t; [contradiction | reflexivity].
  - intros I. apply typeMap_inherited in I. destruct I as [O P].
    rewrite Unfolded. unfold get_property. now rewrite O, P.
  - intros Nt Np. rewrite Unfolded. unfold get_property.
    now rewrite (own_property_absent _ _ Nt), (not_a_prototype_key _ Np).
  - intros t E. rewrite E in C |- *. split; [exact C|].
    now apply typeMap_icons.
  - split.
    + intros Icon. destruct type_ as [t|key]; [|eauto].
      destruct (typeMap_icons t C) as [F | F]; rewrite F in Icon;
        discriminate.
    + intros (key & ->). reflexivity.
Qed.

Lemma getFileType_getFileIcon_witness :
  In (Analyzer.extension ascii_toLowerCase (lit "Main.TSX"), lit "typescript")
    Analyzer.typeMap
  /\ Analyzer.getFileType ascii_toLowerCase (lit "Main.TSX")
     = Analyzer.Named (lit "typescript")
  /\ In (Analyzer.extension ascii_toLowerCase (lit "my.Constructor"))
       object_prototype_keys
  /\ Analyzer.getFileType ascii_toLowerCase (lit "my.Constructor")
     = Analyzer.Builtin (lit "constructor")
  /\ Analyzer.getFileType ascii_toLowerCase (lit "Makefile")
     = Analyzer.Named (lit "text").
Proof.
  assert (T : In (Analyzer.extension ascii_toLowerCase (lit "Main.TSX"),
                  lit "typescript") Analyzer.typeMap)
    by (vm_compute; tauto).
  assert (P : In (Analyzer.extension ascii_toLowerCase (lit "my.Constructor"))
                object_prototype_keys)
    by (vm_compute; tauto).
  split; [exact T|].
  split; [exact (proj1 (getFileType_getFileIcon ascii_toLowerCase
                          (lit "Main.TSX")) _ T)|].
  split; [exact P|].
  split; [exact (proj1 (proj2 (getFileType_getFileIcon ascii_toLowerCase
                                 (lit "my.Constructor"))) P)|].
  apply (proj1 (proj2 (proj2 (getFileType_getFileIcon ascii_toLowerCase
                                (lit "Makefile"))))).
  - intros I. vm_compute in I.
    repeat (destruct I as [I | I]; [discriminate|]). exact I.
  - intros I. vm_compute in I.
    repeat (destruct I as [I | I]; [discriminate|]). exact I.
Defined.

(** X5.  The list [fetchAllFiles] builds from a tree holds, in the order of
    the tree, exactly the blobs whose name is not binary by its extension
    and whose size is at most 1,000,000 bytes.  For each listed file the
    name is the last segment of the path (it has no slash, and the path is a
    directory prefix followed by it), the type is [getFileType] of the name,
    the download URL is the raw-content base followed by the path, and the
    file is no directory and has no content yet. *)
Theorem fetchAllFiles_listing :
  forall (toLowerCase : text -> text) (owner repo branch : text)
         (tree : list Analyzer.tree_entry),
    map Analyzer.path
      (Analyzer.fetchAllFiles_loop toLowerCase owner repo branch tree [])
    = map Analyzer.entry_path (filter (fetchAllFiles_lists toLowerCase) tree)
    /\ Forall
         (fun f =>
            Analyzer.name f = Analyzer.last_segment (Analyzer.path f)
            /\ ~ In 47%N (Analyzer.name f)
            /\ (exists dir,
                   Analyzer.path f = dir ++ Analyzer.name f
                   /\ (dir = [] \/ exists d, dir = d ++ [47%N]))
            /\ Analyzer.isBinaryFile toLowerCase (Analyzer.name f) = false
            /\ (Analyzer.size f <= 1000000)%N
            /\ Analyzer.type f
               = Analyzer.getFileType toLowerCase (Analyzer.name f)
            /\ Analyzer.downloadUrl f
               = lit "https://raw.githubusercontent.com/" ++ owner
                 ++ lit "/" ++ repo ++ lit "/" ++ branch ++ lit "/"
                 ++ Analyzer.path f
            /\ Analyzer.isDirectory f = false
            /\ Analyzer.content f = None)
         (Analyzer.fetchAllFiles_loop toLowerCase owner repo branch tree []).
Proof.
  intros toLowerCase owner repo branch tree.
  induction tree as [|entry tree (IHp & IHf)]; [split; constructor|].
  cbn [Analyzer.fetchAllFiles_loop filter]. unfold fetchAllFiles_lists at 1.
  destruct (text_eqb (Analyzer.entry_type entry) (lit "blob"));
    [|split; assumption].
  destruct (Analyzer.isBinaryFile toLowerCase
              (Analyzer.last_segment (Analyzer.entry_path entry))) eqn:B;
    [split; assumption|].
  cbn [negb andb].
  destruct (Analyzer.entry_size entry) as [n|] eqn:Sz.
  - destruct (N.leb_spec n 1000000) as [Le|Gt].
    + replace (negb (n =? 0)%N && (1000000 <? n)%N) with false
        by (symmetry; apply andb_false_iff; right; apply N.ltb_ge; lia).
      cbn [app]. rewrite fetchAllFiles_loop_app. cbn [app map].
      split; [now rewrite IHp|].
      constructor; [|exact IHf]. cbn.
      destruct (last_segment_spec (Analyzer.entry_path entry)) as (Ns & D).
      repeat split; auto.
    + replace (negb (n =? 0)%N && (1000000 <? n)%N) with true
        by (symmetry; apply andb_true_iff; split;
            [apply negb_true_iff; apply N.eqb_neq; lia | apply N.ltb_lt; lia]).
      split; assumption.
  - cbn [app]. rewrite fetchAllFiles_loop_app. cbn [app map].
    split; [now rewrite IHp|].
    constructor; [|exact IHf]. cbn.
    destruct (last_segment_spec (Analyzer.entry_path entry)) as (Ns & D).
    repeat split; auto. lia.
Qed.

(** ** [handleSave] *)




(** ** The files of the new repository *)

Lemma add_project_files_spec (existingPaths : list text)
      (projectFiles : list GitHub.repo_file) :
  forall files,
    GitHub.add_project_files existingPaths projectFiles files
    = files
      ++ filter (fun f => negb (existsb (text_eqb (GitHub.path f))
                                  existingPaths))
           projectFiles.
Proof.
  induction projectFiles as [|file rest IH]; intros files; simpl.
  - now rewrite app_nil_r.
  - destruct (existsb (text_eqb (GitHub.path file)) existingPaths); simpl.
    + apply IH.
    + rewrite IH. now rewrite <- app_assoc.
Qed.

Lemma existsb_text_in (x : text) (l : list text) :
  existsb (text_eqb x) l = true <-> In x l.
Proof.
  rewrite existsb_exists. split.
  - intros (y & I & E). apply text_eqb_eq in E. now subst y.
  - intros I. exists x. split; [exact I | apply text_eqb_refl].
Qed.

Lemma generated_paths (toLowerCase : text -> text) (st : GitHub.state) :
  NoDup (map GitHub.path (GitHub.generated_files toLowerCase st))
  /\ Forall (fun f => GitHub.content f <> None)
       (GitHub.generated_files toLowerCase st)
  /\ incl (map GitHub.path (GitHub.generated_files toLowerCase st))
       [lit "Dockerfile"; lit ".dockerignore"; lit "docker-compose.yml";
        lit "README.md"].
Proof.
  unfold GitHub.generated_files.
  assert (D : forall a b : text, text_eqb a b = false -> a <> b).
  { intros a b E ->. now rewrite text_eqb_refl in E. }
  destruct (GitHub.dockerfile st) as [[|c d]|],
           (GitHub.currentProject st) as [p|]; cbn [app map GitHub.path];
    (split; [|split]);
    repeat first
      [ apply NoDup_nil
      | apply Forall_nil
      | apply NoDup_cons
      | apply Forall_cons; [discriminate|]
      | intros x I; simpl in I |- *; tauto
      | intros I; simpl in I;
        repeat (destruct I as [I | I];
                [revert I; apply D; reflexivity|]); exact I ].
Qed.

(** Dropping files from a listing keeps its paths distinct. *)
Lemma kept_paths_distinct (keep : GitHub.repo_file -> bool)
      (listing : list GitHub.repo_file) :
  NoDup (map GitHub.path listing) ->
  NoDup (map GitHub.path (filter keep listing)).
Proof.
  intros Distinct.
  induction listing as [|file listing IH]; [constructor|].
  cbn [map] in Distinct. apply NoDup_cons_iff in Distinct.
  destruct Distinct as [Fresh Distinct]. cbn [filter].
  destruct (keep file); [|now apply IH].
  cbn [map]. apply NoDup_cons_iff. split; [|now apply IH].
  intros Seen. apply Fresh.
  apply in_map_iff in Seen. destruct Seen as (other & Same & Kept).
  apply filter_In in Kept. rewrite <- Same. apply in_map. tauto.
Qed.

(** X7.  [generateRepositoryFiles] puts the generated files first
    ([Dockerfile], [.dockerignore] and [docker-compose.yml] when there is a
    Dockerfile, [README.md] when there is a project), and a project file is
    added after them, in listing order, exactly when the push is full and
    its path is not the path of a generated file: a generated file is never
    displaced by the project's own file of that name.  When the paths of
    the project listing are distinct, so are the paths of the result, and
    the only files whose content has to be fetched are project files. *)
Theorem generateRepositoryFiles_paths :
  forall (toLowerCase : text -> text) (st : GitHub.state) (pushType : text)
         (projectFiles : list GitHub.repo_file),
    let generated := GitHub.generated_files toLowerCase st in
    let result :=
      GitHub.generateRepositoryFiles toLowerCase st pushType projectFiles in
    result
    = generated
      ++ (if text_eqb pushType (lit "full")
          then filter (fun f => negb (existsb (text_eqb (GitHub.path f))
                                        (map GitHub.path generated)))
                 projectFiles
          else [])
    /\ (forall f,
          In f projectFiles ->
          pushType = lit "full" ->
          ~ In (GitHub.path f) (map GitHub.path generated) ->
          In f result)
    /\ (forall f,
          In f result ->
          In (GitHub.path f) (map GitHub.path generated) ->
          In f generated)
    /\ (NoDup (map GitHub.path projectFiles) ->
        NoDup (map GitHub.path result))
    /\ (forall f,
          In f (GitHub.filesToFetch st result) ->
          In f projectFiles /\ GitHub.content f = None).
Proof.
  intros toLowerCase st pushType projectFiles generated result.
  set (keep := fun f => negb (existsb (text_eqb (GitHub.path f))
                            (map GitHub.path generated))).
  assert (Keep : forall f, keep f = true
                           <-> ~ In (GitHub.path f)
                                 (map GitHub.path generated)).
  { intros f. unfold keep. rewrite negb_true_iff.
    rewrite <- existsb_text_in.
    destruct (existsb (text_eqb (GitHub.path f))
                (map GitHub.path generated)); split; congruence. }
  assert (R : result
              = generated
                ++ (if text_eqb pushType (lit "full")
                    then filter keep projectFiles else [])).
  { subst result. unfold GitHub.generateRepositoryFiles.
    fold generated.
    destruct (text_eqb pushType (lit "full")); cbn [andb];
      [|now rewrite app_nil_r].
    destruct projectFiles as [|f l]; [cbn; now rewrite app_nil_r|].
    cbn [length Nat.ltb Nat.leb]. apply add_project_files_spec. }
  destruct (generated_paths toLowerCase st) as (Ng & Cg & _).
  fold generated in Ng, Cg.
  split; [exact R|]. rewrite R. split; [|split; [|split]].
  - intros f I -> Np. rewrite text_eqb_refl. apply in_or_app. right.
    apply filter_In. split; [exact I | now apply Keep].
  - intros f I Ip. apply in_app_or in I. destruct I as [I | I]; [exact I|].
    destruct (text_eqb pushType (lit "full")); [|contradiction].
    apply filter_In in I. destruct I as [_ K]. apply Keep in K.
    contradiction.
  - intros Np. rewrite map_app.
    destruct (text_eqb pushType (lit "full"));
      [|cbn; now rewrite app_nil_r].
    apply NoDup_app; repeat split.
    + exact Ng.
    + now apply kept_paths_distinct.
    + intros x Ix Iy. apply in_map_iff in Iy. destruct Iy as (f & <- & I).
      apply filter_In in I. destruct I as [_ K]. now apply Keep in K.
  - intros f I. unfold GitHub.filesToFetch in I. apply filter_In in I.
    destruct I as [I C].
    destruct (GitHub.content f) eqn:Cf; [discriminate|].
    split; [|reflexivity].
    apply in_app_or in I. destruct I as [I | I].
    + rewrite Forall_forall in Cg. now apply Cg in I.
    + destruct (text_eqb pushType (lit "full")); [|contradiction].
      apply filter_In in I. tauto.
Qed.

Lemma generateRepositoryFiles_paths_witness :
  let st := GitHub.State (Some (lit "FROM node:18"))
              (Some (GitHub.Project (lit "App") None)) None [] in
  let readme := GitHub.RepoFile (lit "README.md") None (lit "readme")
                  (Some (lit "README.md")) (Some 120%N) in
  let source := GitHub.RepoFile (lit "src/a.js") None (lit "javascript")
                  (Some (lit "a.js")) (Some 40%N) in
  let result := GitHub.generateRepositoryFiles ascii_toLowerCase st
                  (lit "full") [readme; source] in
  map GitHub.path result
  = [lit "Dockerfile"; lit ".dockerignore"; lit "docker-compose.yml";
     lit "README.md"; lit "src/a.js"]
  /\ In source result
  /\ NoDup (map GitHub.path result)
  /\ GitHub.filesToFetch st result = [source].
Proof.
  intros st readme source result.
  pose proof (generateRepositoryFiles_paths ascii_toLowerCase st (lit "full")
                [readme; source]) as (_ & Added & _ & Distinct & _).
  split; [reflexivity|]. split; [|split].
  - apply (Added source); [right; left; reflexivity | reflexivity|].
    intros I. vm_compute in I.
    repeat (destruct I as [I | I]; [discriminate|]). exact I.
  - apply Distinct. repeat constructor; simpl; intuition discriminate.
  - reflexivity.
Defined.

(** X8.  [generateRepositoryFiles] returns no file at all, which is when
    [pushFilesToRepo] stops with [No files to push], exactly when there is
    no Dockerfile text, no current project, and either the push is not a
    full one or the project listing is empty. *)
Theorem generateRepositoryFiles_empty :
  forall (toLowerCase : text -> text) (st : GitHub.state) (pushType : text)
         (projectFiles : list GitHub.repo_file),
    GitHub.generateRepositoryFiles toLowerCase st pushType projectFiles = []
    <-> (GitHub.or_default (GitHub.dockerfile st) [] = []
         /\ GitHub.currentProject st = None
         /\ (pushType <> lit "full" \/ projectFiles = [])).
Proof.
  intros toLowerCase st pushType projectFiles.
  pose proof (generateRepositoryFiles_paths toLowerCase st pushType
                projectFiles) as (R & _).
  cbv zeta in R. rewrite R. clear R.
  assert (All : forall l : list GitHub.repo_file,
            filter (fun f => negb (existsb (text_eqb (GitHub.path f))
                                     (map GitHub.path [])))
              l = l)
    by (induction l; simpl in *; congruence).
  unfold GitHub.generated_files.
  destruct (GitHub.dockerfile st) as [[|c d]|];
    destruct (GitHub.currentProject st) as [p|]; cbn [GitHub.or_default app];
    try (split; [discriminate | intros (A & B & C); discriminate]).
  - destruct (text_eqb pushType (lit "full")) eqn:E.
    + apply text_eqb_eq in E. subst pushType. rewrite (All projectFiles).
      split; [intros ->; auto | intros (_ & _ & [N | ->]); congruence].
    + split; [|reflexivity]. intros _. repeat split. left. intros ->.
      now rewrite text_eqb_refl in E.
  - destruct (text_eqb pushType (lit "full")) eqn:E.
    + apply text_eqb_eq in E. subst pushType. rewrite (All projectFiles).
      split; [intros ->; auto | intros (_ & _ & [N | ->]); congruence].
    + split; [|reflexivity]. intros _. repeat split. left. intros ->.
      now rewrite text_eqb_refl in E.
Qed.

(** ** [formatGithubError] *)

Lemma or_else_nonempty (x : option text) (y : text) :
  y <> [] -> Helpers.or_else x y <> [].
Proof.
  destruct x as [[|c s]|]; simpl; auto. discriminate.
Qed.

(** X9.  What [formatGithubError] returns for the statuses 401 and 403 is
    settled by the message of the API and the rate-limit headers alone.
    For 401: the missing-permissions explanation when the API message is
    not empty and speaks of a resource not accessible by personal access
    token, the invalid-token explanation otherwise.  For 403: the
    missing-permissions explanation under the same condition; otherwise the
    invalid-token explanation when the API message speaks of bad
    credentials; otherwise the rate-limit explanation when the message
    speaks of a rate limit or the header [x-ratelimit-remaining] is [0],
    followed by the time of the reset exactly when the header
    [x-ratelimit-reset] starts with an integer; otherwise the access-denied
    explanation.  The default message and the message of the error play no
    part. *)
Theorem formatGithubError_by_status :
  forall (toLowerCase : text -> text) (toLocaleTimeString : Z -> text)
         (e : Helpers.error_value) (r : Helpers.response)
         (defaultMessage : option text),
    Helpers.error_response e = Some r ->
    let result :=
      Helpers.formatGithubError toLowerCase toLocaleTimeString (Some e)
        defaultMessage in
    let apiMsg := Helpers.data_message r in
    let says := Helpers.mentions toLowerCase apiMsg in
    let header :=
      own_property match Helpers.headers r with
                   | Some h => h
                   | None => []
                   end in
    let inaccessible :=
      Helpers.truthy_text apiMsg
      && says (lit "resource not accessible by personal access token") in
    (Helpers.status r = Some 401%N ->
     result = if inaccessible then Helpers.permissions_message
              else Helpers.invalid_token_message)
    /\ (Helpers.status r = Some 403%N ->
        result
        = if inaccessible then Helpers.permissions_message
          else if says (lit "bad credentials")
          then Helpers.invalid_token_message
          else if says (lit "rate limit")
                  || match header (lit "x-ratelimit-remaining") with
                     | Some remaining => text_eqb remaining (lit "0")
                     | None => false
                     end
          then
            Helpers.rate_limit_message
            ++ match header (lit "x-ratelimit-reset") with
               | Some reset =>
                   match Helpers.parseInt10 reset with
                   | Some seconds =>
                       lit " Rate limit resets at "
                       ++ toLocaleTimeString seconds ++ lit "."
                   | None => []
                   end
               | None => []
               end
          else Helpers.access_denied_message).
Proof.
  intros toLowerCase toLocaleTimeString e r defaultMessage R
         result apiMsg says header inaccessible.
  subst result. unfold Helpers.formatGithubError. rewrite R.
  fold apiMsg. fold says. fold header. fold inaccessible.
  split; intros S; rewrite S; cbn [Helpers.status_is N.eqb Pos.eqb orb andb].
  - reflexivity.
  - destruct inaccessible; [reflexivity|].
    destruct (says (lit "bad credentials")); [reflexivity|].
    destruct (says (lit "rate limit")); cbn [orb negb].
    + destruct (header (lit "x-ratelimit-reset")) as [[|c reset]|];
        reflexivity.
    + destruct (match header (lit "x-ratelimit-remaining") with
                | Some remaining => text_eqb remaining (lit "0")
                | None => false
                end); [|reflexivity].
      destruct (header (lit "x-ratelimit-reset")) as [[|c reset]|];
        reflexivity.
Qed.

Lemma formatGithubError_by_status_witness :
  let r := Helpers.Response (Some (lit "API rate limit exceeded"))
             (Some 403%N)
             (Some [(lit "x-ratelimit-reset", lit "1700000000")]) in
  let e := Helpers.ErrorValue (Some r) (Some (lit "Request failed")) in
  let denied := Helpers.Response (Some (lit "Must have admin rights"))
                  (Some 403%N) None in
  Helpers.error_response e = Some r
  /\ Helpers.status r = Some 403%N
  /\ Helpers.formatGithubError ascii_toLowerCase (fun _ => lit "10:13 PM")
       (Some e) (Some (lit "Invalid token"))
     = Helpers.rate_limit_message ++ lit " Rate limit resets at 10:13 PM."
  /\ Helpers.formatGithubError ascii_toLowerCase (fun _ => lit "10:13 PM")
       (Some (Helpers.ErrorValue (Some denied) None))
       (Some (lit "Invalid token"))
     = Helpers.access_denied_message.
Proof.
  intros r e denied. split; [reflexivity|]. split; [reflexivity|]. split.
  - exact (proj2 (formatGithubError_by_status ascii_toLowerCase
                    (fun _ => lit "10:13 PM") e r
                    (Some (lit "Invalid token")) eq_refl) eq_refl).
  - exact (proj2 (formatGithubError_by_status ascii_toLowerCase
                    (fun _ => lit "10:13 PM")
                    (Helpers.ErrorValue (Some denied) None) denied
                    (Some (lit "Invalid token")) eq_refl) eq_refl).
Defined.

(** X10.  [formatGithubError] never returns an empty message.  When the
    error carries no response (a network failure), the result is the
    default message if one is given, the message of the error only when no
    default is given, and [An error occurred] when neither is. *)
Theorem formatGithubError_message :
  forall (toLowerCase : text -> text) (toLocaleTimeString : Z -> text)
         (error : option Helpers.error_value) (defaultMessage : option text),
    Helpers.formatGithubError toLowerCase toLocaleTimeString error
      defaultMessage <> []
    /\ ((forall e, error = Some e -> Helpers.error_response e = None) ->
        Helpers.formatGithubError toLowerCase toLocaleTimeString error
          defaultMessage
        = Helpers.or_else defaultMessage
            (Helpers.or_else
               match error with
               | Some e => Helpers.error_message e
               | None => None
               end
               (lit "An error occurred"))).
Proof.
  intros toLowerCase toLocaleTimeString error defaultMessage. split.
  - unfold Helpers.formatGithubError.
    repeat match goal with
           | |- (if ?b then _ else _) <> [] => destruct b
           end; try discriminate.
    repeat apply or_else_nonempty. discriminate.
  - intros NoResp. unfold Helpers.formatGithubError.
    destruct error as [e|]; [rewrite (NoResp e eq_refl)|]; reflexivity.
Qed.

Lemma formatGithubError_message_witness :
  let e := Helpers.ErrorValue None (Some (lit "Network Error")) in
  Helpers.formatGithubError ascii_toLowerCase (fun _ => [])
    (Some e) (Some (lit "Invalid token"))
  = lit "Invalid token"
  /\ Helpers.formatGithubError ascii_toLowerCase (fun _ => [])
       (Some e) None
     = lit "Network Error".
Proof.
  intros e.
  assert (NoResp : forall e', Some e = Some e' ->
                              Helpers.error_response e' = None)
    by (intros e' [= <-]; reflexivity).
  split.
  - exact (proj2 (formatGithubError_message ascii_toLowerCase (fun _ => [])
                    (Some e) (Some (lit "Invalid token"))) NoResp).
  - exact (proj2 (formatGithubError_message ascii_toLowerCase (fun _ => [])
                    (Some e) None) NoResp).
Defined.

(** ** The combined path always shows something *)



(** ** Polling *)

Lemma poll_loop_finished (responses : nat -> Polling.poll) :
  forall remaining pollCount jobData k j,
    pollCount < k <= pollCount + remaining ->
    responses k = Polling.Body (Some j) ->
    Polling.finished j = true ->
    (forall i j', pollCount < i < k ->
                  responses i = Polling.Body (Some j') ->
                  Polling.finished j' = false) ->
    Polling.poll_loop remaining pollCount responses jobData = Some j.
Proof.
  induction remaining as [|remaining IH];
    intros pollCount jobData k j K R F Before; [lia|].
  cbn [Polling.poll_loop].
  destruct (Nat.eq_dec k (S pollCount)) as [-> | Later].
  - now rewrite R, F.
  - assert (Next : forall data,
              Polling.poll_loop remaining (S pollCount) responses data
              = Some j).
    { intros data. apply (IH (S pollCount) data k j); try assumption; [lia|].
      intros i j' I. apply Before. lia. }
    destruct (responses (S pollCount)) as [|[j'|]] eqn:R'; try apply Next.
    rewrite (Before (S pollCount) j' ltac:(lia) R'). apply Next.
Qed.



Lemma after_polling_run (JSON_parse : text -> option jsval)
      (jobData : option Polling.job) (h : heap) :
  exists g,
    Polling.after_polling JSON_parse jobData h
    = (Normal
         match jobData with
         | None => inl (lit "Analysis job timed out")
         | Some j =>
             if Polling.status_is j (lit "failed")
             then inl (Polling.or_else (Polling.job_error j)
                         (lit "Analysis failed"))
             else inr (analysis_value JSON_parse (Polling.job_result j))
         end, h ++ g).
Proof.
  unfold Polling.after_polling.
  destruct jobData as [j|]; [|exists []; unfold ret; now rewrite app_nil_r].
  destruct (Polling.status_is j (lit "failed"));
    [exists []; unfold ret; now rewrite app_nil_r|].
  unfold bind.
  destruct (analyzeCode_result_run JSON_parse (Polling.job_result j) h)
    as (g & ->).
  now exists g.
Qed.

(** X12.  Polling stops at the first poll, among the 120 it makes at most,
    whose body reports the job [done] or [failed]; polls whose request
    failed and bodies with another status are passed over, and nothing that
    comes later matters.  A [failed] job shows its [error], or [Analysis
    failed] when it has none; a [done] job shows what the combined
    extraction makes of its [result]. *)
Theorem analyzeCode_polling_first_finished :
  forall (JSON_parse : text -> option jsval)
         (responses : nat -> Polling.poll) (k : nat) (j : Polling.job)
         (h : heap),
    1 <= k <= 120 ->
    responses k = Polling.Body (Some j) ->
    Polling.finished j = true ->
    (forall i j', 1 <= i < k ->
                  responses i = Polling.Body (Some j') ->
                  Polling.finished j' = false) ->
    Polling.poll_loop 120 0 responses None = Some j
    /\ fst (Polling.analyzeCode_polling JSON_parse responses h)
       = Normal
           (if Polling.status_is j (lit "failed")
            then Polling.SetError
                   (Polling.or_else (Polling.job_error j)
                      (lit "Analysis failed"))
            else Polling.SetAnalysisResult
                   (analysis_value JSON_parse (Polling.job_result j))).
Proof.
  intros JSON_parse responses k j h K R F Before.
  assert (L : Polling.poll_loop 120 0 responses None = Some j).
  { apply (poll_loop_finished responses 120 0 None k j); assumption. }
  split; [exact L|].
  unfold Polling.analyzeCode_polling, bind. rewrite L.
  destruct (after_polling_run JSON_parse (Some j) h) as (g & ->).
  destruct (Polling.status_is j (lit "failed")); [|reflexivity].
  cbn [fst]. unfold ret. cbn [fst]. f_equal. f_equal.
  destruct (Polling.job_error j) as [[|c s]|]; reflexivity.
Qed.

Lemma analyzeCode_polling_first_finished_witness :
  let failed := Polling.Job (Some (lit "failed")) VUndefined
                  (Some (lit "model overloaded")) in
  let running := Polling.Job (Some (lit "running")) VUndefined None in
  let responses := fun k => match k with
                            | 1 => Polling.RequestFailed
                            | 2 => Polling.Body (Some running)
                            | _ => Polling.Body (Some failed)
                            end in
  responses 3 = Polling.Body (Some failed)
  /\ Polling.finished failed = true
  /\ fst (Polling.analyzeCode_polling JSON.parse responses [])
     = Normal (Polling.SetError (lit "model overloaded")).
Proof.
  intros failed running responses.
  split; [reflexivity|]. split; [reflexivity|].
  refine (proj2 (analyzeCode_polling_first_finished JSON.parse responses 3
                   failed [] ltac:(lia) eq_refl eq_refl _)).
  intros i j' I R.
  destruct i as [|[|[|i]]]; try lia; [discriminate|].
  injection R as <-. reflexivity.
Defined.



(** ** What brace scanning can return *)

Lemma members_object (fuel : nat) :
  forall l acc v r,
    JSON.members fuel l acc = JSON.Ok v r -> exists props, v = VObject props.
Proof.
  induction fuel as [|fuel IH]; intros l acc v r E; [discriminate|].
  cbn [JSON.members] in E.
  destruct (JSON.skip_ws l) as [|c r0]; [discriminate|].
  destruct (c =? 34)%N; [|discriminate].
  destruct (JSON.read_string r0) as [[k r1]|]; [|discriminate].
  destruct (JSON.skip_ws r1) as [|c1 r2]; [discriminate|].
  destruct (c1 =? 58)%N; [|discriminate].
  destruct (JSON.value fuel r2) as [w r3| |]; try discriminate.
  destruct (JSON.skip_ws r3) as [|c2 r4]; [discriminate|].
  destruct (c2 =? 44)%N; [now apply IH in E|].
  destruct (c2 =? 125)%N; [|discriminate].
  injection E as <- <-. eauto.
Qed.

(** A text that opens with a brace parses to an object, if it parses. *)
Lemma parse_brace_object (rest : text) (v : jsval) :
  JSON.parse (lbrace :: rest) = Some v -> exists props, v = VObject props.
Proof.
  unfold JSON.parse.
  destruct (JSON.value (2 * length (lbrace :: rest) + 2) (lbrace :: rest))
    as [w r| |] eqn:V; try discriminate.
  destruct (JSON.skip_ws r); [|discriminate]. intros [= ->].
  destruct (2 * length (lbrace :: rest) + 2) as [|fuel]; [discriminate|].
  cbn [JSON.value] in V.
  change (JSON.skip_ws (lbrace :: rest)) with (lbrace :: rest) in V.
  change (lbrace =? 123)%N with true in V. cbv iota in V.
  destruct (JSON.skip_ws rest) as [|c' r']; [discriminate|].
  destruct (c' =? 125)%N.
  - injection V as <- _. eauto.
  - now apply members_object in V.
Qed.

(** X14.  With [JSON.parse] as it is, balanced-brace extraction returns an
    object or [null] and nothing else: every candidate opens with a brace,
    and a text that opens with a brace parses to an object if it parses at
    all.  So an array, a string, a number or a boolean is only ever
    recovered by the direct parse of a fenced block. *)
Theorem extractJsonFromText_object_or_null :
  forall (v : jsval) (h : heap),
    fst (extractJsonFromText JSON.parse v h) = Normal VNull
    \/ exists props,
         fst (extractJsonFromText JSON.parse v h) = Normal (VObject props).
Proof.
  intros v h. rewrite extractJsonFromText_run. cbn [fst].
  destruct v as [| |b|d|s|elems|props]; cbn [text_result]; auto.
  unfold brace_scan.
  set (r := first_parsed JSON.parse (candidates s)).
  assert (D : r = VNull \/ r <> VNull)
    by (destruct r; auto; right; discriminate).
  destruct D as [-> | N]; [auto|].
  destruct (first_parsed_some JSON.parse (candidates s) r eq_refl N)
    as (cand & I & P).
  destruct (candidates_depth_matched _ _ I) as ((_ & (rest & ->) & _) & _).
  destruct (parse_brace_object _ _ P) as (props & E).
  right. exists props. now rewrite E.
Qed.

(** ** An object embedded in prose *)

(** X15.  An object embedded in prose is found: when the text before it has
    no opening brace and the object text is depth-matched (it opens with a
    brace and its depth first returns to zero at its end) and parses,
    [extractJsonFromText] returns its parse, whatever follows it. *)
Theorem extractJsonFromText_embedded :
  forall (JSON_parse : text -> option jsval) (pre cand post : text)
         (v : jsval) (h : heap),
    ~ In lbrace pre ->
    depth_matched cand ->
    JSON_parse cand = Some v ->
    fst (extractJsonFromText JSON_parse (VString (pre ++ cand ++ post)) h)
    = Normal v.
Proof.
  intros JSON_parse pre cand post v h Np M P.
  rewrite extractJsonFromText_run. cbn [fst text_result]. f_equal.
  unfold brace_scan. rewrite candidates_after_prose by exact Np.
  destruct (candidates_head cand post M) as (more & ->).
  cbn [first_parsed]. now rewrite P.
Qed.

Lemma extractJsonFromText_embedded_witness :
  ~ In lbrace (lit "prefix ")
  /\ depth_matched (json_lit "{'a':1}")
  /\ JSON.parse (json_lit "{'a':1}") = Some (VObject [(lit "a", number 1)])
  /\ fst (extractJsonFromText JSON.parse
            (VString (lit "prefix " ++ json_lit "{'a':1}" ++ lit " suffix"))
            [])
     = Normal (VObject [(lit "a", number 1)]).
Proof.
  assert (Np : ~ In lbrace (lit "prefix ")).
  { intros I. vm_compute in I.
    repeat (destruct I as [I | I]; [discriminate|]). exact I. }
  assert (M : depth_matched (json_lit "{'a':1}")).
  { apply (candidates_depth_matched (json_lit "{'a':1}")). now left. }
  assert (P : JSON.parse (json_lit "{'a':1}")
              = Some (VObject [(lit "a", number 1)])) by reflexivity.
  split; [exact Np|]. split; [exact M|]. split; [exact P|].
  exact (extractJsonFromText_embedded JSON.parse (lit "prefix ")
           (json_lit "{'a':1}") (lit " suffix") _ [] Np M P).
Defined.

(** ** File contents: the round trip through Base64 and UTF-8 *)

Module CodecFacts.
Import Codec.

Local Ltac Zify.zify_post_hook ::= Z.to_euclidean_division_equations.

(** A property of every number below a bound, checked one by one. *)
Lemma below_checked (P : N -> bool) (bound : nat) :
  forallb P (map N.of_nat (seq 0 bound)) = true ->
  forall n, (n < N.of_nat bound)%N -> P n = true.
Proof.
  intros C n L. rewrite forallb_forall in C. apply C.
  apply in_map_iff. exists (N.to_nat n). split; [apply N2Nat.id|].
  apply in_seq. lia.
Qed.

Lemma octet_upper (b : N) :
  (b < 256)%N -> octet (upper_hex (b / 16)) (upper_hex (b mod 16)) = Some b.
Proof.
  intros L.
  pose proof (below_checked
    (fun b => match octet (upper_hex (b / 16)) (upper_hex (b mod 16)) with
              | Some v => (v =? b)%N
              | None => false
              end) 256 ltac:(vm_compute; reflexivity) b L) as C.
  cbv beta in C.
  destruct (octet (upper_hex (b / 16)) (upper_hex (b mod 16)));
    [|discriminate].
  apply N.eqb_eq in C. now subst.
Qed.


(** The first digit of a percent escape is never the letter [u]. *)
Lemma upper_hex_not_u (b : N) :
  (b < 256)%N -> (upper_hex (b / 16) =? 117)%N = false.
Proof.
  intros L.
  pose proof (below_checked
    (fun b => negb (upper_hex (b / 16) =? 117)%N) 256
    ltac:(vm_compute; reflexivity) b L) as C.
  now apply negb_true_iff in C.
Qed.



(** Induction on a text, one or two code units at a time. *)
Lemma text_ind2 (P : text -> Prop) :
  P [] ->
  (forall c, P [c]) ->
  (forall c d s, P s -> P (d :: s) -> P (c :: d :: s)) ->
  forall s, P s.
Proof.
  intros P0 P1 P2 s.
  assert (Both : P s /\ forall c, P (c :: s)).
  { induction s as [|d s [IHs IHc]]; [split; auto|].
    split; [apply IHc|]. intros c. apply P2; [exact IHs | apply IHc]. }
  exact (proj1 Both).
Qed.

Lemma surrogate_tests (c : N) :
  (is_high_surrogate c = true <-> (55296 <= c <= 56319)%N)
  /\ (is_low_surrogate c = true <-> (56320 <= c <= 57343)%N).
Proof.
  unfold is_high_surrogate, is_low_surrogate.
  rewrite !andb_true_iff, !N.leb_le. tauto.
Qed.

Lemma is_high_false (c : N) :
  (c < 55296 \/ 56319 < c)%N -> is_high_surrogate c = false.
Proof.
  intros H. destruct (is_high_surrogate c) eqn:E; [|reflexivity].
  apply surrogate_tests in E. lia.
Qed.

Lemma is_low_false (c : N) :
  (c < 56320 \/ 57343 < c)%N -> is_low_surrogate c = false.
Proof.
  intros H. destruct (is_low_surrogate c) eqn:E; [|reflexivity].
  apply surrogate_tests in E. lia.
Qed.

Lemma is_high_true (c : N) :
  (55296 <= c <= 56319)%N -> is_high_surrogate c = true.
Proof. intros H. now apply surrogate_tests. Qed.

Lemma is_low_true (c : N) :
  (56320 <= c <= 57343)%N -> is_low_surrogate c = true.
Proof. intros H. now apply surrogate_tests. Qed.

(** A well-formed text is the UTF-16 form of its code points, which are
    scalar values, provided its code units are below 65536. *)
Lemma well_formed_points (s : text) :
  well_formed s = true ->
  Forall (fun c => c < 65536)%N s ->
  Forall scalar (code_points s)
  /\ concat (map utf16_encode (code_points s)) = s.
Proof.
  induction s as [| c | c d s IHs IHd] using text_ind2; intros W B.
  - split; constructor.
  - cbn [well_formed code_points] in *.
    destruct (is_high_surrogate c) eqn:H; [discriminate|].
    rewrite andb_true_r in W. apply negb_true_iff in W.
    inversion B as [|? ? Bc _]; subst.
    split.
    + constructor; [|constructor]. unfold scalar.
      destruct (N.lt_ge_cases c 55296); [lia|].
      destruct (N.le_gt_cases c 56319);
        [rewrite is_high_true in H by lia; discriminate|].
      destruct (N.le_gt_cases c 57343);
        [rewrite is_low_true in W by lia; discriminate | lia].
    + cbn. unfold utf16_encode.
      destruct (N.ltb_spec c 65536); [reflexivity | lia].
  - inversion B as [|? ? Bc B']; subst.
    inversion B' as [|? ? Bd B'']; subst.
    cbn [well_formed code_points] in *.
    destruct (is_high_surrogate c) eqn:H.
    + destruct (is_low_surrogate d) eqn:L; [|discriminate].
      cbn [andb] in W. destruct (IHs W B'') as [Sc E].
      apply surrogate_tests in H, L.
      split.
      * constructor; [unfold scalar; lia | exact Sc].
      * cbn [map concat]. rewrite E. unfold utf16_encode.
        destruct (N.ltb_spec (65536 + (c - 55296) * 1024 + (d - 56320))
                    65536); [lia|].
        cbn [app]. f_equal; [lia|]. f_equal. lia.
    + apply andb_true_iff in W. destruct W as [Lc W].
      apply negb_true_iff in Lc.
      destruct (IHd W B') as [Sc E].
      split.
      * constructor; [|exact Sc]. unfold scalar.
        destruct (N.lt_ge_cases c 55296); [lia|].
        destruct (N.le_gt_cases c 56319);
          [rewrite is_high_true in H by lia; discriminate|].
        destruct (N.le_gt_cases c 57343);
          [rewrite is_low_true in Lc by lia; discriminate | lia].
      * cbn [map concat]. rewrite E. unfold utf16_encode.
        destruct (N.ltb_spec c 65536); [reflexivity | lia].
Qed.

Lemma unreserved_ascii (c : N) :
  unreserved c = true -> (c < 128)%N /\ c <> 37%N.
Proof.
  unfold unreserved.
  rewrite !orb_true_iff, !andb_true_iff, !N.leb_le, !N.eqb_eq. lia.
Qed.

Lemma unreserved_false (c : N) : (128 <= c)%N -> unreserved c = false.
Proof.
  intros L. destruct (unreserved c) eqn:U; [|reflexivity].
  apply unreserved_ascii in U. lia.
Qed.

Lemma utf8_encode_octets (cp : N) :
  (cp < 1114112)%N -> Forall (fun b => b < 256)%N (utf8_encode cp).
Proof.
  intros L. unfold utf8_encode.
  destruct (N.ltb_spec cp 128); [repeat constructor; lia|].
  destruct (N.ltb_spec cp 2048); [repeat constructor; lia|].
  destruct (N.ltb_spec cp 65536); repeat constructor; lia.
Qed.

Lemma unescape_literal (c : N) (rest : text) :
  c <> 37%N -> unescape (c :: rest) = c :: unescape rest.
Proof.
  intros Ne. cbn [unescape].
  destruct (N.eqb_spec c 37); [contradiction | reflexivity].
Qed.

Lemma unescape_percent (b : N) (rest : text) :
  (b < 256)%N -> unescape (percent b ++ rest) = b :: unescape rest.
Proof.
  intros L. unfold percent. cbn [app unescape].
  change (37 =? 37)%N with true. cbn [negb].
  destruct rest as [|r1 [|r2 [|r3 rest]]];
    rewrite ?upper_hex_not_u, octet_upper by exact L; reflexivity.
Qed.

Lemma unescape_percent_all (octets : list N) (rest : text) :
  Forall (fun b => b < 256)%N octets ->
  unescape (percent_all octets ++ rest) = octets ++ unescape rest.
Proof.
  induction 1 as [|b octets Lb _ IH]; [reflexivity|].
  unfold percent_all in *. cbn [map concat].
  rewrite <- !app_assoc, unescape_percent by exact Lb.
  cbn [app]. f_equal. exact IH.
Qed.

Lemma encodeURIComponent_point (cp : N) (rest : text) :
  scalar cp ->
  encodeURIComponent (utf16_encode cp ++ rest)
  = option_map (app (escaped_point cp)) (encodeURIComponent rest).
Proof.
  intros S. unfold utf16_encode, escaped_point.
  destruct (N.ltb_spec cp 65536) as [Small | Large].
  - cbn [app encodeURIComponent].
    destruct (unreserved cp) eqn:U; [reflexivity|].
    rewrite is_high_false, is_low_false by (unfold scalar in S; lia).
    reflexivity.
  - cbn [app encodeURIComponent].
    rewrite !unreserved_false by lia.
    unfold scalar in S.
    rewrite is_high_true, is_low_true by lia.
    replace (65536 + (55296 + (cp - 65536) / 1024 - 55296) * 1024
             + (56320 + (cp - 65536) mod 1024 - 56320))%N
      with cp by lia.
    reflexivity.
Qed.

Lemma unescape_point (cp : N) (rest : text) :
  scalar cp ->
  unescape (escaped_point cp ++ rest) = utf8_encode cp ++ unescape rest.
Proof.
  intros S. unfold escaped_point.
  destruct (unreserved cp) eqn:U.
  - apply unreserved_ascii in U. destruct U as [Small Ne].
    cbn [app]. rewrite unescape_literal by exact Ne.
    unfold utf8_encode. destruct (N.ltb_spec cp 128); [reflexivity | lia].
  - apply unescape_percent_all, utf8_encode_octets.
    unfold scalar in S. lia.
Qed.

(** The push side, up to Base64: the escapes are undone into the UTF-8
    octets of the text. *)
Lemma encodeURIComponent_utf8 (cps : list N) :
  Forall scalar cps ->
  exists escaped,
    encodeURIComponent (concat (map utf16_encode cps)) = Some escaped
    /\ unescape escaped = concat (map utf8_encode cps).
Proof.
  induction 1 as [|cp cps S _ (escaped & E & U)].
  - exists []. split; reflexivity.
  - exists (escaped_point cp ++ escaped). cbn [map concat].
    rewrite encodeURIComponent_point, E by exact S.
    split; [reflexivity|].
    now rewrite unescape_point, U.
Qed.














(** [encodeURIComponent] throws on every text that is not well formed. *)
Lemma encodeURIComponent_well_formed (s : text) :
  encodeURIComponent s <> None -> well_formed s = true.
Proof.
  induction s as [| c | c d s IHs IHd] using text_ind2; intros E.
  - reflexivity.
  - cbn [encodeURIComponent well_formed] in *.
    destruct (unreserved c) eqn:U.
    + apply unreserved_ascii in U.
      now rewrite is_high_false, is_low_false by lia.
    + destruct (is_high_surrogate c); [contradiction|].
      destruct (is_low_surrogate c); [contradiction | reflexivity].
  - assert (Rest : forall (f : text -> text) r,
               option_map f (encodeURIComponent r) <> None ->
               encodeURIComponent r <> None).
    { intros f r. now destruct (encodeURIComponent r). }
    remember (d :: s) as ds eqn:Eds.
    cbn [encodeURIComponent well_formed] in E |- *.
    destruct (unreserved c) eqn:U.
    + apply unreserved_ascii in U.
      rewrite is_high_false, is_low_false by lia.
      apply Rest in E. now rewrite (IHd E).
    + destruct (is_high_surrogate c).
      * subst ds. cbv beta match in E |- *.
        destruct (is_low_surrogate d); [|contradiction].
        apply Rest in E. now rewrite (IHs E).
      * destruct (is_low_surrogate c); [contradiction|].
        apply Rest in E. now rewrite (IHd E).
Qed.

End CodecFacts.



(** X17.  The encoding of a text file for the push throws exactly when the
    content holds a surrogate that is not part of a pair; otherwise it is
    the Base64 text of the UTF-8 octets of the content.  [unescape] turns
    the escapes of [encodeURIComponent] into code units below 256, so
    [btoa] never refuses its argument. *)
Theorem encode_content_utf8 :
  forall content : text,
    Forall (fun c => (c < 65536)%N) content ->
    Codec.encode_content content
    = if Codec.well_formed content
      then Some (Codec.base64_encode (Codec.utf8 content))
      else None.
Proof.
  intros content Units. unfold Codec.encode_content.
  destruct (Codec.well_formed content) eqn:W.
  - destruct (CodecFacts.well_formed_points content W Units) as [Sc Eu].
    destruct (CodecFacts.encodeURIComponent_utf8 _ Sc)
      as (escaped & Enc & Un).
    rewrite Eu in Enc. rewrite Enc, Un.
    unfold Codec.btoa, Codec.utf8.
    assert (Octets : forallb (fun c => (c <=? 255)%N)
                       (concat (map Codec.utf8_encode
                                  (Codec.code_points content))) = true).
    { apply forallb_forall. intros b I. apply in_concat in I.
      destruct I as (octets & Io & Ib). apply in_map_iff in Io.
      destruct Io as (cp & <- & Icp).
      rewrite Forall_forall in Sc. specialize (Sc cp Icp).
      assert (L : (cp < 1114112)%N) by (unfold Codec.scalar in Sc; lia).
      pose proof (CodecFacts.utf8_encode_octets cp L) as O.
      rewrite Forall_forall in O. specialize (O b Ib).
      apply N.leb_le. lia. }
    now rewrite Octets.
  - destruct (Codec.encodeURIComponent content) as [escaped|] eqn:Enc;
      [|reflexivity].
    rewrite CodecFacts.encodeURIComponent_well_formed in W;
      [discriminate | now rewrite Enc].
Qed.

Lemma encode_content_utf8_witness :
  Forall (fun c => (c < 65536)%N) [97; 55357]%N
  /\ Codec.well_formed [97; 55357]%N = false
  /\ Codec.encode_content [97; 55357]%N = None
  /\ Codec.encode_content (lit "Hi!") = Some (lit "SGkh").
Proof.
  assert (Units : Forall (fun c => (c < 65536)%N) [97; 55357]%N)
    by (repeat constructor).
  assert (Ascii : Forall (fun c => (c < 65536)%N) (lit "Hi!"))
    by (repeat constructor).
  split; [exact Units|]. split; [reflexivity|]. split.
  - exact (encode_content_utf8 [97; 55357]%N Units).
  - exact (encode_content_utf8 (lit "Hi!") Ascii).
Defined.
